(** * jx: [jx get build log] on the Prow / Tekton path

    A shallow embedding of [pkg/jx/cmd/get_build_logs.go]: the catalog
    loaders [loadBuilds] and [loadPipelines], the resolution of a pipeline
    name in [getProwBuildLog], the walk over init containers and
    [waitForInitContainerToStart].

    The cluster is an oracle indexed by the number of external calls made so
    far, so that one execution can observe a pod or a catalog that changes
    while the command runs.  What the program prints and which external
    calls it makes are recorded, in order, in a trace. *)

From stdpp Require Import gmap strings list sorting.
From Stdlib Require Import ZArith Lia.

Local Open Scope string_scope.
Local Open Scope list_scope.
Local Open Scope Z_scope.

(** ** Kubernetes objects (k8s.io/api/core/v1), the fields the command reads *)

Inductive PodPhase := PodPending | PodRunning | PodSucceeded | PodFailed | PodUnknown.

#[global] Instance PodPhase_eq_dec : EqDecision PodPhase.
Proof. solve_decision. Defined.

Record ContainerStateTerminated := {
  ExitCode : Z;
  Message : string
}.

(** [started] is what kube.HasInitContainerStarted looks at, [Terminated] is
    the nil-able pointer of the Go struct. *)
Record ContainerState := {
  started : bool;
  Terminated : option ContainerStateTerminated
}.

Record ContainerStatus := {
  ContainerStatus_Name : string;
  ContainerStatus_State : ContainerState
}.

Record Container := {
  Container_Name : string
}.

Record Pod := {
  Pod_Name : string;
  Spec_InitContainers : list Container;
  Status_Phase : PodPhase;
  Status_InitContainerStatuses : list ContainerStatus
}.

(** ** Build descriptors (packages builds and tekton) *)

Record BuildPodInfo := {
  BuildPodInfo_Pipeline : string;
  BuildPodInfo_Build : string;
  BuildPodInfo_BuildNumber : Z;
  BuildPodInfo_Branch : string;
  BuildPodInfo_Pod : option Pod
}.

Record StageInfo := {
  Stage_Name : string;
  Stage_Parents : list string;
  Stage_Pod : option Pod
}.

Record PipelineRunInfo := {
  PipelineRunInfo_Pipeline : string;
  PipelineRunInfo_Build : string;
  PipelineRunInfo_BuildNumber : Z;
  PipelineRunInfo_Branch : string;
  PipelineRun : string;
  Stages : list StageInfo
}.

(** The interface builds.BaseBuildInfo, with the two implementations the
    command downcasts to. *)
Inductive BaseBuildInfo :=
| IsBuildPodInfo (b : BuildPodInfo)
| IsPipelineRunInfo (pr : PipelineRunInfo).

Class BuildInfo (T : Type) := {
  Pipeline : T -> string;
  Build : T -> string;
  BuildNumber : T -> Z;
  Branch : T -> string;
  asBase : T -> BaseBuildInfo
}.

#[global] Instance BuildPodInfo_BuildInfo : BuildInfo BuildPodInfo := {|
  Pipeline := BuildPodInfo_Pipeline;
  Build := BuildPodInfo_Build;
  BuildNumber := BuildPodInfo_BuildNumber;
  Branch := BuildPodInfo_Branch;
  asBase := IsBuildPodInfo
|}.

#[global] Instance PipelineRunInfo_BuildInfo : BuildInfo PipelineRunInfo := {|
  Pipeline := PipelineRunInfo_Pipeline;
  Build := PipelineRunInfo_Build;
  BuildNumber := PipelineRunInfo_BuildNumber;
  Branch := PipelineRunInfo_Branch;
  asBase := IsPipelineRunInfo
|}.

#[global] Instance BaseBuildInfo_BuildInfo : BuildInfo BaseBuildInfo := {|
  Pipeline := fun b => match b with IsBuildPodInfo x => Pipeline x | IsPipelineRunInfo x => Pipeline x end;
  Build := fun b => match b with IsBuildPodInfo x => Build x | IsPipelineRunInfo x => Build x end;
  BuildNumber := fun b => match b with IsBuildPodInfo x => BuildNumber x | IsPipelineRunInfo x => BuildNumber x end;
  Branch := fun b => match b with IsBuildPodInfo x => Branch x | IsPipelineRunInfo x => Branch x end;
  asBase := fun b => b
|}.

(** [build.GetBuild()] *)
Definition GetBuild (b : BaseBuildInfo) : string := Build b.

(** [name := build.Pipeline + " #" + build.Build] *)
Definition displayName {T} `{BuildInfo T} (build : T) : string :=
  Pipeline build +:+ " #" +:+ Build build.

(** ** The catalog: the four values a loader returns beside its error *)

Record Catalog := {
  names : list string;
  defaultName : string;
  buildMap : gmap string BaseBuildInfo;
  pipelineMap : gmap string BaseBuildInfo
}.

Definition emptyCatalog : Catalog :=
  {| names := []; defaultName := ""; buildMap := ∅; pipelineMap := ∅ |}.

(** One turn of the loop [for _, build := range buildInfos] (lines 469-478
    of loadBuilds, and the same text at lines 511-520 of loadPipelines). *)
Definition indexStep {T} `{BuildInfo T} (c : Catalog) (build : T) : Catalog :=
  let name := displayName build in
  {| names := names c ++ [name];
     defaultName := if String.eqb (Branch build) "master" then name else defaultName c;
     buildMap := <[name := asBase build]> (buildMap c);
     pipelineMap := <[Pipeline build := asBase build]> (pipelineMap c) |}.

Definition indexBuilds {T} `{BuildInfo T} (buildInfos : list T) : Catalog :=
  foldl indexStep emptyCatalog buildInfos.

(** ** Sorting *)

(** Modelled from the spec: builds.SortBuildPodInfos and
    tekton.SortPipelineRunInfos are not among the sources.  Section 4.2 of
    the specification gives the order: newest build number first, ties
    broken by pipeline name. *)
Definition newestFirstb {T} `{BuildInfo T} (a b : T) : bool :=
  (BuildNumber b <? BuildNumber a)%Z
  || ((BuildNumber a =? BuildNumber b)%Z && String.leb (Pipeline a) (Pipeline b)).

Definition newestFirst {T} `{BuildInfo T} : relation T :=
  fun a b => newestFirstb a b = true.

#[global] Instance newestFirst_dec {T} `{BuildInfo T} (a b : T) :
  Decision (newestFirst a b).
Proof. unfold newestFirst. apply bool_eq_dec. Defined.

Definition sortNewestFirst {T} `{BuildInfo T} (l : list T) : list T :=
  merge_sort newestFirst l.

Definition SortBuildPodInfos (l : list BuildPodInfo) : list BuildPodInfo :=
  sortNewestFirst l.

Definition SortPipelineRunInfos (l : list PipelineRunInfo) : list PipelineRunInfo :=
  sortNewestFirst l.

(** ** Errors, log lines and the trace *)

Inductive Error :=
| ClusterError (msg : string)                         (* an error of a client call *)
| MissingArgument (arg : string)                      (* util.MissingArgument *)
| NoBuildsTriggered                                   (* line 466 *)
| NoPipelinesTriggered                                (* line 508 *)
| NoPipelineChosen                                    (* line 266 *)
| NoPipelineExistsYet (name : string)                 (* line 300 *)
| NoPipelineFound (name : string) (values : list string)   (* line 310 *)
| NoPodForStageYet (stage pipelineRun : string)       (* line 326 *)
| NoInitContainers (pod name : string)                (* lines 339 and 374 *)
| NoPodFound (name : string)                          (* line 370 *)
| FailedToFindPod (pod : string) (cause : Error)      (* errors.Wrapf, lines 344 and 381 *)
| FailedToLoadPod (pod : string) (cause : Error)      (* errors.Wrapf, line 424 *)
| TimeoutExceeded (elapsed : nat) (last : Error).     (* util.Retry giving up *)

Inductive result (A : Type) :=
| Success (a : A)
| Failure (e : Error).
Arguments Success {A} a.
Arguments Failure {A} e.

Inductive Event :=
(* log.Warnf *)
| WarnFailedToQueryPods (e : Error)
| WarnFailedToQueryPipelineRuns (e : Error)
| WarnErrorCreatingPipelineRunInfo (pipelineRun : string) (e : Error)
| WarnContainerFailed (container : string) (exitCode : Z) (message : string)
| WarnPodFailed (pod : string)
(* log.Infof *)
| InfoWaitingForPipeline (name : string)
| InfoNoBuildFoundIn (values : list string)
| InfoBuildLogsFor (name : string)
| InfoNoPodYetForStage (stage pipelineRun : string)
| InfoWaitingForInitContainer (pod container : string)
| InfoGettingPodLog (pod container : string)
| InfoGettingStageLog (build stage container : string)
(* calls that leave the process *)
| CallGitInfo
| CallPickName (choices : list string) (default : string)
| CallGetBuildPods (ns : string)
| CallListPipelineRuns (ns : string)
| CallCreatePipelineRunInfo (ns pipelineRun : string)
| CallSetPodsForStageInfo (ns stage pipelineRun : string)
| CallPodsGet (ns pod : string)
| CallTailLogs (ns pod container : string)
| Sleep (seconds : nat).

(** [tick] counts the external calls made so far; the oracle answers by it. *)
Record State := {
  tick : nat;
  trace : list Event
}.

Definition initialState : State := {| tick := 0; trace := [] |}.

Inductive Outcome (A : Type) :=
| Returns (a : A) (s : State)
| Fails (e : Error) (s : State)      (* [return err] out of the command *)
| Panics (s : State)                 (* a Go run-time panic *)
| Diverges (s : State).              (* the fuel of an unbounded loop ran out *)
Arguments Returns {A} a s.
Arguments Fails {A} e s.
Arguments Panics {A} s.
Arguments Diverges {A} s.

Definition M (A : Type) : Type := State -> Outcome A.

Definition ret {A} (a : A) : M A := fun s => Returns a s.

Definition bind {A B} (m : M A) (k : A -> M B) : M B :=
  fun s =>
    match m s with
    | Returns a s' => k a s'
    | Fails e s' => Fails e s'
    | Panics s' => Panics s'
    | Diverges s' => Diverges s'
    end.

Definition fail {A} (e : Error) : M A := fun s => Fails e s.
Definition panic {A} : M A := fun s => Panics s.
Definition diverge {A} : M A := fun s => Diverges s.

Notation "x <- m ;; k" := (bind m (fun x => k))
  (at level 20, m at level 99, k at level 200, only parsing).
Notation "m ;;; k" := (bind m (fun _ => k))
  (at level 20, k at level 200, only parsing).

(** Appends a log line to the trace. *)
Definition log (e : Event) : M unit :=
  fun s => Returns tt {| tick := tick s; trace := trace s ++ [e] |}.

(** An external call: it is recorded, it is answered from the current tick,
    and the tick advances. *)
Definition call {A} (e : Event) (answer : nat -> A) : M A :=
  fun s => Returns (answer (tick s)) {| tick := S (tick s); trace := trace s ++ [e] |}.

(** [time.Sleep] *)
Definition sleep (seconds : nat) : M unit := call (Sleep seconds) (fun _ => tt).

(** ** Options of the command *)

Record BuildPodInfoFilter := {
  Filter_Owner : string;
  Filter_Repository : string;
  Filter_Branch : string;
  Filter_Build : string;
  Filter_Filter : string;
  Filter_Pending : bool
}.

(** Durations are in seconds. *)
Record GetBuildLogsOptions := {
  Args : list string;
  BatchMode : bool;
  Wait : bool;
  WaitForPipelineDuration : nat;
  CurrentFolder : bool;
  BuildFilter : BuildPodInfoFilter
}.

(** ** The environment of the command

    The cluster and the terminal, each answer indexed by the tick, and the
    helpers of other packages that the command calls and that are not among
    the sources. *)
Record World := {
  (* os.Getwd and gits.NewGitCLI().Info: repository name and organisation *)
  GitInfo : nat -> result (string * string);
  (* util.PickNameWithDefault *)
  PickNameWithDefault : nat -> list string -> string -> result string;
  (* builds.GetBuildPods *)
  GetBuildPods : nat -> string -> result (list Pod);
  (* tektonClient.TektonV1alpha1().PipelineRuns(ns).List: the items' names *)
  PipelineRuns_List : nat -> string -> result (list string);
  (* tekton.CreatePipelineRunInfo: an error, nil, or a descriptor *)
  CreatePipelineRunInfo : nat -> string -> string -> result (option PipelineRunInfo);
  (* stage.SetPodsForStageInfo: an error, or the value of stage.Pod afterwards *)
  SetPodsForStageInfo : nat -> string -> StageInfo -> string -> result (option Pod);
  (* kubeClient.CoreV1().Pods(ns).Get *)
  Pods_Get : nat -> string -> string -> result Pod;
  (* the pod pointer that Get gives back beside an error: nil, or a pod *)
  Pods_Get_failed : nat -> string -> string -> option Pod;
  (* o.TailLogs *)
  TailLogs : nat -> string -> string -> string -> option Error;
  (* builds.CreateBuildPodInfo *)
  CreateBuildPodInfo : Pod -> BuildPodInfo;
  (* BuildPodInfoFilter.BuildMatches *)
  BuildMatches : BuildPodInfoFilter -> BuildPodInfo -> bool;
  (* the pause between two attempts of util.Retry, in seconds *)
  RetryInterval : nat
}.

(** Modelled from the spec: kube.HasInitContainerStarted is not among the
    sources.  Section 4.5 of the specification: the target container's
    status shows started = true; a pod snapshot without a status at
    that index has not started it. *)
Definition HasInitContainerStarted (pod : Pod) (idx : nat) : bool :=
  match Status_InitContainerStatuses pod !! idx with
  | Some status => started (ContainerStatus_State status)
  | None => false
  end.

(** Modelled from the spec: StageInfo.GetStageNameIncludingParents is not
    among the sources.  Section 3 of the specification: a stage has a name
    and an optional parent path, for nested stage display names. *)
Definition GetStageNameIncludingParents (stage : StageInfo) : string :=
  String.concat " / " (Stage_Parents stage ++ [Stage_Name stage]).

(** Modelled from the spec: PipelineRunInfo.GetOrderedTaskStages is not
    among the sources.  Section 3 of the specification: a pipeline run is an
    ordered sequence of stages, visited in their declaration order. *)
Definition GetOrderedTaskStages (pr : PipelineRunInfo) : list StageInfo :=
  Stages pr.

Section Command.

Context (w : World).
(** The namespace of the team. *)
Context (ns : string).
(** How many polls an unbounded wait may make before the model gives up
    on it; the program itself has no such bound. *)
Context (fuel : nat).

(** *** util.Retry *)

(** Modelled from the spec: util.Retry is not among the sources.  Sections
    4.3 and 4.4 of the specification: retry at a fixed interval until the
    attempt succeeds or the timeout elapses, then fail with a timeout
    error.  The closure [f] of the Go code assigns to variables of the
    enclosing function: here it takes them and gives them back. *)
Fixpoint retryLoop {V} (more elapsed : nat) (f : V -> M (V * option Error)) (v : V)
  : M (V * option Error) :=
  r <- f v;;
  match r with
  | (v', None) => ret (v', None)
  | (v', Some err) =>
      sleep (RetryInterval w);;;
      let elapsed' := (elapsed + RetryInterval w)%nat in
      match more with
      | O => ret (v', Some (TimeoutExceeded elapsed' err))
      | S more' => retryLoop more' elapsed' f v'
      end
  end.

(** The attempts are made at 0, interval, 2 * interval, ... as long as
    that is before the timeout. *)
Definition attempts (maxElapsedTime : nat) : nat :=
  Nat.max 1 ((maxElapsedTime + RetryInterval w - 1) / RetryInterval w)%nat.

Definition Retry {V} (maxElapsedTime : nat) (f : V -> M (V * option Error)) (v : V)
  : M (V * option Error) :=
  retryLoop (Nat.pred (attempts maxElapsedTime)) 0 f v.

(** *** loadBuilds (lines 442-480) *)

(** Lines 454-463. *)
Definition collectBuildInfos (filter : BuildPodInfoFilter) (pods : list Pod)
  : list BuildPodInfo :=
  foldl (fun buildInfos pod =>
           let initContainers := Spec_InitContainers pod in
           if (0 <? length initContainers)%nat then
             let buildInfo := CreateBuildPodInfo w pod in
             if BuildMatches w filter buildInfo
             then buildInfos ++ [buildInfo]
             else buildInfos
           else buildInfos)
        [] pods.

Definition loadBuilds (filter : BuildPodInfoFilter) : M (Catalog * option Error) :=
  r <- call (CallGetBuildPods ns) (fun t => GetBuildPods w t ns);;
  match r with
  | Failure err =>
      log (WarnFailedToQueryPods err);;;
      ret (emptyCatalog, Some err)
  | Success pods =>
      let buildInfos := SortBuildPodInfos (collectBuildInfos filter pods) in
      if (length buildInfos =? 0)%nat
      then ret (emptyCatalog, Some NoBuildsTriggered)
      else ret (indexBuilds buildInfos, None)
  end.

(** *** loadPipelines (lines 482-522) *)

(** Lines 495-505: the loop returns out of loadPipelines at the first
    error of tekton.CreatePipelineRunInfo. *)
Fixpoint createPipelineRunInfos (items : list string) (buildInfos : list PipelineRunInfo)
  : M (result (list PipelineRunInfo)) :=
  match items with
  | [] => ret (Success buildInfos)
  | prName :: rest =>
      r <- call (CallCreatePipelineRunInfo ns prName)
                (fun t => CreatePipelineRunInfo w t ns prName);;
      match r with
      | Failure err =>
          log (WarnErrorCreatingPipelineRunInfo prName err);;;
          ret (Failure err)
      | Success None => createPipelineRunInfos rest buildInfos
      | Success (Some pri) => createPipelineRunInfos rest (buildInfos ++ [pri])
      end
  end.

Definition loadPipelines : M (Catalog * option Error) :=
  r <- call (CallListPipelineRuns ns) (fun t => PipelineRuns_List w t ns);;
  match r with
  | Failure err =>
      log (WarnFailedToQueryPipelineRuns err);;;
      ret (emptyCatalog, Some err)
  | Success items =>
      r <- createPipelineRunInfos items [];;
      match r with
      | Failure err => ret (emptyCatalog, Some err)
      | Success buildInfos =>
          let buildInfos := SortPipelineRunInfos buildInfos in
          if (length buildInfos =? 0)%nat
          then ret (emptyCatalog, Some NoPipelinesTriggered)
          else ret (indexBuilds buildInfos, None)
      end
  end.

(** *** waitForInitContainerToStart (lines 406-430) *)

(** The loop [for { ... }] of lines 419-429. *)
Fixpoint pollUntilStarted (fuel : nat) (pod : Pod) (idx : nat) : M Pod :=
  match fuel with
  | O => diverge
  | S fuel' =>
      sleep 1;;;
      r <- call (CallPodsGet ns (Pod_Name pod)) (fun t => Pods_Get w t ns (Pod_Name pod));;
      match r with
      | Failure err => fail (FailedToLoadPod (Pod_Name pod) err)
      | Success p =>
          if HasInitContainerStarted p idx then ret p
          else pollUntilStarted fuel' pod idx
      end
  end.

Definition waitForInitContainerToStart (pod : Pod) (idx : nat) : M Pod :=
  if decide (Status_Phase pod = PodFailed) then
    log (WarnPodFailed (Pod_Name pod));;;
    ret pod
  else if HasInitContainerStarted pod idx then ret pod
  else
    let containerName :=
      if (idx <? length (Spec_InitContainers pod))%nat
      then from_option Container_Name "" (Spec_InitContainers pod !! idx)
      else "" in
    log (InfoWaitingForInitContainer (Pod_Name pod) containerName);;;
    pollUntilStarted fuel pod idx.

(** *** getPodLog and getStageLog (lines 432-440) *)

Definition tailLogs (pod container : string) : M unit :=
  r <- call (CallTailLogs ns pod container) (fun t => TailLogs w t ns pod container);;
  match r with
  | Some err => fail err
  | None => ret tt
  end.

Definition getPodLog (pod : Pod) (container : Container) : M unit :=
  log (InfoGettingPodLog (Pod_Name pod) (Container_Name container));;;
  tailLogs (Pod_Name pod) (Container_Name container).

Definition getStageLog (build stageName : string) (pod : Pod) (container : Container)
  : M unit :=
  log (InfoGettingStageLog build stageName (Container_Name container));;;
  tailLogs (Pod_Name pod) (Container_Name container).

(** *** getProwBuildLog (lines 222-404) *)

(** Lines 346-355 and 383-392.  [icStatuses[i-1]] panics in Go when the
    index is out of range. *)
Definition failureCheck (i : nat) (pod : Pod) : M unit :=
  if (0 <? i)%nat then
    let icStatuses := Status_InitContainerStatuses pod in
    if (i <? length icStatuses)%nat then
      match icStatuses !! (i - 1)%nat with
      | None => panic
      | Some lastContainer =>
          match Terminated (ContainerStatus_State lastContainer) with
          | Some terminated =>
              if negb (ExitCode terminated =? 0)
              then log (WarnContainerFailed (ContainerStatus_Name lastContainer)
                                            (ExitCode terminated) (Message terminated))
              else ret tt
          | None => ret tt
          end
      end
    else ret tt
  else ret tt.

(** The body of [for i, ic := range initContainers] (lines 342-363 and
    379-400); the two loops differ in the log function only.
    [pod, err := ...Get(pod.Name, ...)] declares a new [pod] in the body:
    the pod is read again by the name of the pod the loop started from,
    and the [pod.Name] of the error message is that of the pod the failed
    Get gave back, a nil dereference when that is nil. *)
Definition visitContainer (getLog : Pod -> Container -> M unit)
           (podName : string) (i : nat) (ic : Container) : M unit :=
  r <- call (CallPodsGet ns podName)
            (fun t => (Pods_Get w t ns podName, Pods_Get_failed w t ns podName));;
  match r with
  | (Failure err, None) => panic
  | (Failure err, Some pod) => fail (FailedToFindPod (Pod_Name pod) err)
  | (Success pod, _) =>
      failureCheck i pod;;;
      pod <- waitForInitContainerToStart pod i;;
      getLog pod ic
  end.

Fixpoint visitContainers (getLog : Pod -> Container -> M unit)
         (podName : string) (i : nat) (initContainers : list Container) : M unit :=
  match initContainers with
  | [] => ret tt
  | ic :: rest =>
      visitContainer getLog podName i ic;;;
      visitContainers getLog podName (S i) rest
  end.

(** The closure of lines 319-330. *)
Definition setPodsForStage (pipelineRun : string) (stage : StageInfo)
  : M (StageInfo * option Error) :=
  r <- call (CallSetPodsForStageInfo ns (Stage_Name stage) pipelineRun)
            (fun t => SetPodsForStageInfo w t ns stage pipelineRun);;
  match r with
  | Failure err => ret (stage, Some err)
  | Success pod =>
      let stage := {| Stage_Name := Stage_Name stage;
                      Stage_Parents := Stage_Parents stage;
                      Stage_Pod := pod |} in
      match pod with
      | None =>
          log (InfoNoPodYetForStage (Stage_Name stage) pipelineRun);;;
          ret (stage, Some (NoPodForStageYet (Stage_Name stage) pipelineRun))
      | Some _ => ret (stage, None)
      end
  end.

(** Lines 317-335: the stage, with its pod once that is known. *)
Definition awaitStagePod (maxElapsedTime : nat) (pipelineRun : string)
           (stage : StageInfo) : M StageInfo :=
  match Stage_Pod stage with
  | None =>
      r <- Retry maxElapsedTime (setPodsForStage pipelineRun) stage;;
      match r with
      | (_, Some err) => fail err
      | (stage, None) => ret stage
      end
  | Some _ => ret stage
  end.

(** The body of [for _, stage := range pr.GetOrderedTaskStages()]
    (lines 317-364).  [pod.Spec] of a nil pod is a nil dereference. *)
Definition visitStage (maxElapsedTime : nat) (name suffix pipelineRun : string)
           (stage : StageInfo) : M unit :=
  stage <- awaitStagePod maxElapsedTime pipelineRun stage;;
  match Stage_Pod stage with
  | None => panic
  | Some pod =>
      let initContainers := Spec_InitContainers pod in
      if (length initContainers <=? 0)%nat
      then fail (NoInitContainers (Pod_Name pod) name)
      else visitContainers
             (getStageLog (name +:+ suffix) (GetStageNameIncludingParents stage))
             (Pod_Name pod) 0 initContainers
  end.

Fixpoint visitStages (maxElapsedTime : nat) (name suffix pipelineRun : string)
         (stages : list StageInfo) : M unit :=
  match stages with
  | [] => ret tt
  | stage :: rest =>
      visitStage maxElapsedTime name suffix pipelineRun stage;;;
      visitStages maxElapsedTime name suffix pipelineRun rest
  end.

(** Lines 367-401. *)
Definition visitBuildPod (name suffix : string) (b : BuildPodInfo) : M unit :=
  match BuildPodInfo_Pod b with
  | None => fail (NoPodFound name)
  | Some pod =>
      let initContainers := Spec_InitContainers pod in
      if (length initContainers <=? 0)%nat
      then fail (NoInitContainers (Pod_Name pod) name)
      else
        log (InfoBuildLogsFor (name +:+ suffix));;;
        visitContainers getPodLog (Pod_Name pod) 0 initContainers
  end.

(** Lines 269-276 and 291-297: the exact index first, then the index by
    pipeline, which also sets the suffix. *)
Definition lookupBuild (c : Catalog) (name suffix : string)
  : option BaseBuildInfo * string :=
  match buildMap c !! name with
  | Some build => (Some build, suffix)
  | None =>
      match pipelineMap c !! name with
      | Some build => (Some build, " #" +:+ GetBuild build)
      | None => (None, suffix)
      end
  end.

(** What the closure of lines 281-303 reads and assigns: names,
    defaultName, buildMap and pipelineMap (a catalog), build and suffix. *)
Definition Resolution : Type := Catalog * option BaseBuildInfo * string.

(** The closure of lines 281-303.  The four catalog variables are
    assigned also when the loader fails; [build] and [suffix] are not. *)
Definition reload (load : M (Catalog * option Error)) (name : string)
           (v : Resolution) : M (Resolution * option Error) :=
  let '(_, build0, suffix0) := v in
  r <- load;;
  match r with
  | (c, Some err) => ret ((c, build0, suffix0), Some err)
  | (c, None) =>
      match lookupBuild c name suffix0 with
      | (Some build, suffix) => ret ((c, Some build, suffix), None)
      | (None, suffix) =>
          log (InfoNoBuildFoundIn (names c));;;
          ret ((c, None, suffix), Some (NoPipelineExistsYet name))
      end
  end.

(** Lines 223-236. *)
Definition currentFolderFilter (o : GetBuildLogsOptions) : M BuildPodInfoFilter :=
  if CurrentFolder o then
    r <- call CallGitInfo (GitInfo w);;
    match r with
    | Failure err => fail err
    | Success (repository, organisation) =>
        ret {| Filter_Owner := organisation;
               Filter_Repository := repository;
               Filter_Branch := Filter_Branch (BuildFilter o);
               Filter_Build := Filter_Build (BuildFilter o);
               Filter_Filter := Filter_Filter (BuildFilter o);
               Filter_Pending := Filter_Pending (BuildFilter o) |}
    end
  else ret (BuildFilter o).

Definition load (tektonEnabled : bool) (filter : BuildPodInfoFilter)
  : M (Catalog * option Error) :=
  if tektonEnabled then loadPipelines else loadBuilds filter.

(** Lines 243-264: the catalog variables, [args] and [pickedPipeline].
    With an argument on the command line nothing is loaded and the maps
    stay nil. *)
Definition pickPipeline (o : GetBuildLogsOptions) (tektonEnabled : bool)
           (filter : BuildPodInfoFilter) : M (Catalog * list string * bool) :=
  match Args o with
  | [] =>
      if BatchMode o then fail (MissingArgument "pipeline")
      else
        r <- load tektonEnabled filter;;
        match r with
        | (_, Some err) => fail err
        | (c, None) =>
            r <- call (CallPickName (names c) (defaultName c))
                      (fun t => PickNameWithDefault w t (names c) (defaultName c));;
            match r with
            | Failure err => fail err
            | Success name => ret (c, [name], true)
            end
        end
  | args => ret (emptyCatalog, args, false)
  end.

(** Lines 265-311: from the arguments to the build, or an error. *)
Definition resolve (o : GetBuildLogsOptions) (tektonEnabled : bool)
           (filter : BuildPodInfoFilter) (c : Catalog) (args : list string)
           (pickedPipeline : bool) : M (string * BaseBuildInfo * string) :=
  match args with
  | [] => fail NoPipelineChosen
  | name :: _ =>
      let '(build, suffix) := lookupBuild c name "" in
      v <- (if bool_decide (build = None) && negb pickedPipeline && Wait o then
              log (InfoWaitingForPipeline name);;;
              r <- Retry (WaitForPipelineDuration o)
                         (reload (load tektonEnabled filter) name) (c, build, suffix);;
              match r with
              | (_, Some err) => fail err
              | (v, None) => ret v
              end
            else ret (c, build, suffix));;
      let '(c, build, suffix) := v in
      match build with
      | None => fail (NoPipelineFound name (names c))
      | Some build => ret (name, build, suffix)
      end
  end.

Definition getProwBuildLog (o : GetBuildLogsOptions) (tektonEnabled : bool) : M unit :=
  filter <- currentFolderFilter o;;
  p <- pickPipeline o tektonEnabled filter;;
  let '(c, args, pickedPipeline) := p in
  r <- resolve o tektonEnabled filter c args pickedPipeline;;
  let '(name, build, suffix) := r in
  if tektonEnabled then
    match build with
    | IsPipelineRunInfo pr =>
        log (InfoBuildLogsFor (name +:+ suffix));;;
        visitStages (WaitForPipelineDuration o) name suffix (PipelineRun pr)
                    (GetOrderedTaskStages pr)
    | IsBuildPodInfo _ => panic
    end
  else
    match build with
    | IsBuildPodInfo b => visitBuildPod name suffix b
    | IsPipelineRunInfo _ => panic
    end.

End Command.

(** ** Vocabulary of the statements *)

Definition finalState {A} (o : Outcome A) : State :=
  match o with
  | Returns _ s | Fails _ s | Panics s | Diverges s => s
  end.

(** The state after an external call recorded as [e]. *)
Definition after (e : Event) (s : State) : State :=
  {| tick := S (tick s); trace := trace s ++ [e] |}.

(** The state after the log lines [es]. *)
Definition logged (es : list Event) (s : State) : State :=
  {| tick := tick s; trace := trace s ++ es |}.

(** The index by pipeline holds, for the pipeline of every loaded
    descriptor, a loaded descriptor of that pipeline with the greatest
    build number. *)
Definition holdsGreatestBuild {T} `{BuildInfo T} (loaded : list T) (c : Catalog) : Prop :=
  ∀ d, d ∈ loaded →
    ∃ e, pipelineMap c !! Pipeline d = Some (asBase e)
         ∧ e ∈ loaded
         ∧ Pipeline e = Pipeline d
         ∧ ∀ d', d' ∈ loaded → Pipeline d' = Pipeline d → BuildNumber d' ≤ BuildNumber e.

(** ** Sample clusters

    Concrete worlds on which the statements below are exercised. *)

(** The pod that the typed client gives back beside an error: a pod
    without a name (of its fields only the name is read). *)
Definition unnamedPod : Pod :=
  {| Pod_Name := "";
     Spec_InitContainers := [];
     Status_Phase := PodUnknown;
     Status_InitContainerStatuses := [] |}.

Definition quietWorld : World := {|
  GitInfo := fun _ => Failure (ClusterError "no git repository");
  Pods_Get_failed := fun _ _ _ => Some unnamedPod;
  PickNameWithDefault := fun _ _ default => Success default;
  GetBuildPods := fun _ _ => Success [];
  PipelineRuns_List := fun _ _ => Success [];
  CreatePipelineRunInfo := fun _ _ _ => Success None;
  SetPodsForStageInfo := fun _ _ _ _ => Success None;
  Pods_Get := fun _ _ _ => Failure (ClusterError "pod not found");
  TailLogs := fun _ _ _ _ => None;
  CreateBuildPodInfo := fun pod =>
    let second := String.eqb (Pod_Name pod) "jx-demo-master-2" in
    {| BuildPodInfo_Pipeline := "jx/demo/master";
       BuildPodInfo_Build := if second then "2" else "1";
       BuildPodInfo_BuildNumber := if second then 2 else 1;
       BuildPodInfo_Branch := "master";
       BuildPodInfo_Pod := Some pod |};
  BuildMatches := fun _ _ => true;
  RetryInterval := 2
|}.

Definition container (name : string) : Container := {| Container_Name := name |}.

Definition samplePod (name : string) (initContainers : list string)
           (phase : PodPhase) (statuses : list ContainerStatus) : Pod :=
  {| Pod_Name := name;
     Spec_InitContainers := container <$> initContainers;
     Status_Phase := phase;
     Status_InitContainerStatuses := statuses |}.

Definition statusWaiting (name : string) : ContainerStatus :=
  {| ContainerStatus_Name := name;
     ContainerStatus_State := {| started := false; Terminated := None |} |}.

Definition statusRunning (name : string) : ContainerStatus :=
  {| ContainerStatus_Name := name;
     ContainerStatus_State := {| started := true; Terminated := None |} |}.

Definition statusTerminated (name : string) (exitCode : Z) (message : string)
  : ContainerStatus :=
  {| ContainerStatus_Name := name;
     ContainerStatus_State :=
       {| started := true;
          Terminated := Some {| ExitCode := exitCode; Message := message |} |} |}.

Definition noFilter : BuildPodInfoFilter :=
  {| Filter_Owner := ""; Filter_Repository := ""; Filter_Branch := "";
     Filter_Build := ""; Filter_Filter := ""; Filter_Pending := false |}.

(** A pod scheduled without init containers. *)
Definition barePod : Pod := samplePod "bare-pod" [] PodRunning [].

(** Two builds of one pipeline on the default branch, and a pod without
    init containers between them. *)
Definition twoBuildPods : list Pod :=
  [samplePod "jx-demo-master-1" ["git"; "build"] PodSucceeded [];
   barePod;
   samplePod "jx-demo-master-2" ["git"; "build"] PodRunning []].

Definition twoBuildsWorld : World := {|
  GitInfo := GitInfo quietWorld;
  Pods_Get_failed := Pods_Get_failed quietWorld;
  PickNameWithDefault := PickNameWithDefault quietWorld;
  GetBuildPods := fun _ _ =>
    Success twoBuildPods;
  PipelineRuns_List := PipelineRuns_List quietWorld;
  CreatePipelineRunInfo := CreatePipelineRunInfo quietWorld;
  SetPodsForStageInfo := SetPodsForStageInfo quietWorld;
  Pods_Get := Pods_Get quietWorld;
  TailLogs := TailLogs quietWorld;
  CreateBuildPodInfo := CreateBuildPodInfo quietWorld;
  BuildMatches := BuildMatches quietWorld;
  RetryInterval := RetryInterval quietWorld
|}.

(** A pipeline run with the stages Build (init containers a and b) and Test
    (init container c), both already scheduled. *)
Definition buildStage : StageInfo :=
  {| Stage_Name := "Build"; Stage_Parents := [];
     Stage_Pod := Some (samplePod "build-pod" ["a"; "b"] PodRunning []) |}.

Definition testStage : StageInfo :=
  {| Stage_Name := "Test"; Stage_Parents := [];
     Stage_Pod := Some (samplePod "test-pod" ["c"] PodRunning []) |}.

Definition sampleRun (build : string) (number : Z) : PipelineRunInfo :=
  {| PipelineRunInfo_Pipeline := "jx/demo/master";
     PipelineRunInfo_Build := build;
     PipelineRunInfo_BuildNumber := number;
     PipelineRunInfo_Branch := "master";
     PipelineRun := "jx-demo-master-" +:+ build;
     Stages := [buildStage; testStage] |}.

(** Three pipeline runs; the descriptor of the second cannot be built. *)
Definition brokenRunWorld : World := {|
  GitInfo := GitInfo quietWorld;
  Pods_Get_failed := Pods_Get_failed quietWorld;
  PickNameWithDefault := PickNameWithDefault quietWorld;
  GetBuildPods := GetBuildPods quietWorld;
  PipelineRuns_List := fun _ _ => Success ["run-1"; "run-2"; "run-3"];
  CreatePipelineRunInfo := fun _ _ prName =>
    if String.eqb prName "run-2" then Failure (ClusterError "task not found")
    else if String.eqb prName "run-1" then Success (Some (sampleRun "1" 1))
    else Success (Some (sampleRun "3" 3));
  SetPodsForStageInfo := SetPodsForStageInfo quietWorld;
  Pods_Get := Pods_Get quietWorld;
  TailLogs := TailLogs quietWorld;
  CreateBuildPodInfo := CreateBuildPodInfo quietWorld;
  BuildMatches := BuildMatches quietWorld;
  RetryInterval := RetryInterval quietWorld
|}.

(** The state after [n] turns of the polling loop of
    waitForInitContainerToStart: a sleep of one second and a read of the
    pod, [n] times. *)
Definition polled (ns podName : string) (n : nat) (s : State) : State :=
  {| tick := tick s + 2 * n;
     trace := trace s ++ mjoin (replicate n [Sleep 1; CallPodsGet ns podName]) |}.

(** The first [n] polls of the loop, which are the external calls number
    1, 3, 5, ... after the state it starts in, all answer with a snapshot
    in which the init container [idx] has not started. *)
Definition notStartedUntil (w : World) (ns : string) (pod : Pod) (idx n : nat)
           (s : State) : Prop :=
  ∀ j, (j < n)%nat →
       ∃ q, Pods_Get w (tick s + 2 * j + 1) ns (Pod_Name pod) = Success q
            ∧ HasInitContainerStarted q idx = false.

(** [b] is the descriptor of one of [pods] that has an init container. *)
Definition fromPodWithInitContainers (w : World) (pods : list Pod) (b : BuildPodInfo)
  : Prop :=
  ∃ pod, pod ∈ pods ∧ Spec_InitContainers pod ≠ [] ∧ b = CreateBuildPodInfo w pod.

(** The state after the line that announces the wait for the init
    container [idx] of [pod]. *)
Definition waitingFor (pod : Pod) (idx : nat) (s : State) : State :=
  logged [InfoWaitingForInitContainer
            (Pod_Name pod)
            (from_option Container_Name "" (Spec_InitContainers pod !! idx))] s.

(** A pod whose first init container is reported as started from the sixth
    external call on. *)
Definition slowPod (startedYet : bool) : Pod :=
  samplePod "slow-pod" ["git"]
            PodPending
            [if startedYet then statusRunning "git" else statusWaiting "git"].

Definition slowStartWorld : World := {|
  GitInfo := GitInfo quietWorld;
  Pods_Get_failed := Pods_Get_failed quietWorld;
  PickNameWithDefault := PickNameWithDefault quietWorld;
  GetBuildPods := GetBuildPods quietWorld;
  PipelineRuns_List := PipelineRuns_List quietWorld;
  CreatePipelineRunInfo := CreatePipelineRunInfo quietWorld;
  SetPodsForStageInfo := SetPodsForStageInfo quietWorld;
  Pods_Get := fun t _ _ => Success (slowPod (5 <=? t)%nat);
  TailLogs := TailLogs quietWorld;
  CreateBuildPodInfo := CreateBuildPodInfo quietWorld;
  BuildMatches := BuildMatches quietWorld;
  RetryInterval := RetryInterval quietWorld
|}.

Definition bareStage : StageInfo :=
  {| Stage_Name := "Deploy"; Stage_Parents := []; Stage_Pod := Some barePod |}.

(** A failed pod with two init containers and the status of the first
    only. *)
Definition halfReportedPod : Pod :=
  samplePod "half-pod" ["git"; "build"] PodFailed
            [statusTerminated "git" 1 "clone failed"].

(** The events of streaming a unit: the header line and the call of
    TailLogs. *)
Definition isStream (e : Event) : bool :=
  match e with
  | InfoGettingPodLog _ _ | InfoGettingStageLog _ _ _ | CallTailLogs _ _ _ => true
  | _ => false
  end.

Definition quiet (es : list Event) : Prop := Forall (λ e, isStream e = false) es.

(** [m] adds events to the trace and never a streaming event. *)
Definition streamsNothing {A} (m : M A) : Prop :=
  ∀ s, ∃ es, quiet es ∧ trace (finalState (m s)) = trace s ++ es.

(** [stage'] is [stage] once its pod is known: [stage] itself when it has
    a pod, otherwise [stage] with the pod that SetPodsForStageInfo found. *)
Definition resolvedFrom (w : World) (ns pipelineRun : string) (stage stage' : StageInfo)
  : Prop :=
  Stage_Name stage' = Stage_Name stage
  ∧ Stage_Parents stage' = Stage_Parents stage
  ∧ is_Some (Stage_Pod stage')
  ∧ match Stage_Pod stage with
    | Some _ => stage' = stage
    | None => ∃ t, SetPodsForStageInfo w t ns stage pipelineRun = Success (Stage_Pod stage')
    end.

(** Every pod is running with its first two init containers started, and
    every log can be read. *)
Definition runningWorld : World := {|
  GitInfo := GitInfo quietWorld;
  Pods_Get_failed := Pods_Get_failed quietWorld;
  PickNameWithDefault := PickNameWithDefault quietWorld;
  GetBuildPods := GetBuildPods quietWorld;
  PipelineRuns_List := PipelineRuns_List quietWorld;
  CreatePipelineRunInfo := CreatePipelineRunInfo quietWorld;
  SetPodsForStageInfo := SetPodsForStageInfo quietWorld;
  Pods_Get := fun _ _ name =>
    Success (samplePod name [] PodRunning [statusRunning "first"; statusRunning "second"]);
  TailLogs := TailLogs quietWorld;
  CreateBuildPodInfo := CreateBuildPodInfo quietWorld;
  BuildMatches := BuildMatches quietWorld;
  RetryInterval := RetryInterval quietWorld
|}.


(** *** Exit codes and what depends on them *)

(** The status with the exit code of a terminated container set to 0. *)
Definition clearExitCode (status : ContainerStatus) : ContainerStatus :=
  {| ContainerStatus_Name := ContainerStatus_Name status;
     ContainerStatus_State :=
       {| started := started (ContainerStatus_State status);
          Terminated :=
            (λ t, {| ExitCode := 0; Message := Message t |})
              <$> Terminated (ContainerStatus_State status) |} |}.

(** The pod with every init container that terminated reported as
    succeeded. *)
Definition succeeded (pod : Pod) : Pod :=
  {| Pod_Name := Pod_Name pod;
     Spec_InitContainers := Spec_InitContainers pod;
     Status_Phase := Status_Phase pod;
     Status_InitContainerStatuses := clearExitCode <$> Status_InitContainerStatuses pod |}.

(** The same cluster, where every read of a pod reports zero exit codes. *)
Definition withoutFailures (w : World) : World := {|
  GitInfo := GitInfo w;
  Pods_Get_failed := Pods_Get_failed w;
  PickNameWithDefault := PickNameWithDefault w;
  GetBuildPods := GetBuildPods w;
  PipelineRuns_List := PipelineRuns_List w;
  CreatePipelineRunInfo := CreatePipelineRunInfo w;
  SetPodsForStageInfo := SetPodsForStageInfo w;
  Pods_Get := fun t ns name =>
    match Pods_Get w t ns name with
    | Success pod => Success (succeeded pod)
    | Failure err => Failure err
    end;
  TailLogs := TailLogs w;
  CreateBuildPodInfo := CreateBuildPodInfo w;
  BuildMatches := BuildMatches w;
  RetryInterval := RetryInterval w
|}.

Definition isSucceeded (pod pod' : Pod) : Prop := pod' = succeeded pod.

Definition sameResult {A B} (R : A → B → Prop) (r : result A) (r' : result B) : Prop :=
  match r, r' with
  | Success a, Success b => R a b
  | Failure e, Failure e' => e = e'
  | _, _ => False
  end.

Definition isFailureWarning (e : Event) : bool :=
  match e with
  | WarnContainerFailed _ _ _ => true
  | _ => false
  end.

Definition withoutWarnings (es : list Event) : list Event :=
  filter (λ e, isFailureWarning e = false) es.

(** Two states that differ in warnings about failed containers only. *)
Definition sameButWarnings (s s' : State) : Prop :=
  tick s = tick s' ∧ withoutWarnings (trace s) = withoutWarnings (trace s').

(** Two outcomes of the same kind, with related values or the same error,
    in states that differ in warnings about failed containers only. *)
Definition sameOutcome {A B} (R : A → B → Prop) (o : Outcome A) (o' : Outcome B) : Prop :=
  match o, o' with
  | Returns a s, Returns b s' => R a b ∧ sameButWarnings s s'
  | Fails e s, Fails e' s' => e = e' ∧ sameButWarnings s s'
  | Panics s, Panics s' => sameButWarnings s s'
  | Diverges s, Diverges s' => sameButWarnings s s'
  | _, _ => False
  end.

Definition simulates {A B} (R : A → B → Prop) (m : M A) (m' : M B) : Prop :=
  ∀ s s', sameButWarnings s s' → sameOutcome R (m s) (m' s').

(** The snapshot [pod], read before unit [i], reports the unit before it as
    [lastContainer], terminated as [terminated] with a non-zero exit code,
    and has a status for unit [i] as well. *)
Definition reportsFailedPredecessor (i : nat) (pod : Pod)
           (lastContainer : ContainerStatus) (terminated : ContainerStateTerminated)
  : Prop :=
  (0 < i)%nat
  ∧ (i < length (Status_InitContainerStatuses pod))%nat
  ∧ Status_InitContainerStatuses pod !! (i - 1)%nat = Some lastContainer
  ∧ Terminated (ContainerStatus_State lastContainer) = Some terminated
  ∧ ExitCode terminated ≠ 0.

(** Every read of a pod answers with [halfReportedPod]. *)
Definition halfReportedWorld : World := {|
  GitInfo := GitInfo quietWorld;
  Pods_Get_failed := Pods_Get_failed quietWorld;
  PickNameWithDefault := PickNameWithDefault quietWorld;
  GetBuildPods := GetBuildPods quietWorld;
  PipelineRuns_List := PipelineRuns_List quietWorld;
  CreatePipelineRunInfo := CreatePipelineRunInfo quietWorld;
  SetPodsForStageInfo := SetPodsForStageInfo quietWorld;
  Pods_Get := fun _ _ _ => Success halfReportedPod;
  TailLogs := TailLogs quietWorld;
  CreateBuildPodInfo := CreateBuildPodInfo quietWorld;
  BuildMatches := BuildMatches quietWorld;
  RetryInterval := RetryInterval quietWorld
|}.

(** A pod whose first init container failed, with the statuses of both. *)
Definition failedFirstPod : Pod :=
  samplePod "failed-pod" ["git"; "build"] PodRunning
            [statusTerminated "git" 1 "clone failed"; statusRunning "build"].

Definition failedFirstWorld : World := {|
  GitInfo := GitInfo quietWorld;
  Pods_Get_failed := Pods_Get_failed quietWorld;
  PickNameWithDefault := PickNameWithDefault quietWorld;
  GetBuildPods := GetBuildPods quietWorld;
  PipelineRuns_List := PipelineRuns_List quietWorld;
  CreatePipelineRunInfo := CreatePipelineRunInfo quietWorld;
  SetPodsForStageInfo := SetPodsForStageInfo quietWorld;
  Pods_Get := fun _ _ _ => Success failedFirstPod;
  TailLogs := TailLogs quietWorld;
  CreateBuildPodInfo := CreateBuildPodInfo quietWorld;
  BuildMatches := BuildMatches quietWorld;
  RetryInterval := RetryInterval quietWorld
|}.

(** *** Waiting for a pipeline *)

(** [k] reloads of the catalog in a row, each followed by the pause of
    util.Retry, find no build for [name]: the loader fails, or its catalog
    has [name] in neither index.  The relation gives the state after the
    last pause. *)
Inductive stillMissing (w : World) (load : M (Catalog * option Error)) (name : string)
  : nat → State → State → Prop :=
| stillMissing_O (s : State) :
    stillMissing w load name 0 s s
| stillMissing_error (k : nat) (s s1 s' : State) (c : Catalog) (err : Error) :
    load s = Returns (c, Some err) s1 →
    stillMissing w load name k (after (Sleep (RetryInterval w)) s1) s' →
    stillMissing w load name (S k) s s'
| stillMissing_absent (k : nat) (s s1 s' : State) (c : Catalog) :
    load s = Returns (c, None) s1 →
    buildMap c !! name = None →
    pipelineMap c !! name = None →
    stillMissing w load name k
                 (after (Sleep (RetryInterval w)) (logged [InfoNoBuildFoundIn (names c)] s1))
                 s' →
    stillMissing w load name (S k) s s'.

(** The build pods appear with the fifth external call. *)
Definition lateBuildsWorld : World := {|
  GitInfo := GitInfo quietWorld;
  Pods_Get_failed := Pods_Get_failed quietWorld;
  PickNameWithDefault := PickNameWithDefault quietWorld;
  GetBuildPods := fun t _ => if (t <? 4)%nat then Success [] else Success twoBuildPods;
  PipelineRuns_List := PipelineRuns_List quietWorld;
  CreatePipelineRunInfo := CreatePipelineRunInfo quietWorld;
  SetPodsForStageInfo := SetPodsForStageInfo quietWorld;
  Pods_Get := Pods_Get quietWorld;
  TailLogs := TailLogs quietWorld;
  CreateBuildPodInfo := CreateBuildPodInfo quietWorld;
  BuildMatches := BuildMatches quietWorld;
  RetryInterval := RetryInterval quietWorld
|}.

(** [jx get build log jx/demo/master --wait --wait-duration d] in batch
    mode. *)
Definition waitingOptions (seconds : nat) : GetBuildLogsOptions :=
  {| Args := ["jx/demo/master"];
     BatchMode := true;
     Wait := true;
     WaitForPipelineDuration := seconds;
     CurrentFolder := false;
     BuildFilter := noFilter |}.


(** *** The visiting order *)

















(** ** Further sample clusters *)

(** Three pipeline runs; the second has no descriptor (nil without error). *)
Definition skippedRunWorld : World := {|
  GitInfo := GitInfo quietWorld;
  Pods_Get_failed := Pods_Get_failed quietWorld;
  PickNameWithDefault := PickNameWithDefault quietWorld;
  GetBuildPods := GetBuildPods quietWorld;
  PipelineRuns_List := fun _ _ => Success ["run-1"; "run-2"; "run-3"];
  CreatePipelineRunInfo := fun _ _ prName =>
    if String.eqb prName "run-2" then Success None
    else if String.eqb prName "run-1" then Success (Some (sampleRun "1" 1))
    else Success (Some (sampleRun "3" 3));
  SetPodsForStageInfo := SetPodsForStageInfo quietWorld;
  Pods_Get := Pods_Get quietWorld;
  TailLogs := TailLogs quietWorld;
  CreateBuildPodInfo := CreateBuildPodInfo quietWorld;
  BuildMatches := BuildMatches quietWorld;
  RetryInterval := RetryInterval quietWorld
|}.

(** ** Further vocabulary *)

(** The containers whose log was asked for, in the order of the calls. *)
Definition tailed (es : list Event) : list string :=
  omap (λ e, match e with CallTailLogs _ _ c => Some c | _ => None end) es.

(** The pod is read, but every read after the third external call fails. *)
Definition vanishingPodWorld : World := {|
  GitInfo := GitInfo quietWorld;
  Pods_Get_failed := Pods_Get_failed quietWorld;
  PickNameWithDefault := PickNameWithDefault quietWorld;
  GetBuildPods := GetBuildPods quietWorld;
  PipelineRuns_List := PipelineRuns_List quietWorld;
  CreatePipelineRunInfo := CreatePipelineRunInfo quietWorld;
  SetPodsForStageInfo := SetPodsForStageInfo quietWorld;
  Pods_Get := fun t _ _ =>
    if (t <? 3)%nat then Success (slowPod false) else Failure (ClusterError "pod deleted");
  TailLogs := TailLogs quietWorld;
  CreateBuildPodInfo := CreateBuildPodInfo quietWorld;
  BuildMatches := BuildMatches quietWorld;
  RetryInterval := RetryInterval quietWorld
|}.

(** Every pod is running with its init containers started; the log of the
    container build cannot be read. *)
Definition brokenLogWorld : World := {|
  GitInfo := GitInfo quietWorld;
  Pods_Get_failed := Pods_Get_failed quietWorld;
  PickNameWithDefault := PickNameWithDefault quietWorld;
  GetBuildPods := GetBuildPods quietWorld;
  PipelineRuns_List := PipelineRuns_List quietWorld;
  CreatePipelineRunInfo := CreatePipelineRunInfo quietWorld;
  SetPodsForStageInfo := SetPodsForStageInfo quietWorld;
  Pods_Get := Pods_Get runningWorld;
  TailLogs := fun _ _ _ c =>
    if String.eqb c "build" then Some (ClusterError "log stream closed") else None;
  CreateBuildPodInfo := CreateBuildPodInfo quietWorld;
  BuildMatches := BuildMatches quietWorld;
  RetryInterval := RetryInterval quietWorld
|}.

(** A build pod with three init containers. *)
Definition threeStepPod : Pod :=
  samplePod "three-step-pod" ["git"; "build"; "deploy"] PodRunning [].

(** [build] is of the implementation that the walk downcasts to:
    [*tekton.PipelineRunInfo] with Tekton, [*builds.BuildPodInfo] without. *)
Definition downcasts (tektonEnabled : bool) (build : BaseBuildInfo) : Prop :=
  match build with
  | IsPipelineRunInfo _ => tektonEnabled = true
  | IsBuildPodInfo _ => tektonEnabled = false
  end.

(** A catalog as the loader for [tektonEnabled] builds it. *)
Definition loadedBy (tektonEnabled : bool) (c : Catalog) : Prop :=
  if tektonEnabled
  then ∃ buildInfos : list PipelineRunInfo, c = indexBuilds buildInfos
  else ∃ buildInfos : list BuildPodInfo, c = indexBuilds buildInfos.

(** [m] never ends in a Go run-time panic. *)
Definition neverPanics {A} (m : M A) : Prop := ∀ s s', m s ≠ Panics s'.

(** [m] ends in a Go run-time panic only in a state that satisfies [P]. *)
Definition panicsOnlyIn {A} (P : State → Prop) (m : M A) : Prop :=
  ∀ s s', m s = Panics s' → P s'.

(** The last thing that happened in [s] is a read of a pod that failed and
    gave back a nil pod beside its error. *)
Definition nilPodOfFailedGet (w : World) (ns : string) (s : State) : Prop :=
  ∃ t podName err,
    tick s = S t
    ∧ last (trace s) = Some (CallPodsGet ns podName)
    ∧ Pods_Get w t ns podName = Failure err
    ∧ Pods_Get_failed w t ns podName = None.

(** The picker answers with the first of the choices. *)
Definition pickFirstWorld : World := {|
  GitInfo := GitInfo quietWorld;
  Pods_Get_failed := Pods_Get_failed quietWorld;
  PickNameWithDefault := fun _ choices default => Success (List.hd default choices);
  GetBuildPods := GetBuildPods twoBuildsWorld;
  PipelineRuns_List := PipelineRuns_List quietWorld;
  CreatePipelineRunInfo := CreatePipelineRunInfo quietWorld;
  SetPodsForStageInfo := SetPodsForStageInfo quietWorld;
  Pods_Get := Pods_Get quietWorld;
  TailLogs := TailLogs quietWorld;
  CreateBuildPodInfo := CreateBuildPodInfo quietWorld;
  BuildMatches := BuildMatches quietWorld;
  RetryInterval := RetryInterval quietWorld
|}.

(** The same with the fake clientset, which gives back a nil pod beside an
    error. *)
Definition fakeClientWorld : World := {|
  GitInfo := GitInfo pickFirstWorld;
  Pods_Get_failed := fun _ _ _ => None;
  PickNameWithDefault := PickNameWithDefault pickFirstWorld;
  GetBuildPods := GetBuildPods pickFirstWorld;
  PipelineRuns_List := PipelineRuns_List pickFirstWorld;
  CreatePipelineRunInfo := CreatePipelineRunInfo pickFirstWorld;
  SetPodsForStageInfo := SetPodsForStageInfo pickFirstWorld;
  Pods_Get := Pods_Get pickFirstWorld;
  TailLogs := TailLogs pickFirstWorld;
  CreateBuildPodInfo := CreateBuildPodInfo pickFirstWorld;
  BuildMatches := BuildMatches pickFirstWorld;
  RetryInterval := RetryInterval pickFirstWorld
|}.

(** [jx get build log] without argument, on a terminal. *)
Definition interactiveOptions (wait : bool) : GetBuildLogsOptions :=
  {| Args := [];
     BatchMode := false;
     Wait := wait;
     WaitForPipelineDuration := 300;
     CurrentFolder := false;
     BuildFilter := noFilter |}.

(** ** The Jenkins path: [Run] (lines 129-171) and [getLastJenkinsBuild]

    The answers of the Jenkins server are arguments of the definitions. *)

(** The fields of gojenkins.Job and gojenkins.Build that the command reads
    or writes. *)
Record Job := {
  Job_Name : string;
  Job_Url : string
}.

Record JenkinsBuild := {
  JenkinsBuild_Number : Z;
  JenkinsBuild_Url : string
}.

(** The zero values of Go: what [jobMap[name]] gives for a missing key, and
    [var last gojenkins.Build]. *)
Definition zeroJob : Job := {| Job_Name := ""; Job_Url := "" |}.
Definition zeroBuild : JenkinsBuild := {| JenkinsBuild_Number := 0; JenkinsBuild_Url := "" |}.

Inductive JenkinsError :=
| NoPipelinesBuilt                                   (* line 142 *)
| NoPipelineChosenYet                                (* line 159 *)
| NoJobExists (name : string)                        (* line 190 *)
| NoBuildFoundNumbered (name : string) (number : Z)  (* line 204 *)
| NoBuildFound (name : string)                       (* line 206 *)
| ServerError (msg : string).                        (* an error of a client call *)

(** [strings.HasSuffix] of the Go library:
    [len(s) >= len(suffix) && s[len(s)-len(suffix):] == suffix]. *)
Definition HasSuffix (s suffix : string) : bool :=
  (String.length suffix <=? String.length s)%nat
  && String.eqb (String.substring (String.length s - String.length suffix)
                                  (String.length suffix) s)
                suffix.

(** [sort.Strings] of the Go library: increasing order, byte by byte. *)
Definition sortStrings (names : list string) : list string :=
  merge_sort String.le names.

(** Lines 136-140.  [ranged] is the order in which [for k := range jobMap]
    happens to give the keys. *)
Definition jobNames (ranged : list string) : list string :=
  sortStrings (foldl (λ names k, names ++ [k]) [] ranged).

(** Lines 145-151. *)
Fixpoint masterDefault (names : list string) : string :=
  match names with
  | [] => ""
  | n :: rest => if HasSuffix n "/master" then n else masterDefault rest
  end.

(** Lines 129-161: the name of the pipeline, from the arguments or from the
    picker.  [getJobMap] is the answer of o.getJobMap with the order its
    keys are ranged in, [pick] that of util.PickNameWithDefault. *)
Definition chooseJenkinsPipeline (args : list string) (batchMode : bool)
           (getJobMap : JenkinsError + gmap string Job * list string)
           (pick : list string → string → JenkinsError + string)
  : JenkinsError + string :=
  let chosen :=
    if negb batchMode && (length args =? 0)%nat then
      match getJobMap with
      | inl err => inl err
      | inr (jobMap, ranged) =>
          let names := jobNames ranged in
          if (length names =? 0)%nat then inl NoPipelinesBuilt
          else
            match pick names (masterDefault names) with
            | inl err => inl err
            | inr name => inr [name]
            end
      end
    else inr args in
  match chosen with
  | inl err => inl err
  | inr [] => inl NoPipelineChosenYet
  | inr (name :: _) => inr name
  end.

(** What one call of the closure of getLastJenkinsBuild (lines 181-211)
    gets from outside: the job map, the base URL of the client, and the
    builds the client answers with (a build and an error, as in Go). *)
Record JenkinsAnswers := {
  Answer_getJobMap : JenkinsError + gmap string Job;
  Answer_BaseURL : string;
  Answer_GetBuild : Job → Z → JenkinsBuild * option JenkinsError;
  Answer_GetLastBuild : Job → JenkinsBuild * option JenkinsError
}.

Section Jenkins.

(** switchJenkinsBaseURL is not among the sources. *)
Context (switchJenkinsBaseURL : string → string → string).

(** The closure [f] of lines 181-211: the new value of [last], and the
    error. *)
Definition lastBuildAttempt (a : JenkinsAnswers) (name : string) (buildNumber : Z)
           (last : JenkinsBuild) : JenkinsBuild * option JenkinsError :=
  match Answer_getJobMap a with
  | inl err => (last, Some err)
  | inr jobMap =>
      let job := default zeroJob (jobMap !! name) in
      if String.eqb (Job_Url job) "" then (last, Some (NoJobExists name))
      else
        let job := {| Job_Name := Job_Name job;
                      Job_Url := switchJenkinsBaseURL (Job_Url job) (Answer_BaseURL a) |} in
        let '(last, err) :=
          if (0 <? buildNumber)%Z then Answer_GetBuild a job buildNumber
          else Answer_GetLastBuild a job in
        match err with
        | Some err => (last, Some err)
        | None =>
            if String.eqb (JenkinsBuild_Url last) "" then
              if (0 <? buildNumber)%Z
              then (last, Some (NoBuildFoundNumbered name buildNumber))
              else (last, Some (NoBuildFound name))
            else
              ({| JenkinsBuild_Number := JenkinsBuild_Number last;
                  JenkinsBuild_Url :=
                    switchJenkinsBaseURL (JenkinsBuild_Url last) (Answer_BaseURL a) |},
               None)
        end
  end.

(** getLastJenkinsBuild (lines 173-220) without --wait: the client is
    created, then the closure is called once. *)
Definition getLastJenkinsBuildOnce (client : JenkinsError + JenkinsAnswers)
           (name : string) (buildNumber : Z) : JenkinsBuild * option JenkinsError :=
  match client with
  | inl err => (zeroBuild, Some err)
  | inr a => lastBuildAttempt a name buildNumber zeroBuild
  end.

End Jenkins.

(** Three jobs of a Jenkins server. *)
Definition sampleJobs : gmap string Job :=
  {[ "jx/demo/master" := {| Job_Name := "master"; Job_Url := "http://jenkins/job/demo/master" |};
     "jx/demo/PR-1" := {| Job_Name := "PR-1"; Job_Url := "http://jenkins/job/demo/PR-1" |};
     "jx/app/master" := {| Job_Name := "master"; Job_Url := "http://jenkins/job/app/master" |} ]}.

Definition sampleAnswers : JenkinsAnswers :=
  {| Answer_getJobMap := inr sampleJobs;
     Answer_BaseURL := "https://jenkins.example.com";
     Answer_GetBuild := fun job number =>
       ({| JenkinsBuild_Number := number;
           JenkinsBuild_Url := Job_Url job +:+ "/numbered" |}, None);
     Answer_GetLastBuild := fun job =>
       ({| JenkinsBuild_Number := 7; JenkinsBuild_Url := Job_Url job +:+ "/7" |}, None) |}.

(** A rebasing that keeps the path and marks the new base. *)
Definition sampleSwitch (url base : string) : string := base +:+ "|" +:+ url.

(** * Properties *)

(** ** The two indices and the default name *)

Section Index.

Context {T : Type} `{BuildInfo T}.

Lemma indexBuilds_snoc (l : list T) (x : T) :
  indexBuilds (l ++ [x]) = indexStep (indexBuilds l) x.
Proof. unfold indexBuilds. by rewrite foldl_app. Qed.

Lemma indexBuilds_names (l : list T) :
  names (indexBuilds l) = displayName <$> l.
Proof.
  induction l as [|x l IH] using rev_ind; [done|].
  rewrite indexBuilds_snoc, fmap_app. simpl. by rewrite IH.
Qed.

Lemma indexBuilds_pipelineMap (l : list T) (p : string) :
  pipelineMap (indexBuilds l) !! p
  = asBase <$> last (filter (λ b, Pipeline b = p) l).
Proof.
  induction l as [|x l IH] using rev_ind; [done|].
  rewrite indexBuilds_snoc, filter_app. simpl.
  rewrite lookup_insert. case_decide as Hp.
  - rewrite filter_cons_True, filter_nil by done. by rewrite last_snoc.
  - rewrite filter_cons_False, filter_nil, app_nil_r by done. apply IH.
Qed.

Lemma indexBuilds_buildMap (l : list T) (n : string) :
  buildMap (indexBuilds l) !! n
  = asBase <$> last (filter (λ b, displayName b = n) l).
Proof.
  induction l as [|x l IH] using rev_ind; [done|].
  rewrite indexBuilds_snoc, filter_app. simpl.
  rewrite lookup_insert. case_decide as Hp.
  - rewrite filter_cons_True, filter_nil by done. by rewrite last_snoc.
  - rewrite filter_cons_False, filter_nil, app_nil_r by done. apply IH.
Qed.

Lemma indexBuilds_defaultName (l : list T) :
  defaultName (indexBuilds l)
  = from_option displayName "" (last (filter (λ b, Branch b = "master") l)).
Proof.
  induction l as [|x l IH] using rev_ind; [done|].
  rewrite indexBuilds_snoc, filter_app. simpl.
  destruct (String.eqb_spec (Branch x) "master") as [Hb|Hb].
  - rewrite filter_cons_True, filter_nil by done. by rewrite last_snoc.
  - rewrite filter_cons_False, filter_nil, app_nil_r by done. apply IH.
Qed.

End Index.

(** ** The sort order *)

Section Sorting.

Context {T : Type} `{BuildInfo T}.

Lemma newestFirst_unfold (a b : T) :
  newestFirst a b ↔
  BuildNumber b < BuildNumber a
  ∨ (BuildNumber a = BuildNumber b ∧ String.le (Pipeline a) (Pipeline b)).
Proof.
  unfold newestFirst, newestFirstb, String.le.
  rewrite orb_true_iff, andb_true_iff, Z.ltb_lt, Z.eqb_eq, Is_true_true.
  done.
Qed.

#[global] Instance newestFirst_trans : Transitive (newestFirst (T:=T)).
Proof.
  intros a b c. rewrite !newestFirst_unfold.
  intros [?|[? Hab]] [?|[? Hbc]]; try (left; lia).
  right. split; [lia|]. by etrans.
Qed.

#[global] Instance newestFirst_total : Total (newestFirst (T:=T)).
Proof.
  intros a b. rewrite !newestFirst_unfold.
  destruct (Z.lt_trichotomy (BuildNumber a) (BuildNumber b)) as [?|[?|?]];
    [right; left; lia| |left; left; lia].
  destruct (total String.le (Pipeline a) (Pipeline b)); [left|right]; right; done.
Qed.

Lemma sortNewestFirst_Permutation (l : list T) : sortNewestFirst l ≡ₚ l.
Proof. apply merge_sort_Permutation. Qed.

Lemma sortNewestFirst_StronglySorted (l : list T) :
  StronglySorted newestFirst (sortNewestFirst l).
Proof. apply StronglySorted_merge_sort; apply _. Qed.

Lemma elem_of_sortNewestFirst (l : list T) (x : T) :
  x ∈ sortNewestFirst l ↔ x ∈ l.
Proof. by rewrite sortNewestFirst_Permutation. Qed.

End Sorting.

(** ** The loaders *)

Section Loaders.

Context (w : World) (ns : string).

Lemma collectBuildInfos_snoc filter (pods : list Pod) (pod : Pod) :
  collectBuildInfos w filter (pods ++ [pod])
  = collectBuildInfos w filter pods
    ++ (if (0 <? length (Spec_InitContainers pod))%nat
        then if BuildMatches w filter (CreateBuildPodInfo w pod)
             then [CreateBuildPodInfo w pod] else []
        else []).
Proof.
  unfold collectBuildInfos. rewrite foldl_app. simpl.
  repeat case_match; by rewrite ?app_nil_r.
Qed.

Lemma elem_of_collectBuildInfos filter (pods : list Pod) (b : BuildPodInfo) :
  b ∈ collectBuildInfos w filter pods ↔
  ∃ pod, pod ∈ pods
         ∧ Spec_InitContainers pod ≠ []
         ∧ b = CreateBuildPodInfo w pod
         ∧ BuildMatches w filter b = true.
Proof.
  induction pods as [|pod pods IH] using rev_ind.
  { split; [by intros ?%elem_of_nil|]. by intros (? & ?%elem_of_nil & _). }
  rewrite collectBuildInfos_snoc, elem_of_app, IH. split.
  - intros [(p & Hp & Hrest)|Hb].
    + exists p. split; [|done]. apply elem_of_app. by left.
    + destruct (Nat.ltb_spec 0 (length (Spec_InitContainers pod))) as [Hlen|];
        [|by apply elem_of_nil in Hb].
      destruct (BuildMatches w filter (CreateBuildPodInfo w pod)) eqn:Hm;
        [|by apply elem_of_nil in Hb].
      apply list_elem_of_singleton in Hb. subst b. exists pod.
      split; [apply elem_of_app; right; by apply list_elem_of_singleton|].
      split; [|done].
      intros Hnil. rewrite Hnil in Hlen. simpl in Hlen. lia.
  - intros (p & Hp & Hne & Hb & Hm). apply elem_of_app in Hp as [Hp|Hp].
    + left. by exists p.
    + right. apply list_elem_of_singleton in Hp. subst p b.
      destruct (Spec_InitContainers pod) eqn:Hic; [done|]. simpl.
      rewrite Hm. by apply list_elem_of_singleton.
Qed.

Lemma length_sortNewestFirst {T} `{BuildInfo T} (l : list T) :
  length (sortNewestFirst l) = length l.
Proof. by rewrite sortNewestFirst_Permutation. Qed.

Lemma loadBuilds_Failure filter (s : State) (err : Error) :
  GetBuildPods w (tick s) ns = Failure err →
  loadBuilds w ns filter s
  = Returns (emptyCatalog, Some err)
            (logged [WarnFailedToQueryPods err] (after (CallGetBuildPods ns) s)).
Proof. intros Hget. unfold loadBuilds, bind, call. by rewrite Hget. Qed.

Lemma loadBuilds_Success filter (s : State) (pods : list Pod) :
  GetBuildPods w (tick s) ns = Success pods →
  loadBuilds w ns filter s
  = Returns (match collectBuildInfos w filter pods with
             | [] => (emptyCatalog, Some NoBuildsTriggered)
             | _ => (indexBuilds (SortBuildPodInfos (collectBuildInfos w filter pods)), None)
             end)
            (after (CallGetBuildPods ns) s).
Proof.
  intros Hget. unfold loadBuilds, bind, call. rewrite Hget.
  unfold SortBuildPodInfos. rewrite length_sortNewestFirst.
  by destruct (collectBuildInfos w filter pods).
Qed.

Lemma loadPipelines_Failure (s : State) (err : Error) :
  PipelineRuns_List w (tick s) ns = Failure err →
  loadPipelines w ns s
  = Returns (emptyCatalog, Some err)
            (logged [WarnFailedToQueryPipelineRuns err] (after (CallListPipelineRuns ns) s)).
Proof. intros Hget. unfold loadPipelines, bind, call. by rewrite Hget. Qed.

Lemma loadPipelines_Success (s s1 : State) (items : list string)
      (r : result (list PipelineRunInfo)) :
  PipelineRuns_List w (tick s) ns = Success items →
  createPipelineRunInfos w ns items [] (after (CallListPipelineRuns ns) s) = Returns r s1 →
  loadPipelines w ns s
  = Returns (match r with
             | Failure err => (emptyCatalog, Some err)
             | Success [] => (emptyCatalog, Some NoPipelinesTriggered)
             | Success infos => (indexBuilds (SortPipelineRunInfos infos), None)
             end) s1.
Proof.
  intros Hlist Hcreate. unfold loadPipelines, bind, call. rewrite Hlist.
  unfold after in Hcreate. rewrite Hcreate. destruct r as [infos|err]; [|done].
  unfold SortPipelineRunInfos. rewrite length_sortNewestFirst.
  by destruct infos.
Qed.

End Loaders.

(** ** C1: the index by pipeline *)

(** C1 at the failing input.  The loop assigns pipelineMap[build.Pipeline]
    for every descriptor, so whatever the order of iteration the index by
    pipeline holds, of each pipeline, the descriptor iterated last.  With
    builds #2 and #1 of jx/demo/master loaded and iterated newest first,
    it holds build #1, where the first encountered, with the greatest
    build number, is #2. *)
Theorem latest_index_not_greatest_build :
  (∀ (buildInfos : list BuildPodInfo) (p : string),
      pipelineMap (indexBuilds buildInfos) !! p
      = asBase <$> last (filter (λ b, Pipeline b = p) buildInfos))
  ∧ (∀ (buildInfos : list PipelineRunInfo) (p : string),
        pipelineMap (indexBuilds buildInfos) !! p
        = asBase <$> last (filter (λ b, Pipeline b = p) buildInfos))
  ∧ ∃ c,
      loadBuilds twoBuildsWorld "jx" noFilter initialState
      = Returns (c, None) (after (CallGetBuildPods "jx") initialState)
      ∧ names c = ["jx/demo/master #2"; "jx/demo/master #1"]
      ∧ BuildNumber <$> pipelineMap c !! "jx/demo/master" = Some 1
      ∧ ¬ holdsGreatestBuild (collectBuildInfos twoBuildsWorld noFilter twoBuildPods) c.
Proof.
  split; [apply indexBuilds_pipelineMap|]. split; [apply indexBuilds_pipelineMap|].
  eexists. split; [vm_compute; reflexivity|].
  split; [vm_compute; reflexivity|]. split; [vm_compute; reflexivity|].
  intros Hgreatest.
  destruct (Hgreatest (CreateBuildPodInfo twoBuildsWorld
                         (samplePod "jx-demo-master-2" ["git"; "build"] PodRunning [])))
    as (e & Hlookup & _ & _ & Hmax).
  { vm_compute. apply list_elem_of_In. right. left. reflexivity. }
  vm_compute in Hlookup. injection Hlookup as <-.
  specialize (Hmax (CreateBuildPodInfo twoBuildsWorld
                      (samplePod "jx-demo-master-2" ["git"; "build"] PodRunning []))).
  assert (2 ≤ 1) as Habsurd; [|lia].
  apply Hmax; [|reflexivity].
  vm_compute. apply list_elem_of_In. right. left. reflexivity.
Qed.

(** ** C2: the default name *)

(** The default name is the display name of the last descriptor on the
    master branch in iteration order: the loop has no [break]. *)
Lemma load_defaultName_last_master {T} `{BuildInfo T} (sorted : list T) :
  defaultName (indexBuilds sorted)
  = from_option displayName "" (last (filter (λ b, Branch b = "master") sorted)).
Proof. apply indexBuilds_defaultName. Qed.

(** C2 at the failing input: with builds #2 and #1 of jx/demo/master in
    sort order, both on master, loadBuilds returns the display name of #1,
    where the first master descriptor in sort order is #2. *)
Lemma defaultName_of_two_master_builds :
  ∃ c,
    loadBuilds twoBuildsWorld "jx" noFilter initialState
    = Returns (c, None) (after (CallGetBuildPods "jx") initialState)
    ∧ names c = ["jx/demo/master #2"; "jx/demo/master #1"]
    ∧ Branch <$> SortBuildPodInfos (collectBuildInfos twoBuildsWorld noFilter twoBuildPods)
      = ["master"; "master"]
    ∧ defaultName c = "jx/demo/master #1".
Proof.
  eexists. split; [vm_compute; reflexivity|].
  split; [vm_compute; reflexivity|].
  split; vm_compute; reflexivity.
Qed.

(** ** C3: a descriptor that cannot be constructed *)

Section CreateInfos.

Context (w : World) (ns : string).

Lemma createPipelineRunInfos_abort (pre post : list string) (prName : string)
      (err : Error) (acc : list PipelineRunInfo) (s : State) :
  (∀ i name, pre !! i = Some name →
             ∃ r, CreatePipelineRunInfo w (tick s + i) ns name = Success r) →
  CreatePipelineRunInfo w (tick s + length pre) ns prName = Failure err →
  createPipelineRunInfos w ns (pre ++ prName :: post) acc s
  = Returns (Failure err)
      {| tick := S (tick s + length pre);
         trace := trace s ++ (CallCreatePipelineRunInfo ns <$> pre)
                    ++ [CallCreatePipelineRunInfo ns prName;
                        WarnErrorCreatingPipelineRunInfo prName err] |}.
Proof.
  revert acc s. induction pre as [|name pre IH]; intros acc s Hpre Hfail.
  - simpl in *. unfold bind, call, log. rewrite Nat.add_0_r in Hfail.
    rewrite Hfail. simpl. by rewrite Nat.add_0_r, <-app_assoc.
  - simpl. unfold bind at 1. unfold call at 1.
    destruct (Hpre 0%nat name eq_refl) as [r Hr]. rewrite Nat.add_0_r in Hr.
    rewrite Hr.
    assert (∀ acc',
      createPipelineRunInfos w ns (pre ++ prName :: post) acc'
        {| tick := S (tick s);
           trace := trace s ++ [CallCreatePipelineRunInfo ns name] |}
      = Returns (Failure err)
          {| tick := S (tick s + length (name :: pre));
             trace := trace s ++ (CallCreatePipelineRunInfo ns <$> name :: pre)
                        ++ [CallCreatePipelineRunInfo ns prName;
                            WarnErrorCreatingPipelineRunInfo prName err] |}) as Hrest.
    { intros acc'. rewrite IH; simpl.
      - f_equal. f_equal; [lia|]. by rewrite <-app_assoc.
      - intros i name' Hi. destruct (Hpre (S i) name' Hi) as [r' Hr'].
        exists r'. rewrite <-Hr'. f_equal. lia.
      - rewrite <-Hfail. f_equal. simpl. lia. }
    destruct r as [pri|]; apply Hrest.
Qed.

End CreateInfos.

(** C3, as amended: the first failure of tekton.CreatePipelineRunInfo is
    logged and ends the whole load with that error and an empty catalog;
    the descriptors built before it are discarded and the items after it are
    not attempted. *)
Theorem load_aborts_at_first_failing_item (w : World) (ns : string) (s : State)
        (pre post : list string) (prName : string) (err : Error) :
  PipelineRuns_List w (tick s) ns = Success (pre ++ prName :: post) →
  (∀ i name, pre !! i = Some name →
             ∃ r, CreatePipelineRunInfo w (S (tick s) + i) ns name = Success r) →
  CreatePipelineRunInfo w (S (tick s) + length pre) ns prName = Failure err →
  loadPipelines w ns s
  = Returns (emptyCatalog, Some err)
      {| tick := S (S (tick s) + length pre);
         trace := trace s ++ [CallListPipelineRuns ns]
                    ++ (CallCreatePipelineRunInfo ns <$> pre)
                    ++ [CallCreatePipelineRunInfo ns prName;
                        WarnErrorCreatingPipelineRunInfo prName err] |}.
Proof.
  intros Hlist Hpre Hfail.
  erewrite (loadPipelines_Success w ns s _ _ (Failure err) Hlist); [done|].
  rewrite (createPipelineRunInfos_abort w ns pre post prName err); simpl; [|done..].
  by rewrite <-app_assoc.
Qed.

Lemma load_aborts_at_first_failing_item_witness :
  PipelineRuns_List brokenRunWorld (tick initialState) "jx"
  = Success (["run-1"] ++ "run-2" :: ["run-3"])
  ∧ loadPipelines brokenRunWorld "jx" initialState
    = Returns (emptyCatalog, Some (ClusterError "task not found"))
        {| tick := 3;
           trace := [CallListPipelineRuns "jx";
                     CallCreatePipelineRunInfo "jx" "run-1";
                     CallCreatePipelineRunInfo "jx" "run-2";
                     WarnErrorCreatingPipelineRunInfo "run-2" (ClusterError "task not found")] |}.
Proof.
  split; [reflexivity|].
  apply (load_aborts_at_first_failing_item brokenRunWorld "jx" initialState
           ["run-1"] ["run-3"] "run-2" (ClusterError "task not found")).
  - reflexivity.
  - intros [|i] name Hi; [|done]. injection Hi as <-. by eexists.
  - reflexivity.
Defined.

(** C3 as stated fails: of three items only the second cannot be
    constructed, yet the load fails, nothing is returned for the first, and
    the third is never attempted. *)
Lemma load_does_not_drop_failing_item :
  PipelineRuns_List brokenRunWorld 0 "jx" = Success ["run-1"; "run-2"; "run-3"]
  ∧ (∀ t, CreatePipelineRunInfo brokenRunWorld t "jx" "run-1" = Success (Some (sampleRun "1" 1)))
  ∧ (∀ t, CreatePipelineRunInfo brokenRunWorld t "jx" "run-3" = Success (Some (sampleRun "3" 3)))
  ∧ ∃ s', loadPipelines brokenRunWorld "jx" initialState
          = Returns (emptyCatalog, Some (ClusterError "task not found")) s'
          ∧ CallCreatePipelineRunInfo "jx" "run-3" ∉ trace s'.
Proof.
  split; [reflexivity|]. split; [done|]. split; [done|].
  eexists. split; [vm_compute; reflexivity|].
  simpl. rewrite !elem_of_cons. intros [?|[?|[?|[?|?%elem_of_nil]]]]; done.
Qed.

(** ** C9: the failure check reads in bounds *)

Lemma failureCheck_Returns (i : nat) (pod : Pod) (s : State) :
  ∃ s', failureCheck i pod s = Returns tt s'.
Proof.
  unfold failureCheck.
  destruct (Nat.ltb_spec 0 i) as [Hpos|]; [|by eexists].
  destruct (Nat.ltb_spec i (length (Status_InitContainerStatuses pod))) as [Hlt|];
    [|by eexists].
  destruct (Status_InitContainerStatuses pod !! (i - 1)%nat) as [lastContainer|] eqn:Hlast.
  - destruct (Terminated (ContainerStatus_State lastContainer)) as [terminated|];
      [|by eexists].
    destruct (negb (ExitCode terminated =? 0)); by eexists.
  - apply lookup_ge_None in Hlast. lia.
Qed.

(** C9: the status at index i-1 is read only when 0 < i and i is below the
    length of the status list, so the read is in bounds and the check never
    panics; when the list has i or fewer entries the check emits nothing,
    whatever the state of the predecessor. *)
Theorem failureCheck_reads_in_bounds (i : nat) (pod : Pod) (s : State) :
  ((0 < i)%nat → (i < length (Status_InitContainerStatuses pod))%nat →
   is_Some (Status_InitContainerStatuses pod !! (i - 1)%nat))
  ∧ (∃ s', failureCheck i pod s = Returns tt s')
  ∧ ((length (Status_InitContainerStatuses pod) ≤ i)%nat →
     failureCheck i pod s = Returns tt s).
Proof.
  split; [|split].
  - intros _ Hlt. apply lookup_lt_is_Some. lia.
  - apply failureCheck_Returns.
  - intros Hge. unfold failureCheck.
    destruct (Nat.ltb_spec 0 i) as [Hpos|]; [|done].
    by destruct (Nat.ltb_spec i (length (Status_InitContainerStatuses pod))) as [Hlt|]; [lia|].
Qed.

Lemma failureCheck_reads_in_bounds_witness :
  (length (Status_InitContainerStatuses halfReportedPod) ≤ 1)%nat
  ∧ Status_InitContainerStatuses halfReportedPod !! 0%nat
    = Some (statusTerminated "git" 1 "clone failed")
  ∧ failureCheck 1 halfReportedPod initialState = Returns tt initialState.
Proof.
  split; [simpl; lia|]. split; [reflexivity|].
  apply (failureCheck_reads_in_bounds 1 halfReportedPod initialState).
  simpl; lia.
Defined.

(** ** C7: waitForInitContainerToStart *)

Section Wait.

Context (w : World) (ns : string).

Lemma polled_0 (podName : string) (s : State) : polled ns podName 0 s = s.
Proof.
  destruct s as [t tr]. unfold polled. simpl.
  by rewrite Nat.add_0_r, app_nil_r.
Qed.

Lemma polled_S (podName : string) (n : nat) (s : State) :
  polled ns podName (S n) s
  = polled ns podName n (after (CallPodsGet ns podName) (after (Sleep 1) s)).
Proof.
  unfold polled, after. simpl. f_equal; [lia|].
  by rewrite <-!app_assoc.
Qed.

Lemma polled_snoc (podName : string) (n : nat) (s : State) :
  polled ns podName (S n) s
  = after (CallPodsGet ns podName) (after (Sleep 1) (polled ns podName n s)).
Proof.
  unfold polled, after. simpl. f_equal; [lia|].
  rewrite <-!app_assoc. f_equal.
  induction n as [|n IH]; [done|].
  simpl. do 2 f_equal. apply IH.
Qed.

Lemma notStartedUntil_step (pod : Pod) (idx n : nat) (s : State) :
  notStartedUntil w ns pod idx (S n) s →
  notStartedUntil w ns pod idx n (after (CallPodsGet ns (Pod_Name pod)) (after (Sleep 1) s)).
Proof.
  intros Hnot j Hj. destruct (Hnot (S j)) as (q & Hq & Hstarted); [lia|].
  exists q. split; [|done]. rewrite <-Hq. simpl. f_equal. lia.
Qed.

Lemma pollUntilStarted_step (fuel : nat) (pod : Pod) (idx : nat) (s : State) :
  pollUntilStarted w ns (S fuel) pod idx s
  = match Pods_Get w (S (tick s)) ns (Pod_Name pod) with
    | Failure err =>
        Fails (FailedToLoadPod (Pod_Name pod) err)
              (after (CallPodsGet ns (Pod_Name pod)) (after (Sleep 1) s))
    | Success p =>
        if HasInitContainerStarted p idx
        then Returns p (after (CallPodsGet ns (Pod_Name pod)) (after (Sleep 1) s))
        else pollUntilStarted w ns fuel pod idx
               (after (CallPodsGet ns (Pod_Name pod)) (after (Sleep 1) s))
    end.
Proof.
  simpl. unfold bind, sleep, call, fail, ret, after. simpl.
  destruct (Pods_Get w (S (tick s)) ns (Pod_Name pod)) as [p|err]; [|done].
  by destruct (HasInitContainerStarted p idx).
Qed.

Lemma pollUntilStarted_Returns (fuel n : nat) (pod p : Pod) (idx : nat) (s : State) :
  notStartedUntil w ns pod idx n s →
  Pods_Get w (tick s + 2 * n + 1) ns (Pod_Name pod) = Success p →
  HasInitContainerStarted p idx = true →
  (n < fuel)%nat →
  pollUntilStarted w ns fuel pod idx s = Returns p (polled ns (Pod_Name pod) (S n) s).
Proof.
  revert fuel s. induction n as [|n IH]; intros fuel s Hnot Hget Hstarted Hfuel.
  - destruct fuel as [|fuel]; [lia|]. rewrite pollUntilStarted_step.
    replace (tick s + 2 * 0 + 1)%nat with (S (tick s)) in Hget by lia.
    rewrite Hget, Hstarted. by rewrite polled_S, polled_0.
  - destruct fuel as [|fuel]; [lia|]. rewrite pollUntilStarted_step.
    destruct (Hnot 0%nat) as (q & Hq & Hq'); [lia|].
    replace (tick s + 2 * 0 + 1)%nat with (S (tick s)) in Hq by lia.
    rewrite Hq, Hq'. rewrite (polled_S _ (S n)).
    apply IH; [by apply notStartedUntil_step| |done|lia].
    rewrite <-Hget. simpl. f_equal. lia.
Qed.

Lemma pollUntilStarted_Diverges (n : nat) (pod : Pod) (idx : nat) (s : State) :
  notStartedUntil w ns pod idx n s →
  pollUntilStarted w ns n pod idx s = Diverges (polled ns (Pod_Name pod) n s).
Proof.
  revert s. induction n as [|n IH]; intros s Hnot.
  - simpl. unfold diverge. by rewrite polled_0.
  - rewrite pollUntilStarted_step.
    destruct (Hnot 0%nat) as (q & Hq & Hq'); [lia|].
    replace (tick s + 2 * 0 + 1)%nat with (S (tick s)) in Hq by lia.
    rewrite Hq, Hq', polled_S. apply IH. by apply notStartedUntil_step.
Qed.

End Wait.

(** C7: waitForInitContainerToStart returns the pod at once, without a
    read, when the pod has failed or the init container has started.
    Otherwise it sleeps one second and reads the pod, again and again: it
    returns the first snapshot in which the container has started, however
    many polls that takes, and after any number of polls that do not show
    it started it is still polling. *)
Theorem waitForInitContainerToStart_polls_until_started
        (w : World) (ns : string) (fuel : nat) (pod : Pod) (idx : nat) (s : State) :
  (Status_Phase pod = PodFailed →
   waitForInitContainerToStart w ns fuel pod idx s
   = Returns pod (logged [WarnPodFailed (Pod_Name pod)] s))
  ∧ (Status_Phase pod ≠ PodFailed → HasInitContainerStarted pod idx = true →
     waitForInitContainerToStart w ns fuel pod idx s = Returns pod s)
  ∧ (Status_Phase pod ≠ PodFailed → HasInitContainerStarted pod idx = false →
     ∀ n, notStartedUntil w ns pod idx n (waitingFor pod idx s) →
          (∀ p, Pods_Get w (tick s + 2 * n + 1) ns (Pod_Name pod) = Success p →
                HasInitContainerStarted p idx = true →
                (n < fuel)%nat →
                waitForInitContainerToStart w ns fuel pod idx s
                = Returns p (polled ns (Pod_Name pod) (S n) (waitingFor pod idx s)))
          ∧ (fuel = n →
             waitForInitContainerToStart w ns fuel pod idx s
             = Diverges (polled ns (Pod_Name pod) n (waitingFor pod idx s)))).
Proof.
  assert ((if (idx <? length (Spec_InitContainers pod))%nat
           then from_option Container_Name "" (Spec_InitContainers pod !! idx)
           else "")
          = from_option Container_Name "" (Spec_InitContainers pod !! idx)) as Hname.
  { destruct (Nat.ltb_spec idx (length (Spec_InitContainers pod))) as [|Hge]; [done|].
    by rewrite (lookup_ge_None_2 _ _ Hge). }
  unfold waitForInitContainerToStart. rewrite Hname. split; [|split].
  - intros Hphase. by rewrite decide_True.
  - intros Hphase Hstarted. by rewrite decide_False, Hstarted.
  - intros Hphase Hstarted n Hnot. rewrite decide_False, Hstarted by done.
    unfold bind, log. fold (waitingFor pod idx s). split.
    + intros p Hget Hp Hfuel. by apply pollUntilStarted_Returns.
    + intros ->. by apply pollUntilStarted_Diverges.
Qed.

Lemma waitForInitContainerToStart_polls_until_started_witness :
  (waitForInitContainerToStart slowStartWorld "jx" 10 halfReportedPod 1 initialState
   = Returns halfReportedPod (logged [WarnPodFailed "half-pod"] initialState))
  ∧ (waitForInitContainerToStart slowStartWorld "jx" 10 (slowPod true) 0 initialState
     = Returns (slowPod true) initialState)
  ∧ (waitForInitContainerToStart slowStartWorld "jx" 10 (slowPod false) 0 initialState
     = Returns (slowPod true)
         {| tick := 6;
            trace := [InfoWaitingForInitContainer "slow-pod" "git";
                      Sleep 1; CallPodsGet "jx" "slow-pod";
                      Sleep 1; CallPodsGet "jx" "slow-pod";
                      Sleep 1; CallPodsGet "jx" "slow-pod"] |})
  ∧ (waitForInitContainerToStart slowStartWorld "jx" 2 (slowPod false) 0 initialState
     = Diverges
         {| tick := 4;
            trace := [InfoWaitingForInitContainer "slow-pod" "git";
                      Sleep 1; CallPodsGet "jx" "slow-pod";
                      Sleep 1; CallPodsGet "jx" "slow-pod"] |}).
Proof.
  assert (notStartedUntil slowStartWorld "jx" (slowPod false) 0 2
            (waitingFor (slowPod false) 0 initialState)) as Hnot.
  { intros j Hj. exists (slowPod false). simpl.
    destruct j as [|[|j]]; [done|done|lia]. }
  split; [|split; [|split]].
  - by apply (waitForInitContainerToStart_polls_until_started
                slowStartWorld "jx" 10 halfReportedPod 1 initialState).
  - by apply (waitForInitContainerToStart_polls_until_started
                slowStartWorld "jx" 10 (slowPod true) 0 initialState).
  - apply (proj1 (proj2 (proj2 (waitForInitContainerToStart_polls_until_started
                  slowStartWorld "jx" 10 (slowPod false) 0 initialState))
                  ltac:(done) eq_refl 2%nat Hnot));
      [reflexivity|reflexivity|lia].
  - by apply (proj2 (proj2 (proj2 (waitForInitContainerToStart_polls_until_started
                  slowStartWorld "jx" 2 (slowPod false) 0 initialState))
                  ltac:(done) eq_refl 2%nat Hnot)).
Defined.

(** ** Sequencing *)

Lemma bind_Returns {A B} (m : M A) (k : A → M B) (s s' : State) (a : A) :
  m s = Returns a s' → bind m k s = k a s'.
Proof. intros Hm. unfold bind. by rewrite Hm. Qed.

Lemma bind_Fails {A B} (m : M A) (k : A → M B) (s s' : State) (e : Error) :
  m s = Fails e s' → bind m k s = Fails e s'.
Proof. intros Hm. unfold bind. by rewrite Hm. Qed.

Lemma bind_assoc {A B C} (m : M A) (k : A → M B) (k' : B → M C) (s : State) :
  bind (bind m k) k' s = bind m (λ a, bind (k a) k') s.
Proof. unfold bind. by destruct (m s). Qed.

Section Walk.

Context (w : World) (ns : string) (fuel : nat).

Lemma visitStages_app (maxElapsedTime : nat) (name suffix pipelineRun : string)
      (pre post : list StageInfo) (s : State) :
  visitStages w ns fuel maxElapsedTime name suffix pipelineRun (pre ++ post) s
  = bind (visitStages w ns fuel maxElapsedTime name suffix pipelineRun pre)
         (λ _, visitStages w ns fuel maxElapsedTime name suffix pipelineRun post) s.
Proof.
  revert s. induction pre as [|stage pre IH]; intros s; [done|].
  simpl. rewrite bind_assoc. unfold bind.
  destruct (visitStage _ _ _ _ _ _ _ _ s); [|done..]. by rewrite IH.
Qed.

Lemma visitContainers_app (getLog : Pod → Container → M unit) (podName : string)
      (i : nat) (pre post : list Container) (s : State) :
  visitContainers w ns fuel getLog podName i (pre ++ post) s
  = bind (visitContainers w ns fuel getLog podName i pre)
         (λ _, visitContainers w ns fuel getLog podName (i + length pre) post) s.
Proof.
  revert i s. induction pre as [|ic pre IH]; intros i s.
  { simpl. by rewrite Nat.add_0_r. }
  simpl. rewrite bind_assoc. unfold bind.
  destruct (visitContainer _ _ _ _ _ _ _ s); [|done..].
  rewrite IH. by replace (S i + length pre)%nat with (i + S (length pre))%nat by lia.
Qed.

Lemma awaitStagePod_known (maxElapsedTime : nat) (pipelineRun : string)
      (stage : StageInfo) (pod : Pod) (s : State) :
  Stage_Pod stage = Some pod →
  awaitStagePod w ns maxElapsedTime pipelineRun stage s = Returns stage s.
Proof. intros Hpod. unfold awaitStagePod. by rewrite Hpod. Qed.

End Walk.

(** ** C8: a pod without init containers *)

(** C8: a build pod, or the pod of a stage once it is known, that has no
    init container makes the traversal fail with NoInitContainers, naming
    the pod and the build; the failure ends the command in the state in
    which the pod became known: nothing of that pod and no later stage is
    visited. *)
Theorem no_init_containers_is_terminal
        (w : World) (ns : string) (fuel : nat) (name suffix : string) :
  (∀ b pod s,
      BuildPodInfo_Pod b = Some pod →
      Spec_InitContainers pod = [] →
      visitBuildPod w ns fuel name suffix b s
      = Fails (NoInitContainers (Pod_Name pod) name) s)
  ∧ (∀ maxElapsedTime pipelineRun pre stage post pod s s1,
        visitStages w ns fuel maxElapsedTime name suffix pipelineRun pre s = Returns tt s1 →
        Stage_Pod stage = Some pod →
        Spec_InitContainers pod = [] →
        visitStages w ns fuel maxElapsedTime name suffix pipelineRun (pre ++ stage :: post) s
        = Fails (NoInitContainers (Pod_Name pod) name) s1)
  ∧ (∀ maxElapsedTime pipelineRun pre stage post stage' pod s s1 s2,
        visitStages w ns fuel maxElapsedTime name suffix pipelineRun pre s = Returns tt s1 →
        awaitStagePod w ns maxElapsedTime pipelineRun stage s1 = Returns stage' s2 →
        Stage_Pod stage' = Some pod →
        Spec_InitContainers pod = [] →
        visitStages w ns fuel maxElapsedTime name suffix pipelineRun (pre ++ stage :: post) s
        = Fails (NoInitContainers (Pod_Name pod) name) s2).
Proof.
  assert (∀ maxElapsedTime pipelineRun pre stage post stage' pod s s1 s2,
        visitStages w ns fuel maxElapsedTime name suffix pipelineRun pre s = Returns tt s1 →
        awaitStagePod w ns maxElapsedTime pipelineRun stage s1 = Returns stage' s2 →
        Stage_Pod stage' = Some pod →
        Spec_InitContainers pod = [] →
        visitStages w ns fuel maxElapsedTime name suffix pipelineRun (pre ++ stage :: post) s
        = Fails (NoInitContainers (Pod_Name pod) name) s2) as Hstage.
  { intros T pr pre stage post stage' pod s s1 s2 Hpre Hawait Hpod Hempty.
    rewrite visitStages_app, (bind_Returns _ _ _ _ _ Hpre). simpl.
    apply bind_Fails. unfold visitStage.
    rewrite (bind_Returns _ _ _ _ _ Hawait), Hpod, Hempty. done. }
  split; [|split; [|done]].
  - intros b pod s Hpod Hempty. unfold visitBuildPod. by rewrite Hpod, Hempty.
  - intros T pr pre stage post pod s s1 Hpre Hpod Hempty.
    eapply Hstage; [done| |done..]. by eapply awaitStagePod_known.
Qed.

Lemma no_init_containers_is_terminal_witness :
  visitBuildPod quietWorld "jx" 5 "jx/demo/master #1" ""
                (CreateBuildPodInfo quietWorld barePod) initialState
  = Fails (NoInitContainers "bare-pod" "jx/demo/master #1") initialState
  ∧ visitStages quietWorld "jx" 5 300 "jx/demo/master" " #1" "jx-demo-master-1"
                ([] ++ bareStage :: [testStage]) initialState
    = Fails (NoInitContainers "bare-pod" "jx/demo/master") initialState.
Proof.
  split.
  - by apply (proj1 (no_init_containers_is_terminal quietWorld "jx" 5
                       "jx/demo/master #1" "")
                (CreateBuildPodInfo quietWorld barePod) barePod initialState).
  - by apply (proj1 (proj2 (no_init_containers_is_terminal quietWorld "jx" 5
                       "jx/demo/master" " #1"))
                300%nat "jx-demo-master-1" [] bareStage [testStage] barePod).
Defined.

(** ** C10: the legacy catalog holds pods with init containers only *)

Section LegacyCatalog.

Context (w : World) (ns : string).

Lemma sorted_fromPodWithInitContainers filter (pods : list Pod) (b : BuildPodInfo) :
  b ∈ SortBuildPodInfos (collectBuildInfos w filter pods) →
  fromPodWithInitContainers w pods b.
Proof.
  unfold SortBuildPodInfos. rewrite elem_of_sortNewestFirst, elem_of_collectBuildInfos.
  intros (pod & ? & ? & ? & _). by exists pod.
Qed.

Lemma last_filter_elem_of {A} (P : A → Prop) `{!∀ x, Decision (P x)}
      (l : list A) (x : A) :
  last (filter P l) = Some x → x ∈ l.
Proof.
  intros Hlast%last_Some_elem_of. by apply list_elem_of_filter in Hlast as [_ ?].
Qed.

End LegacyCatalog.

(** C10: whatever loadBuilds puts into the names, the exact index and the
    index by pipeline is the descriptor of a listed pod with at least one
    init container; the other pods are left out without a log line.  When
    the descriptor keeps the pod it was made from, the walk over a build of
    the catalog passes the NoInitContainers check. *)
Theorem catalog_builds_have_init_containers
        (w : World) (ns : string) (filter : BuildPodInfoFilter)
        (s s' : State) (pods : list Pod) (c : Catalog) :
  GetBuildPods w (tick s) ns = Success pods →
  loadBuilds w ns filter s = Returns (c, None) s' →
  s' = after (CallGetBuildPods ns) s
  ∧ (∀ n, n ∈ names c →
          ∃ b, fromPodWithInitContainers w pods b ∧ n = displayName b)
  ∧ (∀ n build, buildMap c !! n = Some build →
                ∃ b, fromPodWithInitContainers w pods b ∧ build = IsBuildPodInfo b)
  ∧ (∀ p build, pipelineMap c !! p = Some build →
                ∃ b, fromPodWithInitContainers w pods b ∧ build = IsBuildPodInfo b)
  ∧ ((∀ pod, BuildPodInfo_Pod (CreateBuildPodInfo w pod) = Some pod) →
     ∀ n b, buildMap c !! n = Some (IsBuildPodInfo b)
            ∨ pipelineMap c !! n = Some (IsBuildPodInfo b) →
            ∃ pod, BuildPodInfo_Pod b = Some pod
                   ∧ Spec_InitContainers pod ≠ []
                   ∧ ∀ fuel name suffix s0,
                       visitBuildPod w ns fuel name suffix b s0
                       = bind (log (InfoBuildLogsFor (name +:+ suffix)))
                              (λ _, visitContainers w ns fuel (getPodLog w ns)
                                      (Pod_Name pod) 0 (Spec_InitContainers pod)) s0).
Proof.
  intros Hget Hload. rewrite (loadBuilds_Success _ _ _ _ _ Hget) in Hload.
  destruct (collectBuildInfos w filter pods) as [|b0 bs] eqn:Hbs; [done|].
  rewrite <-Hbs in Hload. injection Hload as <- <-.
  assert (∀ n build, buildMap (indexBuilds (SortBuildPodInfos (collectBuildInfos w filter pods)))
                       !! n = Some build →
            ∃ b, fromPodWithInitContainers w pods b ∧ build = IsBuildPodInfo b) as Hexact.
  { intros n build. rewrite indexBuilds_buildMap.
    intros (b & Hlast & ->)%fmap_Some. exists b. split; [|done].
    eapply sorted_fromPodWithInitContainers. by eapply last_filter_elem_of. }
  assert (∀ p build, pipelineMap (indexBuilds (SortBuildPodInfos (collectBuildInfos w filter pods)))
                       !! p = Some build →
            ∃ b, fromPodWithInitContainers w pods b ∧ build = IsBuildPodInfo b) as Hlatest.
  { intros p build. rewrite indexBuilds_pipelineMap.
    intros (b & Hlast & ->)%fmap_Some. exists b. split; [|done].
    eapply sorted_fromPodWithInitContainers. by eapply last_filter_elem_of. }
  split; [done|]. split; [|split; [done|split; [done|]]].
  - intros n. rewrite indexBuilds_names. intros (b & -> & Hb)%list_elem_of_fmap.
    exists b. split; [|done]. by eapply sorted_fromPodWithInitContainers.
  - intros Hkeeps n b Hn.
    assert (fromPodWithInitContainers w pods b) as (pod & _ & Hne & ->).
    { destruct Hn as [Hn|Hn].
      - apply Hexact in Hn as (b' & ? & [= ->]). done.
      - apply Hlatest in Hn as (b' & ? & [= ->]). done. }
    exists pod. split; [apply Hkeeps|]. split; [done|].
    intros fuel name suffix s0. unfold visitBuildPod. rewrite Hkeeps.
    by destruct (Spec_InitContainers pod).
Qed.

Lemma catalog_builds_have_init_containers_witness :
  barePod ∈ twoBuildPods
  ∧ GetBuildPods twoBuildsWorld (tick initialState) "jx" = Success twoBuildPods
  ∧ ∀ n build,
      buildMap (indexBuilds (SortBuildPodInfos
                  (collectBuildInfos twoBuildsWorld noFilter twoBuildPods))) !! n
      = Some build →
      ∃ b, fromPodWithInitContainers twoBuildsWorld twoBuildPods b
           ∧ build = IsBuildPodInfo b.
Proof.
  split; [apply list_elem_of_In; simpl; tauto|]. split; [reflexivity|].
  apply (catalog_builds_have_init_containers twoBuildsWorld "jx" noFilter
           initialState (after (CallGetBuildPods "jx") initialState) twoBuildPods).
  - reflexivity.
  - vm_compute; reflexivity.
Defined.

(** ** What a computation adds to the trace *)

Lemma quiet_app (es es' : list Event) : quiet es → quiet es' → quiet (es ++ es').
Proof. apply Forall_app_2. Qed.

Lemma streamsNothing_ret {A} (a : A) : streamsNothing (ret a).
Proof. intros s. exists []. split; [constructor|]. simpl. by rewrite app_nil_r. Qed.

Lemma streamsNothing_fail {A} (e : Error) : streamsNothing (fail (A:=A) e).
Proof. intros s. exists []. split; [constructor|]. simpl. by rewrite app_nil_r. Qed.

Lemma streamsNothing_panic {A} : streamsNothing (panic (A:=A)).
Proof. intros s. exists []. split; [constructor|]. simpl. by rewrite app_nil_r. Qed.

Lemma streamsNothing_diverge {A} : streamsNothing (diverge (A:=A)).
Proof. intros s. exists []. split; [constructor|]. simpl. by rewrite app_nil_r. Qed.

Lemma streamsNothing_log (e : Event) : isStream e = false → streamsNothing (log e).
Proof. intros He s. exists [e]. split; [by repeat constructor|done]. Qed.

Lemma streamsNothing_call {A} (e : Event) (answer : nat → A) :
  isStream e = false → streamsNothing (call e answer).
Proof. intros He s. exists [e]. split; [by repeat constructor|done]. Qed.

Lemma streamsNothing_bind {A B} (m : M A) (k : A → M B) :
  streamsNothing m → (∀ a, streamsNothing (k a)) → streamsNothing (bind m k).
Proof.
  intros Hm Hk s. destruct (Hm s) as (es & Hes & Htrace). unfold bind.
  destruct (m s) as [a s1|e s1|s1|s1]; simpl in *; [|by exists es..].
  destruct (Hk a s1) as (es' & Hes' & Htrace'). exists (es ++ es').
  split; [by apply quiet_app|]. by rewrite Htrace', Htrace, app_assoc.
Qed.

Lemma streamsNothing_Returns {A} (m : M A) (s s' : State) (a : A) :
  streamsNothing m → m s = Returns a s' →
  ∃ es, quiet es ∧ trace s' = trace s ++ es.
Proof. intros Hm Hs. specialize (Hm s). by rewrite Hs in Hm. Qed.

Create HintDb streams.

#[local] Hint Resolve streamsNothing_ret streamsNothing_fail streamsNothing_panic
  streamsNothing_diverge : streams.

Ltac streams_nothing :=
  repeat first
    [ apply streamsNothing_bind; [|intros ?]
    | apply streamsNothing_log; reflexivity
    | apply streamsNothing_call; reflexivity
    | solve [auto with streams]
    | progress case_match ].

Section Streams.

Context (w : World) (ns : string) (fuel : nat).

Lemma streamsNothing_failureCheck (i : nat) (pod : Pod) :
  streamsNothing (failureCheck i pod).
Proof. unfold failureCheck. streams_nothing. Qed.

Lemma streamsNothing_pollUntilStarted (n : nat) (pod : Pod) (idx : nat) :
  streamsNothing (pollUntilStarted w ns n pod idx).
Proof.
  induction n as [|n IH]; simpl; [auto with streams|].
  unfold sleep. streams_nothing.
Qed.

Lemma streamsNothing_wait (pod : Pod) (idx : nat) :
  streamsNothing (waitForInitContainerToStart w ns fuel pod idx).
Proof.
  unfold waitForInitContainerToStart. streams_nothing.
  apply streamsNothing_pollUntilStarted.
Qed.

Lemma streamsNothing_setPodsForStage (pipelineRun : string) (stage : StageInfo) :
  streamsNothing (setPodsForStage w ns pipelineRun stage).
Proof. unfold setPodsForStage. streams_nothing. Qed.

Lemma streamsNothing_retryLoop {V} (f : V → M (V * option Error))
      (more elapsed : nat) (v : V) :
  (∀ v, streamsNothing (f v)) →
  streamsNothing (retryLoop w more elapsed f v).
Proof.
  intros Hf. revert elapsed v. induction more as [|more IH]; intros elapsed v; simpl.
  - apply streamsNothing_bind; [apply Hf|]. intros [v' [err|]]; [|auto with streams].
    unfold sleep. streams_nothing.
  - apply streamsNothing_bind; [apply Hf|]. intros [v' [err|]]; [|auto with streams].
    unfold sleep. streams_nothing.
Qed.

Lemma streamsNothing_awaitStagePod (maxElapsedTime : nat) (pipelineRun : string)
      (stage : StageInfo) :
  streamsNothing (awaitStagePod w ns maxElapsedTime pipelineRun stage).
Proof.
  unfold awaitStagePod, Retry. destruct (Stage_Pod stage); [auto with streams|].
  apply streamsNothing_bind.
  - apply streamsNothing_retryLoop. apply streamsNothing_setPodsForStage.
  - intros [v [err|]]; auto with streams.
Qed.

End Streams.

Lemma bind_Returns_inv {A B} (m : M A) (k : A → M B) (s s' : State) (b : B) :
  bind m k s = Returns b s' →
  ∃ a s1, m s = Returns a s1 ∧ k a s1 = Returns b s'.
Proof. unfold bind. destruct (m s) as [a s1| | |]; [|done..]. by exists a, s1. Qed.

Lemma logged_nil (s : State) : logged [] s = s.
Proof. destruct s. unfold logged. simpl. by rewrite app_nil_r. Qed.

Lemma failureCheck_warnings (i : nat) (pod : Pod) (s : State) :
  ∃ warnings,
    failureCheck i pod s = Returns tt (logged warnings s)
    ∧ (∀ lastContainer terminated,
          reportsFailedPredecessor i pod lastContainer terminated →
          warnings = [WarnContainerFailed (ContainerStatus_Name lastContainer)
                                          (ExitCode terminated) (Message terminated)])
    ∧ ((¬ ∃ lastContainer terminated,
            reportsFailedPredecessor i pod lastContainer terminated) →
       warnings = []).
Proof.
  unfold failureCheck, reportsFailedPredecessor.
  destruct (Nat.ltb_spec 0 i) as [Hpos|Hpos].
  2: { exists []. rewrite logged_nil. split; [done|]. split; [|done].
       intros ? ? (? & _). lia. }
  destruct (Nat.ltb_spec i (length (Status_InitContainerStatuses pod))) as [Hlt|Hge].
  2: { exists []. rewrite logged_nil. split; [done|]. split; [|done].
       intros ? ? (_ & ? & _). lia. }
  destruct (Status_InitContainerStatuses pod !! (i - 1)%nat) as [lastContainer|] eqn:Hlast.
  2: { apply lookup_ge_None in Hlast. lia. }
  destruct (Terminated (ContainerStatus_State lastContainer)) as [terminated|] eqn:Hterm.
  2: { exists []. rewrite logged_nil. split; [done|]. split; [|done].
       intros ? ? (_ & _ & [= <-] & ? & _). congruence. }
  destruct (Z.eqb_spec (ExitCode terminated) 0) as [Hzero|Hnonzero]; simpl.
  - exists []. rewrite logged_nil. split; [done|]. split; [|done].
    intros ? ? (_ & _ & [= <-] & ? & ?). congruence.
  - eexists. split; [reflexivity|]. split.
    + intros ? ? (_ & _ & [= <-] & Hterm' & _). congruence.
    + intros Hnone. exfalso. apply Hnone. by exists lastContainer, terminated.
Qed.

(** ** C4: the visiting order *)














Section VisitingOrder.

Context (w : World) (ns : string) (fuel : nat).

(** *** The wait for the pod of a stage *)





Lemma setPodsForStage_unset (pipelineRun : string) (stage stage' : StageInfo)
      (err : option Error) (s s' : State) :
  Stage_Pod stage = None →
  setPodsForStage w ns pipelineRun stage s = Returns (stage', err) s' →
  match err with
  | Some _ => stage' = stage
  | None => resolvedFrom w ns pipelineRun stage stage'
  end.
Proof.
  intros Hunset. unfold setPodsForStage, bind, call, log, ret. simpl.
  destruct (SetPodsForStageInfo w (tick s) ns stage pipelineRun) as [[pod|]|e] eqn:Hset.
  - intros [= <- <- _]. unfold resolvedFrom. rewrite Hunset. simpl.
    split_and!; [done|done|by eexists|]. by exists (tick s).
  - intros [= <- <- _]. destruct stage. simpl in *. by subst.
  - by intros [= <- <- _].
Qed.

Lemma retryLoop_setPodsForStage (pipelineRun : string) (more elapsed : nat)
      (stage stage' : StageInfo) (s s' : State) :
  Stage_Pod stage = None →
  retryLoop w more elapsed (setPodsForStage w ns pipelineRun) stage s
  = Returns (stage', None) s' →
  resolvedFrom w ns pipelineRun stage stage'.
Proof.
  intros Hunset. revert elapsed s.
  induction more as [|more IH]; intros elapsed s; simpl;
    intros ([v err] & s1 & Hf & Hrest)%bind_Returns_inv;
    pose proof (setPodsForStage_unset _ _ _ _ _ _ Hunset Hf) as Hv;
    destruct err as [err|]; subst.
  - apply bind_Returns_inv in Hrest as (_ & s2 & _ & Hrest). done.
  - by injection Hrest as <- _.
  - apply bind_Returns_inv in Hrest as (_ & s2 & _ & Hrest). by eapply IH.
  - by injection Hrest as <- _.
Qed.

Lemma awaitStagePod_resolved (maxElapsedTime : nat) (pipelineRun : string)
      (stage stage' : StageInfo) (s s' : State) :
  awaitStagePod w ns maxElapsedTime pipelineRun stage s = Returns stage' s' →
  resolvedFrom w ns pipelineRun stage stage'.
Proof.
  unfold awaitStagePod. destruct (Stage_Pod stage) as [pod|] eqn:Hpod.
  - intros [= <- _]. unfold resolvedFrom. rewrite Hpod. by split_and!.
  - intros ([v [err|]] & s1 & Hretry & Hrest)%bind_Returns_inv; [done|].
    injection Hrest as <- _. by eapply retryLoop_setPodsForStage.
Qed.

(** *** One unit *)




(** *** The units of a stage, and the stages *)




End VisitingOrder.


(** ** The walk returns when the cluster answers *)

Section Returns.

Context (w : World) (ns : string) (fuel : nat).




End Returns.



(** ** C5: the failure check changes nothing but the warnings *)

Lemma sameButWarnings_refl (s : State) : sameButWarnings s s.
Proof. done. Qed.

Lemma sameButWarnings_snoc (s s' : State) (e : Event) :
  sameButWarnings s s' →
  sameButWarnings {| tick := tick s; trace := trace s ++ [e] |}
                  {| tick := tick s'; trace := trace s' ++ [e] |}.
Proof.
  intros [Htick Htrace]. split; [done|]. simpl.
  unfold withoutWarnings in *. by rewrite !filter_app, Htrace.
Qed.

Lemma sameButWarnings_warning (s s' : State) (c : string) (x : Z) (msg : string) :
  sameButWarnings s s' →
  sameButWarnings {| tick := tick s; trace := trace s ++ [WarnContainerFailed c x msg] |} s'.
Proof.
  intros [Htick Htrace]. split; [done|]. simpl.
  unfold withoutWarnings in *. rewrite filter_app, Htrace.
  rewrite filter_cons_False, filter_nil by done. by rewrite app_nil_r.
Qed.

Lemma simulates_ret {A B} (R : A → B → Prop) (a : A) (b : B) :
  R a b → simulates R (ret a) (ret b).
Proof. intros HR s s' Hs. by split. Qed.

Lemma simulates_fail {A B} (R : A → B → Prop) (e : Error) :
  simulates R (fail e) (fail e).
Proof. intros s s' Hs. by split. Qed.

Lemma simulates_panic {A B} (R : A → B → Prop) : simulates R panic panic.
Proof. intros s s' Hs. done. Qed.

Lemma simulates_diverge {A B} (R : A → B → Prop) : simulates R diverge diverge.
Proof. intros s s' Hs. done. Qed.

Lemma simulates_log (e : Event) :
  isFailureWarning e = false → simulates eq (log e) (log e).
Proof. intros He s s' Hs. split; [done|]. by apply sameButWarnings_snoc. Qed.

Lemma simulates_warning (c : string) (x : Z) (msg : string) :
  simulates eq (log (WarnContainerFailed c x msg)) (ret tt).
Proof. intros s s' Hs. split; [done|]. by apply sameButWarnings_warning. Qed.

Lemma simulates_call {A B} (R : A → B → Prop) (e : Event)
      (answer : nat → A) (answer' : nat → B) :
  isFailureWarning e = false →
  (∀ t, R (answer t) (answer' t)) →
  simulates R (call e answer) (call e answer').
Proof.
  intros He Hanswer s s' Hs. split.
  - destruct Hs as [-> _]. apply Hanswer.
  - destruct (sameButWarnings_snoc s s' e Hs) as [Htick Htrace].
    split; [simpl in *; by rewrite Htick|done].
Qed.

Lemma simulates_bind {A A' B B'} (RA : A → A' → Prop) (RB : B → B' → Prop)
      (m : M A) (m' : M A') (k : A → M B) (k' : A' → M B') :
  simulates RA m m' →
  (∀ a a', RA a a' → simulates RB (k a) (k' a')) →
  simulates RB (bind m k) (bind m' k').
Proof.
  intros Hm Hk s s' Hs. specialize (Hm s s' Hs). unfold bind.
  destruct (m s) as [a s1|e s1|s1|s1], (m' s') as [a' s1'|e' s1'|s1'|s1'];
    simpl in Hm; try done.
  destruct Hm as [Ha Hs1]. by apply Hk.
Qed.

Lemma HasInitContainerStarted_succeeded (pod : Pod) (idx : nat) :
  HasInitContainerStarted (succeeded pod) idx = HasInitContainerStarted pod idx.
Proof.
  unfold HasInitContainerStarted. simpl. rewrite list_lookup_fmap.
  by destruct (Status_InitContainerStatuses pod !! idx).
Qed.

Section Unaffected.

Context (w : World) (ns : string) (fuel : nat).

Lemma Pods_Get_withoutFailures (t : nat) (podName : string) :
  sameResult isSucceeded (Pods_Get w t ns podName)
             (Pods_Get (withoutFailures w) t ns podName).
Proof. simpl. by destruct (Pods_Get w t ns podName). Qed.

Lemma simulates_failureCheck (i : nat) (pod : Pod) :
  simulates eq (failureCheck i pod) (failureCheck i (succeeded pod)).
Proof.
  unfold failureCheck. simpl. rewrite length_fmap, list_lookup_fmap.
  destruct (0 <? i)%nat; [|by apply simulates_ret].
  destruct (i <? length (Status_InitContainerStatuses pod))%nat; [|by apply simulates_ret].
  destruct (Status_InitContainerStatuses pod !! (i - 1)%nat) as [lastContainer|];
    simpl; [|apply simulates_panic].
  destruct (Terminated (ContainerStatus_State lastContainer)) as [terminated|];
    simpl; [|by apply simulates_ret].
  destruct (negb (ExitCode terminated =? 0)); [apply simulates_warning|by apply simulates_ret].
Qed.

Lemma simulates_Pods_Get (podName : string) :
  simulates (sameResult isSucceeded)
            (call (CallPodsGet ns podName) (λ t, Pods_Get w t ns podName))
            (call (CallPodsGet ns podName) (λ t, Pods_Get (withoutFailures w) t ns podName)).
Proof. apply simulates_call; [done|]. intros t. apply Pods_Get_withoutFailures. Qed.

Lemma simulates_pollUntilStarted (n : nat) (pod : Pod) (idx : nat) :
  simulates isSucceeded
            (pollUntilStarted w ns n pod idx)
            (pollUntilStarted (withoutFailures w) ns n (succeeded pod) idx).
Proof.
  induction n as [|n IH]; [apply simulates_diverge|].
  cbn [pollUntilStarted]. unfold sleep.
  eapply (simulates_bind eq); [by apply simulates_call|]. intros _ _ _.
  eapply simulates_bind; [apply simulates_Pods_Get|].
  intros [p|err] [p'|err'] Hr; try done.
  - simpl in Hr. unfold isSucceeded in Hr. subst p'. rewrite HasInitContainerStarted_succeeded.
    destruct (HasInitContainerStarted p idx); [by apply simulates_ret|apply IH].
  - simpl in Hr. subst err'. apply simulates_fail.
Qed.

Lemma simulates_wait (pod : Pod) (idx : nat) :
  simulates isSucceeded
            (waitForInitContainerToStart w ns fuel pod idx)
            (waitForInitContainerToStart (withoutFailures w) ns fuel (succeeded pod) idx).
Proof.
  unfold waitForInitContainerToStart. rewrite HasInitContainerStarted_succeeded.
  cbn [succeeded Status_Phase Pod_Name Spec_InitContainers].
  case_decide.
  - eapply simulates_bind; [by apply simulates_log|]. intros _ _ _.
    by apply simulates_ret.
  - destruct (HasInitContainerStarted pod idx); [by apply simulates_ret|].
    eapply simulates_bind; [by apply simulates_log|]. intros _ _ _.
    apply simulates_pollUntilStarted.
Qed.

Lemma simulates_tailLogs (pod container : string) :
  simulates eq (tailLogs w ns pod container) (tailLogs (withoutFailures w) ns pod container).
Proof.
  unfold tailLogs. eapply simulates_bind.
  - apply (simulates_call eq); [done|]. by intros t.
  - intros r ? <-. destruct r; [apply simulates_fail|by apply simulates_ret].
Qed.

Lemma simulates_getPodLog (pod pod' : Pod) (ic : Container) :
  isSucceeded pod pod' →
  simulates eq (getPodLog w ns pod ic) (getPodLog (withoutFailures w) ns pod' ic).
Proof.
  intros ->. unfold getPodLog. cbn [succeeded Pod_Name].
  eapply simulates_bind; [by apply simulates_log|]. intros _ _ _.
  apply simulates_tailLogs.
Qed.

Lemma simulates_getStageLog (build stageName : string) (pod pod' : Pod) (ic : Container) :
  isSucceeded pod pod' →
  simulates eq (getStageLog w ns build stageName pod ic)
            (getStageLog (withoutFailures w) ns build stageName pod' ic).
Proof.
  intros ->. unfold getStageLog. cbn [succeeded Pod_Name].
  eapply simulates_bind; [by apply simulates_log|]. intros _ _ _.
  apply simulates_tailLogs.
Qed.

Lemma simulates_visitContainer (getLog getLog' : Pod → Container → M unit)
      (podName : string) (i : nat) (ic : Container) :
  (∀ pod pod', isSucceeded pod pod' → simulates eq (getLog pod ic) (getLog' pod' ic)) →
  simulates eq (visitContainer w ns fuel getLog podName i ic)
            (visitContainer (withoutFailures w) ns fuel getLog' podName i ic).
Proof.
  intros HgetLog. unfold visitContainer.
  eapply (simulates_bind (λ r r', sameResult isSucceeded r.1 r'.1 ∧ r.2 = r'.2)).
  { apply simulates_call; [done|]. intros t. split; [|done].
    apply Pods_Get_withoutFailures. }
  intros [[p|err] failed] [[p'|err'] failed'] [Hr Hfailed]; try done.
  - simpl in Hr. unfold isSucceeded in Hr. subst p'.
    eapply simulates_bind; [apply simulates_failureCheck|]. intros _ _ _.
    eapply simulates_bind; [apply simulates_wait|]. intros q q' Hq.
    by apply HgetLog.
  - simpl in Hr, Hfailed. subst err' failed'.
    destruct failed; [apply simulates_fail|apply simulates_panic].
Qed.

Lemma simulates_visitContainers (getLog getLog' : Pod → Container → M unit)
      (podName : string) (i : nat) (ics : list Container) :
  (∀ pod pod' ic, isSucceeded pod pod' → simulates eq (getLog pod ic) (getLog' pod' ic)) →
  simulates eq (visitContainers w ns fuel getLog podName i ics)
            (visitContainers (withoutFailures w) ns fuel getLog' podName i ics).
Proof.
  intros HgetLog. revert i. induction ics as [|ic ics IH]; intros i; simpl.
  - by apply simulates_ret.
  - eapply simulates_bind; [|intros _ _ _; apply IH].
    apply simulates_visitContainer. intros pod pod'. apply HgetLog.
Qed.

Lemma simulates_visitBuildPod (name suffix : string) (b : BuildPodInfo) :
  simulates eq (visitBuildPod w ns fuel name suffix b)
            (visitBuildPod (withoutFailures w) ns fuel name suffix b).
Proof.
  unfold visitBuildPod. destruct (BuildPodInfo_Pod b) as [pod|]; [|apply simulates_fail].
  destruct (length (Spec_InitContainers pod) <=? 0)%nat; [apply simulates_fail|].
  eapply simulates_bind; [by apply simulates_log|]. intros _ _ _.
  apply simulates_visitContainers. intros p p' ic. apply simulates_getPodLog.
Qed.

Lemma simulates_setPodsForStage (pipelineRun : string) (stage : StageInfo) :
  simulates eq (setPodsForStage w ns pipelineRun stage)
            (setPodsForStage (withoutFailures w) ns pipelineRun stage).
Proof.
  unfold setPodsForStage. eapply simulates_bind.
  - apply (simulates_call eq); [done|]. by intros t.
  - intros r ? <-. destruct r as [[pod|]|err]; try by apply simulates_ret.
    eapply simulates_bind; [by apply simulates_log|]. intros _ _ _.
    by apply simulates_ret.
Qed.

Lemma simulates_retryLoop {V} (f f' : V → M (V * option Error))
      (more elapsed : nat) (v : V) :
  (∀ v, simulates eq (f v) (f' v)) →
  simulates eq (retryLoop w more elapsed f v)
            (retryLoop (withoutFailures w) more elapsed f' v).
Proof.
  intros Hf. revert elapsed v. induction more as [|more IH]; intros elapsed v;
    cbn [retryLoop]; unfold sleep; (eapply simulates_bind; [apply Hf|]);
    intros [v' [err|]] ? <-; try by apply simulates_ret.
  - eapply (simulates_bind eq); [by apply simulates_call|]. intros _ _ _.
    by apply simulates_ret.
  - eapply (simulates_bind eq); [by apply simulates_call|]. intros _ _ _. apply IH.
Qed.

Lemma simulates_awaitStagePod (maxElapsedTime : nat) (pipelineRun : string)
      (stage : StageInfo) :
  simulates eq (awaitStagePod w ns maxElapsedTime pipelineRun stage)
            (awaitStagePod (withoutFailures w) ns maxElapsedTime pipelineRun stage).
Proof.
  unfold awaitStagePod, Retry, attempts.
  destruct (Stage_Pod stage); [by apply simulates_ret|].
  eapply simulates_bind.
  - apply simulates_retryLoop. apply simulates_setPodsForStage.
  - intros [v [err|]] ? <-; [apply simulates_fail|by apply simulates_ret].
Qed.

Lemma simulates_visitStage (maxElapsedTime : nat) (name suffix pipelineRun : string)
      (stage : StageInfo) :
  simulates eq (visitStage w ns fuel maxElapsedTime name suffix pipelineRun stage)
            (visitStage (withoutFailures w) ns fuel maxElapsedTime name suffix
                        pipelineRun stage).
Proof.
  unfold visitStage. eapply simulates_bind; [apply simulates_awaitStagePod|].
  intros stage' ? <-. destruct (Stage_Pod stage') as [pod|]; [|apply simulates_panic].
  destruct (length (Spec_InitContainers pod) <=? 0)%nat; [apply simulates_fail|].
  apply simulates_visitContainers. intros p p' ic. apply simulates_getStageLog.
Qed.

Lemma simulates_visitStages (maxElapsedTime : nat) (name suffix pipelineRun : string)
      (stages : list StageInfo) :
  simulates eq (visitStages w ns fuel maxElapsedTime name suffix pipelineRun stages)
            (visitStages (withoutFailures w) ns fuel maxElapsedTime name suffix
                         pipelineRun stages).
Proof.
  induction stages as [|stage stages IH]; simpl; [by apply simulates_ret|].
  eapply simulates_bind; [apply simulates_visitStage|]. intros _ _ _. apply IH.
Qed.

End Unaffected.

(** C5, as amended: in the loop over the init containers of one pod, the
    check before unit i emits a warning with the name, the exit code and
    the message of unit i-1 when i > 0 and the snapshot just read has more
    than i statuses, of which the one at i-1 is terminated with a non-zero
    exit code; it emits that warning once, before the wait and the stream
    of unit i, it emits nothing otherwise, and in both cases the loop goes
    on with the wait and the stream.  Exit codes change only these
    warnings: with all of them read as zero, the walk over a build pod and
    the walk over the stages end the same way, after the same events. *)
Theorem failed_predecessor_warned_once (w : World) (ns : string) (fuel : nat) :
  (∀ getLog podName i ic s pod,
      Pods_Get w (tick s) ns podName = Success pod →
      ∃ warnings,
        visitContainer w ns fuel getLog podName i ic s
        = bind (waitForInitContainerToStart w ns fuel pod i) (λ pod, getLog pod ic)
               (logged warnings (after (CallPodsGet ns podName) s))
        ∧ (∀ lastContainer terminated,
              reportsFailedPredecessor i pod lastContainer terminated →
              warnings = [WarnContainerFailed (ContainerStatus_Name lastContainer)
                                              (ExitCode terminated) (Message terminated)])
        ∧ ((¬ ∃ lastContainer terminated,
                reportsFailedPredecessor i pod lastContainer terminated) →
           warnings = []))
  ∧ (∀ name suffix b s,
        sameOutcome eq (visitBuildPod w ns fuel name suffix b s)
                    (visitBuildPod (withoutFailures w) ns fuel name suffix b s))
  ∧ (∀ maxElapsedTime name suffix pipelineRun stages s,
        sameOutcome eq
          (visitStages w ns fuel maxElapsedTime name suffix pipelineRun stages s)
          (visitStages (withoutFailures w) ns fuel maxElapsedTime name suffix
                       pipelineRun stages s)).
Proof.
  split; [|split].
  - intros getLog podName i ic s pod Hget.
    destruct (failureCheck_warnings i pod (after (CallPodsGet ns podName) s))
      as (warnings & Hcheck & Hwarned & Hsilent).
    exists warnings. split; [|done].
    unfold visitContainer, bind at 1, call. rewrite Hget.
    fold (after (CallPodsGet ns podName) s).
    by rewrite (bind_Returns _ _ _ _ _ Hcheck).
  - intros name suffix b s. apply simulates_visitBuildPod, sameButWarnings_refl.
  - intros maxElapsedTime name suffix pipelineRun stages s.
    apply simulates_visitStages, sameButWarnings_refl.
Qed.

Lemma failed_predecessor_warned_once_witness :
  Pods_Get failedFirstWorld (tick initialState) "jx" "failed-pod" = Success failedFirstPod
  ∧ reportsFailedPredecessor 1 failedFirstPod
      (statusTerminated "git" 1 "clone failed")
      {| ExitCode := 1; Message := "clone failed" |}
  ∧ visitContainer failedFirstWorld "jx" 5 (getPodLog failedFirstWorld "jx")
                   "failed-pod" 1 (container "build") initialState
    = Returns tt
        {| tick := 2;
           trace := [CallPodsGet "jx" "failed-pod";
                     WarnContainerFailed "git" 1 "clone failed";
                     InfoGettingPodLog "failed-pod" "build";
                     CallTailLogs "jx" "failed-pod" "build"] |}.
Proof.
  assert (reportsFailedPredecessor 1 failedFirstPod
            (statusTerminated "git" 1 "clone failed")
            {| ExitCode := 1; Message := "clone failed" |}) as Hreports.
  { unfold reportsFailedPredecessor. simpl. split_and!; [lia|lia|done|done|done]. }
  split; [reflexivity|]. split; [exact Hreports|].
  destruct (proj1 (failed_predecessor_warned_once failedFirstWorld "jx" 5)
                  (getPodLog failedFirstWorld "jx") "failed-pod" 1%nat
                  (container "build") initialState failedFirstPod eq_refl)
    as (warnings & Hrun & Hwarned & _).
  rewrite Hrun, (Hwarned _ _ Hreports). reflexivity.
Defined.

(** C5 as stated fails: the snapshot read before the second unit reports
    the first as terminated with exit code 1, but has no status for the
    second; no warning is emitted, and the second unit is streamed. *)
Lemma failed_predecessor_not_warned :
  (∀ t, Pods_Get halfReportedWorld t "jx" "half-pod" = Success halfReportedPod)
  ∧ Status_InitContainerStatuses halfReportedPod !! 0%nat
    = Some (statusTerminated "git" 1 "clone failed")
  ∧ ∃ s', visitBuildPod halfReportedWorld "jx" 5 "jx/demo/master #1" ""
                        (CreateBuildPodInfo halfReportedWorld halfReportedPod)
                        initialState
          = Returns tt s'
          ∧ CallTailLogs "jx" "half-pod" "build" ∈ trace s'
          ∧ Forall (λ e, isFailureWarning e = false) (trace s').
Proof.
  split; [done|]. split; [done|]. eexists. split; [vm_compute; reflexivity|].
  split.
  - apply list_elem_of_In. simpl. tauto.
  - repeat constructor.
Qed.

(** ** C6: waiting for the pipeline *)

Section Waiting.

Context (w : World) (ns : string).

Lemma retryLoop_step {V} (f : V → M (V * option Error)) (more elapsed : nat)
      (v : V) (s : State) :
  retryLoop w more elapsed f v s
  = match f v s with
    | Returns (v', None) s' => Returns (v', None) s'
    | Returns (v', Some err) s' =>
        match more with
        | O => Returns (v', Some (TimeoutExceeded (elapsed + RetryInterval w) err))
                       (after (Sleep (RetryInterval w)) s')
        | S more' =>
            retryLoop w more' (elapsed + RetryInterval w) f v'
                      (after (Sleep (RetryInterval w)) s')
        end
    | Fails e s' => Fails e s'
    | Panics s' => Panics s'
    | Diverges s' => Diverges s'
    end.
Proof.
  destruct more; simpl; unfold bind;
    (destruct (f v s) as [[v' [err|]] s'|e s'|s'|s']; done).
Qed.

Lemma lookupBuild_None (c : Catalog) (name suffix : string) :
  buildMap c !! name = None → pipelineMap c !! name = None →
  lookupBuild c name suffix = (None, suffix).
Proof. intros Hexact Hlatest. unfold lookupBuild. by rewrite Hexact, Hlatest. Qed.

Lemma reload_error (load : M (Catalog * option Error)) (name : string)
      (c0 c : Catalog) (err : Error) (s s1 : State) :
  load s = Returns (c, Some err) s1 →
  reload load name (c0, None, "") s = Returns ((c, None, ""), Some err) s1.
Proof. intros Hload. unfold reload, bind. by rewrite Hload. Qed.

Lemma reload_absent (load : M (Catalog * option Error)) (name : string)
      (c0 c : Catalog) (s s1 : State) :
  load s = Returns (c, None) s1 →
  buildMap c !! name = None → pipelineMap c !! name = None →
  reload load name (c0, None, "") s
  = Returns ((c, None, ""), Some (NoPipelineExistsYet name))
            (logged [InfoNoBuildFoundIn (names c)] s1).
Proof.
  intros Hload Hexact Hlatest. unfold reload, bind. rewrite Hload.
  by rewrite (lookupBuild_None _ _ _ Hexact Hlatest).
Qed.

Lemma reload_found (load : M (Catalog * option Error)) (name : string)
      (c0 c : Catalog) (build : BaseBuildInfo) (s s1 : State) :
  load s = Returns (c, None) s1 →
  (lookupBuild c name "").1 = Some build →
  reload load name (c0, None, "") s
  = Returns ((c, Some build, (lookupBuild c name "").2), None) s1.
Proof.
  intros Hload Hfound. unfold reload, bind. rewrite Hload.
  destruct (lookupBuild c name "") as [[b|] suffix]; simpl in *; [|done].
  by injection Hfound as ->.
Qed.

Lemma retryLoop_reload_found (load : M (Catalog * option Error)) (name : string)
      (k more elapsed : nat) (c0 c : Catalog) (build : BaseBuildInfo)
      (s s1 s2 : State) :
  stillMissing w load name k s s1 →
  load s1 = Returns (c, None) s2 →
  (lookupBuild c name "").1 = Some build →
  (k ≤ more)%nat →
  retryLoop w more elapsed (reload load name) (c0, None, "") s
  = Returns ((c, Some build, (lookupBuild c name "").2), None) s2.
Proof.
  intros Hmissing Hload Hfound. revert more elapsed c0.
  induction Hmissing as [s|k s s1 s' c1 err Hfail _ IH|k s s1 s' c1 Hfail Hexact Hlatest _ IH];
    intros more elapsed c0 Hk; rewrite retryLoop_step.
  - by rewrite (reload_found _ _ _ _ _ _ _ Hload Hfound).
  - rewrite (reload_error _ _ _ _ _ _ _ Hfail).
    destruct more as [|more]; [lia|]. apply IH; [done..|lia].
  - rewrite (reload_absent _ _ _ _ _ _ Hfail Hexact Hlatest).
    destruct more as [|more]; [lia|]. apply IH; [done..|lia].
Qed.

Lemma retryLoop_reload_timeout (load : M (Catalog * option Error)) (name : string)
      (more elapsed : nat) (c0 : Catalog) (s s1 : State) :
  stillMissing w load name (S more) s s1 →
  ∃ c last,
    retryLoop w more elapsed (reload load name) (c0, None, "") s
    = Returns ((c, None, ""),
               Some (TimeoutExceeded (elapsed + S more * RetryInterval w) last)) s1.
Proof.
  revert elapsed c0 s. induction more as [|more IH]; intros elapsed c0 s Hmissing;
    rewrite retryLoop_step.
  - inversion Hmissing as [|k s0 s2 s' c1 err Hfail Hrest|k s0 s2 s' c1 Hfail Hexact Hlatest Hrest];
      subst; inversion Hrest; subst.
    + rewrite (reload_error _ _ _ _ _ _ _ Hfail). exists c1, err.
      by rewrite Nat.mul_1_l.
    + rewrite (reload_absent _ _ _ _ _ _ Hfail Hexact Hlatest).
      exists c1, (NoPipelineExistsYet name). by rewrite Nat.mul_1_l.
  - inversion Hmissing as [|k s0 s2 s' c1 err Hfail Hrest|k s0 s2 s' c1 Hfail Hexact Hlatest Hrest];
      subst.
    + rewrite (reload_error _ _ _ _ _ _ _ Hfail).
      destruct (IH (elapsed + RetryInterval w)%nat c1 _ Hrest) as (c & last & ->).
      exists c, last.
      by replace (elapsed + S (S more) * RetryInterval w)%nat
        with (elapsed + RetryInterval w + S more * RetryInterval w)%nat by lia.
    + rewrite (reload_absent _ _ _ _ _ _ Hfail Hexact Hlatest).
      destruct (IH (elapsed + RetryInterval w)%nat c1 _ Hrest) as (c & last & ->).
      exists c, last.
      by replace (elapsed + S (S more) * RetryInterval w)%nat
        with (elapsed + RetryInterval w + S more * RetryInterval w)%nat by lia.
Qed.

Lemma attempts_positive (maxElapsedTime : nat) : (0 < attempts w maxElapsedTime)%nat.
Proof. unfold attempts. lia. Qed.

Lemma attempts_cover (maxElapsedTime : nat) :
  (0 < RetryInterval w)%nat →
  (maxElapsedTime ≤ attempts w maxElapsedTime * RetryInterval w)%nat.
Proof.
  intros Hpos. unfold attempts.
  pose proof (Nat.div_mod_eq (maxElapsedTime + RetryInterval w - 1) (RetryInterval w)).
  pose proof (Nat.mod_upper_bound (maxElapsedTime + RetryInterval w - 1)
                                  (RetryInterval w)).
  nia.
Qed.

Lemma attempts_before_timeout (maxElapsedTime k : nat) :
  (0 < RetryInterval w)%nat →
  (k = 0 ∨ k * RetryInterval w < maxElapsedTime)%nat →
  (k < attempts w maxElapsedTime)%nat.
Proof.
  intros Hpos [->|Hk]; [apply attempts_positive|]. unfold attempts.
  pose proof (Nat.div_mod_eq (maxElapsedTime + RetryInterval w - 1) (RetryInterval w)).
  pose proof (Nat.mod_upper_bound (maxElapsedTime + RetryInterval w - 1)
                                  (RetryInterval w)).
  nia.
Qed.

End Waiting.

(** C6: a name given on the command line that is in neither index, with
    --wait: the catalog is reloaded, one retry interval apart.  If a reload
    made before the timeout has elapsed is the first to find the name, the
    resolution returns the descriptor it found.  If no reload finds it, the
    resolution fails with a timeout error, after pauses that add up to the
    timeout or more. *)
Theorem resolution_waits_for_pipeline
        (w : World) (ns : string) (o : GetBuildLogsOptions) (tektonEnabled : bool)
        (filter : BuildPodInfoFilter) (c : Catalog) (name : string)
        (rest : list string) (s : State) :
  Wait o = true →
  (0 < RetryInterval w)%nat →
  buildMap c !! name = None →
  pipelineMap c !! name = None →
  (∀ k s1 c' s2 build,
      (k = 0 ∨ k * RetryInterval w < WaitForPipelineDuration o)%nat →
      stillMissing w (load w ns tektonEnabled filter) name k
                   (logged [InfoWaitingForPipeline name] s) s1 →
      load w ns tektonEnabled filter s1 = Returns (c', None) s2 →
      (lookupBuild c' name "").1 = Some build →
      resolve w ns o tektonEnabled filter c (name :: rest) false s
      = Returns (name, build, (lookupBuild c' name "").2) s2)
  ∧ (∀ s1,
        stillMissing w (load w ns tektonEnabled filter) name
                     (attempts w (WaitForPipelineDuration o))
                     (logged [InfoWaitingForPipeline name] s) s1 →
        ∃ last,
          resolve w ns o tektonEnabled filter c (name :: rest) false s
          = Fails (TimeoutExceeded
                     (attempts w (WaitForPipelineDuration o) * RetryInterval w) last) s1
          ∧ (WaitForPipelineDuration o
             ≤ attempts w (WaitForPipelineDuration o) * RetryInterval w)%nat).
Proof.
  intros Hwait Hinterval Hexact Hlatest.
  assert (resolve w ns o tektonEnabled filter c (name :: rest) false s
          = match Retry w (WaitForPipelineDuration o)
                        (reload (load w ns tektonEnabled filter) name) (c, None, "")
                        (logged [InfoWaitingForPipeline name] s) with
            | Returns (_, Some err) s' => Fails err s'
            | Returns ((c, Some build, suffix), None) s' => Returns (name, build, suffix) s'
            | Returns ((c, None, _), None) s' => Fails (NoPipelineFound name (names c)) s'
            | Fails e s' => Fails e s'
            | Panics s' => Panics s'
            | Diverges s' => Diverges s'
            end) as Hresolve.
  { unfold resolve. rewrite (lookupBuild_None _ _ _ Hexact Hlatest), Hwait.
    simpl. unfold bind, log. fold (logged [InfoWaitingForPipeline name] s).
    destruct (Retry _ _ _ _ _) as [[[[c1 [build|]] suffix] [err|]] s'|e s'|s'|s']; done. }
  pose proof (attempts_positive w (WaitForPipelineDuration o)) as Hpositive.
  split.
  - intros k s1 c' s2 build Hk Hmissing Hload Hfound.
    apply (attempts_before_timeout w _ _ Hinterval) in Hk.
    rewrite Hresolve. unfold Retry.
    by rewrite (retryLoop_reload_found w _ _ k _ _ _ c' build _ s1 s2) by (done || lia).
  - intros s1 Hmissing.
    replace (attempts w (WaitForPipelineDuration o))
      with (S (Nat.pred (attempts w (WaitForPipelineDuration o)))) in Hmissing by lia.
    destruct (retryLoop_reload_timeout w _ _ _ 0%nat c _ _ Hmissing) as (c1 & last & Hretry).
    exists last. split; [|by apply attempts_cover].
    rewrite Hresolve. unfold Retry. rewrite Hretry, Nat.add_0_l.
    by replace (S (Nat.pred (attempts w (WaitForPipelineDuration o))))
      with (attempts w (WaitForPipelineDuration o)) by lia.
Qed.

Lemma resolution_waits_for_pipeline_witness :
  (resolve lateBuildsWorld "jx" (waitingOptions 300) false noFilter emptyCatalog
           ["jx/demo/master"] false initialState
   = Returns ("jx/demo/master",
              IsBuildPodInfo (CreateBuildPodInfo lateBuildsWorld
                                (samplePod "jx-demo-master-1" ["git"; "build"] PodSucceeded [])),
              " #1")
       {| tick := 5;
          trace := [InfoWaitingForPipeline "jx/demo/master";
                    CallGetBuildPods "jx"; Sleep 2;
                    CallGetBuildPods "jx"; Sleep 2;
                    CallGetBuildPods "jx"] |})
  ∧ ∃ last,
      resolve quietWorld "jx" (waitingOptions 5) false noFilter emptyCatalog
              ["jx/demo/master"] false initialState
      = Fails (TimeoutExceeded 6 last)
          {| tick := 6;
             trace := [InfoWaitingForPipeline "jx/demo/master";
                       CallGetBuildPods "jx"; Sleep 2;
                       CallGetBuildPods "jx"; Sleep 2;
                       CallGetBuildPods "jx"; Sleep 2] |}
      ∧ (5 ≤ 6)%nat.
Proof.
  split.
  - etrans.
    { apply (proj1 (resolution_waits_for_pipeline lateBuildsWorld "jx" (waitingOptions 300)
                      false noFilter emptyCatalog "jx/demo/master" [] initialState
                      eq_refl ltac:(simpl; lia) eq_refl eq_refl)
                   2%nat
                   {| tick := 4;
                      trace := [InfoWaitingForPipeline "jx/demo/master";
                                CallGetBuildPods "jx"; Sleep 2;
                                CallGetBuildPods "jx"; Sleep 2] |}
                   (indexBuilds (SortBuildPodInfos
                      (collectBuildInfos lateBuildsWorld noFilter twoBuildPods)))
                   {| tick := 5;
                      trace := [InfoWaitingForPipeline "jx/demo/master";
                                CallGetBuildPods "jx"; Sleep 2;
                                CallGetBuildPods "jx"; Sleep 2;
                                CallGetBuildPods "jx"] |}
                   (IsBuildPodInfo (CreateBuildPodInfo lateBuildsWorld
                      (samplePod "jx-demo-master-1" ["git"; "build"] PodSucceeded [])))).
      - right. simpl. lia.
      - eapply stillMissing_error; [vm_compute; reflexivity|].
        eapply stillMissing_error; [vm_compute; reflexivity|].
        apply stillMissing_O.
      - vm_compute; reflexivity.
      - vm_compute; reflexivity. }
    vm_compute; reflexivity.
  - apply (proj2 (resolution_waits_for_pipeline quietWorld "jx" (waitingOptions 5)
                    false noFilter emptyCatalog "jx/demo/master" [] initialState
                    eq_refl ltac:(simpl; lia) eq_refl eq_refl)).
    eapply stillMissing_error; [vm_compute; reflexivity|].
    eapply stillMissing_error; [vm_compute; reflexivity|].
    eapply stillMissing_error; [vm_compute; reflexivity|].
    apply stillMissing_O.
Defined.

(** * Further properties *)

(** ** The catalog *)

Lemma names_iff_exact_index {T} `{BuildInfo T} (buildInfos : list T) (name : string) :
  name ∈ names (indexBuilds buildInfos)
  ↔ is_Some (buildMap (indexBuilds buildInfos) !! name).
Proof.
  rewrite indexBuilds_names, indexBuilds_buildMap. split.
  - intros (b & -> & Hb)%list_elem_of_fmap. rewrite fmap_is_Some.
    apply last_is_Some. intros Hnil.
    by apply (filter_nil_not_elem_of _ _ b) in Hnil.
  - rewrite fmap_is_Some. intros [b Hlast].
    apply last_Some_elem_of, list_elem_of_filter in Hlast as [<- Hb].
    by apply list_elem_of_fmap_2.
Qed.

(** X1: the names are the display names of the descriptors in iteration
    order; a name is among them exactly when the exact index has an entry
    for it, and that entry is one of the descriptors and has this display
    name. *)
Theorem exact_index_round_trip {T} `{BuildInfo T} (buildInfos : list T) :
  names (indexBuilds buildInfos) = displayName <$> buildInfos
  ∧ (∀ name, name ∈ names (indexBuilds buildInfos)
             ↔ is_Some (buildMap (indexBuilds buildInfos) !! name))
  ∧ (∀ name build,
        buildMap (indexBuilds buildInfos) !! name = Some build →
        ∃ b, b ∈ buildInfos ∧ displayName b = name ∧ build = asBase b).
Proof.
  assert (∀ name build,
        buildMap (indexBuilds buildInfos) !! name = Some build →
        ∃ b, b ∈ buildInfos ∧ displayName b = name ∧ build = asBase b) as Hentry.
  { intros name build. rewrite indexBuilds_buildMap.
    intros (b & Hlast & ->)%fmap_Some. exists b.
    apply last_Some_elem_of, list_elem_of_filter in Hlast as [Hname Hb]. done. }
  split; [apply indexBuilds_names|]. split; [|done].
  intros name. apply names_iff_exact_index.
Qed.

Section MoreLoaders.

Context (w : World) (ns : string).

(** X2: the loop of loadBuilds over the listed pods keeps, in the order of
    the list, the descriptor of every pod that has an init container and
    matches the filter, once per such pod. *)
Theorem collectBuildInfos_filter_map (filter : BuildPodInfoFilter) (pods : list Pod) :
  collectBuildInfos w filter pods
  = base.filter (λ b, BuildMatches w filter b = true)
                (CreateBuildPodInfo w
                   <$> base.filter (λ pod, (0 < length (Spec_InitContainers pod))%nat) pods).
Proof.
  induction pods as [|pod pods IH] using rev_ind; [done|].
  rewrite collectBuildInfos_snoc, IH, filter_app, fmap_app, filter_app.
  f_equal. rewrite filter_cons, filter_nil.
  destruct (Nat.ltb_spec 0 (length (Spec_InitContainers pod))) as [Hlen|Hlen].
  - rewrite decide_True by done. simpl. rewrite filter_cons, filter_nil.
    destruct (BuildMatches w filter (CreateBuildPodInfo w pod)) eqn:Hm.
    + by rewrite decide_True.
    + by rewrite decide_False.
  - rewrite decide_False by lia. done.
Qed.

Lemma createPipelineRunInfos_all (items : list string)
      (results : list (option PipelineRunInfo)) (acc : list PipelineRunInfo) (s : State) :
  length results = length items →
  (∀ i name r, items !! i = Some name → results !! i = Some r →
               CreatePipelineRunInfo w (tick s + i) ns name = Success r) →
  createPipelineRunInfos w ns items acc s
  = Returns (Success (acc ++ omap id results))
      {| tick := tick s + length items;
         trace := trace s ++ (CallCreatePipelineRunInfo ns <$> items) |}.
Proof.
  revert results acc s. induction items as [|name items IH]; intros results acc s Hlen Hall.
  - destruct results; [|done]. simpl. unfold ret.
    rewrite !app_nil_r, Nat.add_0_r. by destruct s.
  - destruct results as [|r results]; [done|]. simpl in Hlen.
    cbn [createPipelineRunInfos]. unfold bind at 1. unfold call at 1.
    pose proof (Hall 0%nat name r eq_refl eq_refl) as Hhead.
    rewrite Nat.add_0_r in Hhead. rewrite Hhead.
    assert (∀ acc',
      createPipelineRunInfos w ns items acc'
        {| tick := S (tick s); trace := trace s ++ [CallCreatePipelineRunInfo ns name] |}
      = Returns (Success (acc' ++ omap id results))
          {| tick := tick s + length (name :: items);
             trace := trace s ++ (CallCreatePipelineRunInfo ns <$> name :: items) |})
      as Hrest.
    { intros acc'. rewrite (IH results); [|lia|].
      - simpl. do 2 f_equal; [lia|]. by rewrite <-app_assoc.
      - intros i name' r' Hi Hr'. rewrite <-(Hall (S i) name' r' Hi Hr').
        simpl. f_equal. lia. }
    destruct r as [pri|]; rewrite Hrest; [|done].
    simpl. by rewrite <-app_assoc.
Qed.

End MoreLoaders.

(** X3: loadBuilds always returns.  Its error is nil exactly when the pods
    could be listed and one of them has an init container and matches the
    filter, and then the names are not empty; with an error the four other
    values are empty; a failure to list the pods is returned as it is,
    after a warning. *)
Theorem loadBuilds_error_cases
        (w : World) (ns : string) (filter : BuildPodInfoFilter) (s : State) :
  ∃ c err s',
    loadBuilds w ns filter s = Returns (c, err) s'
    ∧ (err = None ↔
       ∃ pods pod,
         GetBuildPods w (tick s) ns = Success pods
         ∧ pod ∈ pods
         ∧ Spec_InitContainers pod ≠ []
         ∧ BuildMatches w filter (CreateBuildPodInfo w pod) = true)
    ∧ (err = None → names c ≠ [])
    ∧ (err ≠ None → c = emptyCatalog)
    ∧ (∀ e, GetBuildPods w (tick s) ns = Failure e →
            err = Some e
            ∧ trace s' = trace s ++ [CallGetBuildPods ns; WarnFailedToQueryPods e]).
Proof.
  destruct (GetBuildPods w (tick s) ns) as [pods|e] eqn:Hget.
  - rewrite (loadBuilds_Success _ _ _ _ _ Hget).
    destruct (collectBuildInfos w filter pods) as [|b bs] eqn:Hbs.
    + eexists _, _, _. split; [done|]. split; [|done].
      split; [done|]. intros (pods' & pod & [= <-] & Hpod & Hne & Hm).
      assert (CreateBuildPodInfo w pod ∈ collectBuildInfos w filter pods) as Hin.
      { apply elem_of_collectBuildInfos. by exists pod. }
      rewrite Hbs in Hin. by apply elem_of_nil in Hin.
    + eexists _, _, _. split; [done|]. split; [|split; [|done]].
      * split; [|done]. intros _.
        assert (b ∈ collectBuildInfos w filter pods) as Hin.
        { rewrite Hbs. by left. }
        apply elem_of_collectBuildInfos in Hin as (pod & ? & ? & -> & ?).
        by exists pods, pod.
      * intros _. rewrite indexBuilds_names. unfold SortBuildPodInfos.
        intros Hnil%fmap_nil_inv.
        pose proof (length_sortNewestFirst (b :: bs)) as Hlen.
        rewrite Hnil in Hlen. done.
  - rewrite (loadBuilds_Failure _ _ _ _ _ Hget).
    eexists _, _, _. split; [done|]. split; [|split; [done|split; [done|]]].
    + split; [done|]. by intros (? & ? & ? & _).
    + intros e' [= <-]. split; [done|]. simpl. by rewrite <-app_assoc.
Qed.

(** X4: when every descriptor can be constructed, loadPipelines asks for
    one per listed pipeline run, in the order of the list; the runs without
    descriptor (nil) are left out without a log line, and the catalog is
    built from the others. *)
Theorem loadPipelines_skips_nil
        (w : World) (ns : string) (s : State) (items : list string)
        (results : list (option PipelineRunInfo)) :
  PipelineRuns_List w (tick s) ns = Success items →
  length results = length items →
  (∀ i name r, items !! i = Some name → results !! i = Some r →
               CreatePipelineRunInfo w (S (tick s) + i) ns name = Success r) →
  loadPipelines w ns s
  = Returns (match omap id results with
             | [] => (emptyCatalog, Some NoPipelinesTriggered)
             | infos => (indexBuilds (SortPipelineRunInfos infos), None)
             end)
      {| tick := S (tick s) + length items;
         trace := trace s ++ [CallListPipelineRuns ns]
                    ++ (CallCreatePipelineRunInfo ns <$> items) |}.
Proof.
  intros Hlist Hlen Hall.
  erewrite (loadPipelines_Success w ns s _ _ (Success (omap id results)) Hlist);
    cycle 1.
  - rewrite (createPipelineRunInfos_all w ns items results); [|done|done].
    simpl. by rewrite <-app_assoc.
  - by destruct (omap id results).
Qed.

Lemma loadPipelines_skips_nil_witness :
  loadPipelines skippedRunWorld "jx" initialState
  = Returns (indexBuilds (SortPipelineRunInfos [sampleRun "1" 1; sampleRun "3" 3]), None)
      {| tick := 4;
         trace := [CallListPipelineRuns "jx";
                   CallCreatePipelineRunInfo "jx" "run-1";
                   CallCreatePipelineRunInfo "jx" "run-2";
                   CallCreatePipelineRunInfo "jx" "run-3"] |}.
Proof.
  apply (loadPipelines_skips_nil skippedRunWorld "jx" initialState
           ["run-1"; "run-2"; "run-3"]
           [Some (sampleRun "1" 1); None; Some (sampleRun "3" 3)]).
  - reflexivity.
  - reflexivity.
  - intros [|[|[|i]]] name r Hi Hr; simplify_eq/=; done.
Defined.

(** ** More on waitForInitContainerToStart *)

Section MoreWait.

Context (w : World) (ns : string).

Lemma pollUntilStarted_post (n : nat) (pod p : Pod) (idx : nat) (s s' : State) :
  pollUntilStarted w ns n pod idx s = Returns p s' →
  HasInitContainerStarted p idx = true
  ∧ ∃ t, (tick s < t)%nat ∧ Pods_Get w t ns (Pod_Name pod) = Success p.
Proof.
  revert s. induction n as [|n IH]; intros s; [done|].
  rewrite pollUntilStarted_step.
  destruct (Pods_Get w (S (tick s)) ns (Pod_Name pod)) as [q|err] eqn:Hget; [|done].
  destruct (HasInitContainerStarted q idx) eqn:Hq.
  - intros [= <- _]. split; [done|]. exists (S (tick s)). split; [lia|done].
  - intros (Hp & t & Ht & Hread)%IH. split; [done|]. exists t. simpl in Ht.
    split; [lia|done].
Qed.

Lemma pollUntilStarted_Fails (fuel n : nat) (pod : Pod) (idx : nat) (err : Error)
      (s : State) :
  notStartedUntil w ns pod idx n s →
  Pods_Get w (tick s + 2 * n + 1) ns (Pod_Name pod) = Failure err →
  (n < fuel)%nat →
  pollUntilStarted w ns fuel pod idx s
  = Fails (FailedToLoadPod (Pod_Name pod) err) (polled ns (Pod_Name pod) (S n) s).
Proof.
  revert fuel s. induction n as [|n IH]; intros fuel s Hnot Hget Hfuel.
  - destruct fuel as [|fuel]; [lia|]. rewrite pollUntilStarted_step.
    replace (tick s + 2 * 0 + 1)%nat with (S (tick s)) in Hget by lia.
    rewrite Hget. by rewrite polled_S, polled_0.
  - destruct fuel as [|fuel]; [lia|]. rewrite pollUntilStarted_step.
    destruct (Hnot 0%nat) as (q & Hq & Hq'); [lia|].
    replace (tick s + 2 * 0 + 1)%nat with (S (tick s)) in Hq by lia.
    rewrite Hq, Hq'. rewrite (polled_S _ _ (S n)).
    apply IH; [by apply notStartedUntil_step| |lia].
    rewrite <-Hget. simpl. f_equal. lia.
Qed.

End MoreWait.

(** X5: a pod that waitForInitContainerToStart returns is the given pod,
    when that has failed or already shows the init container started, or
    else a snapshot read afterwards by the name of the given pod that
    shows the init container started. *)
Theorem waitForInitContainerToStart_returns_started
        (w : World) (ns : string) (fuel : nat) (pod p : Pod) (idx : nat) (s s' : State) :
  waitForInitContainerToStart w ns fuel pod idx s = Returns p s' →
  (p = pod ∧ (Status_Phase pod = PodFailed ∨ HasInitContainerStarted pod idx = true))
  ∨ (HasInitContainerStarted p idx = true
     ∧ ∃ t, (tick s < t)%nat ∧ Pods_Get w t ns (Pod_Name pod) = Success p).
Proof.
  unfold waitForInitContainerToStart. case_decide as Hphase.
  - intros [= <- _]. left. split; [done|by left].
  - destruct (HasInitContainerStarted pod idx) eqn:Hstarted.
    + intros [= <- _]. left. split; [done|by right].
    + intros ([] & s1 & Hlog & Hpoll)%bind_Returns_inv. right.
      injection Hlog as <-. by apply pollUntilStarted_post in Hpoll.
Qed.

Lemma waitForInitContainerToStart_returns_started_witness :
  waitForInitContainerToStart slowStartWorld "jx" 10 (slowPod false) 0 initialState
  = Returns (slowPod true) (polled "jx" "slow-pod" 3 (waitingFor (slowPod false) 0 initialState))
  ∧ ((slowPod true = slowPod false
      ∧ (Status_Phase (slowPod false) = PodFailed
         ∨ HasInitContainerStarted (slowPod false) 0 = true))
     ∨ (HasInitContainerStarted (slowPod true) 0 = true
        ∧ ∃ t, (tick initialState < t)%nat
               ∧ Pods_Get slowStartWorld t "jx" (Pod_Name (slowPod false))
                 = Success (slowPod true))).
Proof.
  split; [reflexivity|].
  apply (waitForInitContainerToStart_returns_started slowStartWorld "jx" 10
           (slowPod false) (slowPod true) 0 initialState
           (polled "jx" "slow-pod" 3 (waitingFor (slowPod false) 0 initialState))).
  reflexivity.
Defined.

(** X6: when a read of the pod fails while waitForInitContainerToStart is
    polling, the wait ends with that error wrapped as a failure to load the
    pod, right after the failed read. *)
Theorem waitForInitContainerToStart_read_failure
        (w : World) (ns : string) (fuel n : nat) (pod : Pod) (idx : nat)
        (err : Error) (s : State) :
  Status_Phase pod ≠ PodFailed →
  HasInitContainerStarted pod idx = false →
  notStartedUntil w ns pod idx n (waitingFor pod idx s) →
  Pods_Get w (tick s + 2 * n + 1) ns (Pod_Name pod) = Failure err →
  (n < fuel)%nat →
  waitForInitContainerToStart w ns fuel pod idx s
  = Fails (FailedToLoadPod (Pod_Name pod) err)
          (polled ns (Pod_Name pod) (S n) (waitingFor pod idx s)).
Proof.
  intros Hphase Hstarted Hnot Hget Hfuel.
  assert ((if (idx <? length (Spec_InitContainers pod))%nat
           then from_option Container_Name "" (Spec_InitContainers pod !! idx)
           else "")
          = from_option Container_Name "" (Spec_InitContainers pod !! idx)) as Hname.
  { destruct (Nat.ltb_spec idx (length (Spec_InitContainers pod))) as [|Hge]; [done|].
    by rewrite (lookup_ge_None_2 _ _ Hge). }
  unfold waitForInitContainerToStart.
  rewrite Hname, decide_False, Hstarted by done.
  unfold bind, log. fold (waitingFor pod idx s).
  by apply pollUntilStarted_Fails.
Qed.

Lemma waitForInitContainerToStart_read_failure_witness :
  waitForInitContainerToStart vanishingPodWorld "jx" 10 (slowPod false) 0 initialState
  = Fails (FailedToLoadPod "slow-pod" (ClusterError "pod deleted"))
      {| tick := 4;
         trace := [InfoWaitingForInitContainer "slow-pod" "git";
                   Sleep 1; CallPodsGet "jx" "slow-pod";
                   Sleep 1; CallPodsGet "jx" "slow-pod"] |}.
Proof.
  apply (waitForInitContainerToStart_read_failure vanishingPodWorld "jx" 10 1
           (slowPod false) 0 (ClusterError "pod deleted") initialState).
  - done.
  - reflexivity.
  - intros j Hj. exists (slowPod false). destruct j as [|j]; [done|lia].
  - reflexivity.
  - lia.
Defined.

(** ** The walk over a build pod, whatever its outcome *)

Lemma tailed_app (es es' : list Event) : tailed (es ++ es') = tailed es ++ tailed es'.
Proof. unfold tailed. apply omap_app. Qed.

Lemma tailed_quiet (es : list Event) : quiet es → tailed es = [].
Proof.
  induction 1 as [|e es He _ IH]; [done|].
  destruct e; try done; exact IH.
Qed.

Section Prefix.

Context (w : World) (ns : string) (fuel : nat).

Lemma getPodLog_tailed (pod : Pod) (ic : Container) (s : State) :
  ∃ es, trace (finalState (getPodLog w ns pod ic s)) = trace s ++ es
        ∧ tailed es = [Container_Name ic].
Proof.
  exists [InfoGettingPodLog (Pod_Name pod) (Container_Name ic);
          CallTailLogs ns (Pod_Name pod) (Container_Name ic)].
  split; [|done]. unfold getPodLog, tailLogs, bind, log, call, fail, ret. simpl.
  destruct (TailLogs w _ _ _ _); simpl; by rewrite <-app_assoc.
Qed.

Lemma visitContainer_unfold (getLog : Pod → Container → M unit) (podName : string)
      (i : nat) (ic : Container) (s : State) :
  visitContainer w ns fuel getLog podName i ic s
  = match Pods_Get w (tick s) ns podName with
    | Failure err =>
        match Pods_Get_failed w (tick s) ns podName with
        | None => Panics (after (CallPodsGet ns podName) s)
        | Some pod =>
            Fails (FailedToFindPod (Pod_Name pod) err) (after (CallPodsGet ns podName) s)
        end
    | Success pod =>
        match failureCheck i pod (after (CallPodsGet ns podName) s) with
        | Returns _ s1 =>
            match waitForInitContainerToStart w ns fuel pod i s1 with
            | Returns p s2 => getLog p ic s2
            | Fails e s2 => Fails e s2
            | Panics s2 => Panics s2
            | Diverges s2 => Diverges s2
            end
        | Fails e s1 => Fails e s1
        | Panics s1 => Panics s1
        | Diverges s1 => Diverges s1
        end
    end.
Proof.
  unfold visitContainer, bind at 1, call. fold (after (CallPodsGet ns podName) s).
  destruct (Pods_Get w (tick s) ns podName) as [pod|err].
  - unfold bind. by destruct (failureCheck i pod _).
  - by destruct (Pods_Get_failed w (tick s) ns podName).
Qed.

Lemma visitContainer_tailed (podName : string) (i : nat) (ic : Container) (s : State) :
  ∃ es, trace (finalState (visitContainer w ns fuel (getPodLog w ns) podName i ic s))
        = trace s ++ es
        ∧ (tailed es = [] ∨ tailed es = [Container_Name ic])
        ∧ (∀ s', visitContainer w ns fuel (getPodLog w ns) podName i ic s = Returns tt s' →
                 tailed es = [Container_Name ic]).
Proof.
  assert (quiet [CallPodsGet ns podName]) as Hget by (by repeat constructor).
  rewrite visitContainer_unfold.
  destruct (Pods_Get w (tick s) ns podName) as [pod|err].
  2: { exists [CallPodsGet ns podName]. rewrite (tailed_quiet _ Hget).
       destruct (Pods_Get_failed w (tick s) ns podName);
         (split; [done|]); (split; [by left|done]). }
  destruct (streamsNothing_failureCheck i pod (after (CallPodsGet ns podName) s))
    as (es1 & Hes1 & Htrace1).
  destruct (failureCheck i pod _) as [[] s1|e s1|s1|s1]; simpl in Htrace1.
  2-4: exists ([CallPodsGet ns podName] ++ es1);
       rewrite (tailed_quiet _ (quiet_app _ _ Hget Hes1));
       (split; [simpl; rewrite Htrace1; simpl; by rewrite <-app_assoc|]);
       (split; [by left|done]).
  destruct (streamsNothing_wait w ns fuel pod i s1) as (es2 & Hes2 & Htrace2).
  destruct (waitForInitContainerToStart w ns fuel pod i s1) as [p s2|e s2|s2|s2];
    simpl in Htrace2.
  2-4: exists ([CallPodsGet ns podName] ++ es1 ++ es2);
       rewrite (tailed_quiet _ (quiet_app _ _ Hget (quiet_app _ _ Hes1 Hes2)));
       (split; [simpl; rewrite Htrace2, Htrace1; simpl; by rewrite <-!app_assoc|]);
       (split; [by left|done]).
  destruct (getPodLog_tailed p ic s2) as (es3 & Htrace3 & Htailed3).
  exists (([CallPodsGet ns podName] ++ es1 ++ es2) ++ es3).
  rewrite tailed_app, (tailed_quiet _ (quiet_app _ _ Hget (quiet_app _ _ Hes1 Hes2))).
  split; [rewrite Htrace3, Htrace2, Htrace1; simpl; by rewrite <-!app_assoc|].
  split; [by right|done].
Qed.

Lemma visitContainers_tailed (podName : string) (i : nat) (ics : list Container)
      (s : State) :
  ∃ es k,
    trace (finalState (visitContainers w ns fuel (getPodLog w ns) podName i ics s))
    = trace s ++ es
    ∧ tailed es = Container_Name <$> take k ics
    ∧ (∀ s', visitContainers w ns fuel (getPodLog w ns) podName i ics s = Returns tt s' →
             k = length ics).
Proof.
  revert i s. induction ics as [|ic ics IH]; intros i s.
  { exists [], 0%nat. simpl. by rewrite app_nil_r. }
  destruct (visitContainer_tailed podName i ic s) as (es & Htrace & Htailed & Hreturns).
  cbn [visitContainers]. unfold bind.
  destruct (visitContainer w ns fuel (getPodLog w ns) podName i ic s)
    as [[] s1|e s1|s1|s1] eqn:Hic.
  - destruct (IH (S i) s1) as (es' & k & Htrace' & Htailed' & Hreturns').
    exists (es ++ es'), (S k). simpl in Htrace.
    split; [by rewrite Htrace', Htrace, app_assoc|]. split.
    + rewrite tailed_app, (Hreturns s1 eq_refl), Htailed'. done.
    + intros s' Hs'. simpl. f_equal. by eapply Hreturns'.
  - destruct Htailed as [Hnone|Hone].
    + exists es, 0%nat. by rewrite Hnone.
    + exists es, 1%nat. by rewrite Hone.
  - destruct Htailed as [Hnone|Hone].
    + exists es, 0%nat. by rewrite Hnone.
    + exists es, 1%nat. by rewrite Hone.
  - destruct Htailed as [Hnone|Hone].
    + exists es, 0%nat. by rewrite Hnone.
    + exists es, 1%nat. by rewrite Hone.
Qed.

End Prefix.

(** X7: whatever the outcome of the walk over a build pod (it returns, an
    error ends it, the wait goes on), the logs asked for are those of a
    prefix of the init containers of the pod, each once and in declaration
    order; when the walk returns they are all of them. *)
Theorem build_pod_logs_form_a_prefix
        (w : World) (ns : string) (fuel : nat) (name suffix : string)
        (b : BuildPodInfo) (pod : Pod) (s : State) :
  BuildPodInfo_Pod b = Some pod →
  ∃ es k,
    trace (finalState (visitBuildPod w ns fuel name suffix b s)) = trace s ++ es
    ∧ tailed es = Container_Name <$> take k (Spec_InitContainers pod)
    ∧ (∀ s', visitBuildPod w ns fuel name suffix b s = Returns tt s' →
             k = length (Spec_InitContainers pod)).
Proof.
  intros Hpod. unfold visitBuildPod. rewrite Hpod.
  destruct (Spec_InitContainers pod) as [|ic ics] eqn:Hics.
  { exists [], 0%nat. simpl. by rewrite app_nil_r. }
  cbn [length Nat.leb].
  assert (∀ m : M unit,
            bind (log (InfoBuildLogsFor (name +:+ suffix))) (λ _, m) s
            = m (logged [InfoBuildLogsFor (name +:+ suffix)] s)) as -> by done.
  destruct (visitContainers_tailed w ns fuel (Pod_Name pod) 0 (ic :: ics)
              (logged [InfoBuildLogsFor (name +:+ suffix)] s))
    as (es & k & Htrace & Htailed & Hreturns).
  exists (InfoBuildLogsFor (name +:+ suffix) :: es), k.
  split; [rewrite Htrace; simpl; by rewrite <-app_assoc|]. split; [done|].
  intros s'. apply Hreturns.
Qed.

Lemma build_pod_logs_form_a_prefix_witness :
  visitBuildPod brokenLogWorld "jx" 5 "jx/demo/master #1" ""
                (CreateBuildPodInfo brokenLogWorld threeStepPod) initialState
  = Fails (ClusterError "log stream closed")
      {| tick := 4;
         trace := [InfoBuildLogsFor "jx/demo/master #1";
                   CallPodsGet "jx" "three-step-pod";
                   InfoGettingPodLog "three-step-pod" "git";
                   CallTailLogs "jx" "three-step-pod" "git";
                   CallPodsGet "jx" "three-step-pod";
                   InfoGettingPodLog "three-step-pod" "build";
                   CallTailLogs "jx" "three-step-pod" "build"] |}
  ∧ ∃ es k,
      trace (finalState (visitBuildPod brokenLogWorld "jx" 5 "jx/demo/master #1" ""
                           (CreateBuildPodInfo brokenLogWorld threeStepPod) initialState))
      = trace initialState ++ es
      ∧ tailed es = Container_Name <$> take k (Spec_InitContainers threeStepPod)
      ∧ (∀ s', visitBuildPod brokenLogWorld "jx" 5 "jx/demo/master #1" ""
                 (CreateBuildPodInfo brokenLogWorld threeStepPod) initialState
               = Returns tt s' →
               k = length (Spec_InitContainers threeStepPod)).
Proof.
  split; [vm_compute; reflexivity|].
  apply (build_pod_logs_form_a_prefix brokenLogWorld "jx" 5 "jx/demo/master #1" ""
           (CreateBuildPodInfo brokenLogWorld threeStepPod) threeStepPod initialState).
  reflexivity.
Defined.

(** ** What the resolution returns *)

Lemma string_app_nil_r (s : string) : s +:+ "" = s.
Proof.
  induction s as [|a s IH]; [done|].
  change (String a (s +:+ "") = String a s). by rewrite IH.
Qed.

Lemma loadedBy_empty (tektonEnabled : bool) : loadedBy tektonEnabled emptyCatalog.
Proof. destruct tektonEnabled; by exists []. Qed.

Lemma lookupBuild_loadedBy (tektonEnabled : bool) (c : Catalog) (name suffix : string)
      (build : BaseBuildInfo) :
  loadedBy tektonEnabled c →
  lookupBuild c name "" = (Some build, suffix) →
  downcasts tektonEnabled build ∧ name +:+ suffix = displayName build.
Proof.
  assert (∀ T (HT : BuildInfo T) (l : list T),
            (∀ b : T, downcasts tektonEnabled (asBase b)) →
            (∀ b : T, displayName (asBase b) = displayName b) →
            (∀ b : T, GetBuild (asBase b) = Build b) →
            lookupBuild (indexBuilds l) name "" = (Some build, suffix) →
            downcasts tektonEnabled build ∧ name +:+ suffix = displayName build) as Hindex.
  { intros T HT l Hcast Hdisplay Hbuild. unfold lookupBuild.
    rewrite indexBuilds_buildMap, indexBuilds_pipelineMap.
    destruct (last (base.filter (λ b, displayName b = name) l)) as [b|] eqn:Hexact; simpl.
    - intros [= <- <-]. split; [apply Hcast|].
      apply last_Some_elem_of, list_elem_of_filter in Hexact as [Hname _].
      by rewrite string_app_nil_r, Hdisplay.
    - destruct (last (base.filter (λ b, Pipeline b = name) l)) as [b|] eqn:Hlatest;
        simpl; [|done].
      intros [= <- <-]. split; [apply Hcast|].
      apply last_Some_elem_of, list_elem_of_filter in Hlatest as [Hname _].
      by rewrite Hbuild, Hdisplay, <-Hname. }
  unfold loadedBy. destruct tektonEnabled; intros [l ->]; by apply Hindex.
Qed.

Section Resolution.

Context (w : World) (ns : string).

Lemma createPipelineRunInfos_Returns (items : list string) (acc : list PipelineRunInfo)
      (s : State) :
  ∃ r s', createPipelineRunInfos w ns items acc s = Returns r s'.
Proof.
  revert acc s. induction items as [|name items IH]; intros acc s; [by eexists _, _|].
  simpl. unfold bind at 1. unfold call at 1.
  destruct (CreatePipelineRunInfo w (tick s) ns name) as [[pri|]|err];
    [apply IH|apply IH|by eexists _, _].
Qed.

Lemma load_loadedBy (tektonEnabled : bool) (filter : BuildPodInfoFilter)
      (c : Catalog) (err : option Error) (s s' : State) :
  load w ns tektonEnabled filter s = Returns (c, err) s' →
  loadedBy tektonEnabled c.
Proof.
  unfold load. destruct tektonEnabled.
  - destruct (PipelineRuns_List w (tick s) ns) as [items|e] eqn:Hlist.
    + destruct (createPipelineRunInfos_Returns items [] (after (CallListPipelineRuns ns) s))
        as (r & s1 & Hcreate).
      rewrite (loadPipelines_Success _ _ _ _ _ _ Hlist Hcreate).
      destruct r as [[|pri infos]|e]; intros [= <- _ _];
        [apply (loadedBy_empty true)|by eexists|apply (loadedBy_empty true)].
    + rewrite (loadPipelines_Failure _ _ _ _ Hlist). intros [= <- _ _].
      apply (loadedBy_empty true).
  - destruct (GetBuildPods w (tick s) ns) as [pods|e] eqn:Hget.
    + rewrite (loadBuilds_Success _ _ _ _ _ Hget).
      destruct (collectBuildInfos w filter pods); intros [= <- _ _];
        [apply (loadedBy_empty false)|by eexists].
    + rewrite (loadBuilds_Failure _ _ _ _ _ Hget). intros [= <- _ _].
      apply (loadedBy_empty false).
Qed.

Lemma retryLoop_invariant {V} (P Q : V → Prop) (f : V → M (V * option Error))
      (more elapsed : nat) (v v' : V) (s s' : State) :
  (∀ v s v1 e s1, P v → f v s = Returns (v1, Some e) s1 → P v1) →
  (∀ v s v1 s1, P v → f v s = Returns (v1, None) s1 → Q v1) →
  P v →
  retryLoop w more elapsed f v s = Returns (v', None) s' →
  Q v'.
Proof.
  intros Hfail Hok. revert elapsed v s.
  induction more as [|more IH]; intros elapsed v s Hv; rewrite retryLoop_step;
    destruct (f v s) as [[v1 [e|]] s1|e s1|s1|s1] eqn:Hf; try done.
  - intros [= <- _]. by eapply Hok.
  - apply IH. by eapply Hfail.
  - intros [= <- _]. by eapply Hok.
Qed.

Lemma pickPipeline_loadedBy (o : GetBuildLogsOptions) (tektonEnabled : bool)
      (filter : BuildPodInfoFilter) (c : Catalog) (args : list string) (picked : bool)
      (s s' : State) :
  pickPipeline w ns o tektonEnabled filter s = Returns (c, args, picked) s' →
  loadedBy tektonEnabled c.
Proof.
  unfold pickPipeline. destruct (Args o) as [|arg args'].
  - destruct (BatchMode o); [done|].
    intros ([c1 [err|]] & s1 & Hload & Hpick)%bind_Returns_inv; [done|].
    apply bind_Returns_inv in Hpick as ([name|e] & s2 & _ & Hret); [|done].
    injection Hret as <- _ _ _. by eapply load_loadedBy.
  - intros [= <- _ _ _]. apply loadedBy_empty.
Qed.

Lemma resolve_sound (o : GetBuildLogsOptions) (tektonEnabled : bool)
      (filter : BuildPodInfoFilter) (c : Catalog) (args : list string) (picked : bool)
      (name suffix : string) (build : BaseBuildInfo) (s s' : State) :
  loadedBy tektonEnabled c →
  resolve w ns o tektonEnabled filter c args picked s = Returns (name, build, suffix) s' →
  head args = Some name
  ∧ downcasts tektonEnabled build
  ∧ name +:+ suffix = displayName build.
Proof.
  intros Hc. unfold resolve. destruct args as [|name0 rest]; [done|].
  destruct (lookupBuild c name0 "") as [build0 suffix0] eqn:Hlookup.
  intros ([[c1 build1] suffix1] & s1 & Hwait & Hret)%bind_Returns_inv.
  destruct build1 as [build1|]; [|done]. injection Hret as <- <- <- _.
  split; [done|].
  destruct (bool_decide (build0 = None) && negb picked && Wait o) eqn:Hcond.
  - apply bind_Returns_inv in Hwait as ([] & s2 & _ & Hretry).
    apply bind_Returns_inv in Hretry as ([v [err|]] & s3 & Hretry & Hret); [done|].
    injection Hret as -> _. unfold Retry in Hretry.
    assert (build0 = None) as ->.
    { apply andb_prop in Hcond as [[?%bool_decide_eq_true _]%andb_prop _]. done. }
    assert (suffix0 = "") as ->.
    { unfold lookupBuild in Hlookup.
      destruct (buildMap c !! name0); [done|].
      destruct (pipelineMap c !! name0); [done|]. by injection Hlookup. }
    refine (retryLoop_invariant
              (λ v : Resolution, v.1.2 = None ∧ v.2 = "")
              (λ v : Resolution, ∀ b, v.1.2 = Some b →
                         downcasts tektonEnabled b ∧ name0 +:+ v.2 = displayName b)
              _ _ _ _ _ _ _ _ _ _ Hretry build1 eq_refl); [| |done].
    + intros [[c2 b2] sfx2] s4 [[c3 b3] sfx3] e s5 [Hb2 Hsfx2]. simpl in *. subst.
      unfold reload. intros ([c4 [e4|]] & s6 & Hload & Hret)%bind_Returns_inv.
      * by injection Hret as <- <- <- _ _.
      * destruct (lookupBuild c4 name0 "") as [[b4|] sfx4] eqn:Hl4; [done|].
        apply bind_Returns_inv in Hret as (_ & s7 & _ & Hret).
        injection Hret as <- <- <- _ _. split; [done|].
        unfold lookupBuild in Hl4.
        destruct (buildMap c4 !! name0); [done|].
        destruct (pipelineMap c4 !! name0); [done|]. by injection Hl4.
    + intros [[c2 b2] sfx2] s4 [[c3 b3] sfx3] s5 [Hb2 Hsfx2]. simpl in *. subst.
      unfold reload. intros ([c4 [e4|]] & s6 & Hload & Hret)%bind_Returns_inv; [done|].
      destruct (lookupBuild c4 name0 "") as [[b4|] sfx4] eqn:Hl4.
      * injection Hret as <- <- <- _. intros b [= <-].
        eapply lookupBuild_loadedBy; [|done]. by eapply load_loadedBy.
      * apply bind_Returns_inv in Hret as (_ & s7 & _ & Hret). done.
  - injection Hwait as -> -> -> _. by eapply lookupBuild_loadedBy.
Qed.

End Resolution.

Lemma pick_then_resolve_sound
      (w : World) (ns : string) (o : GetBuildLogsOptions) (tektonEnabled : bool)
      (filter : BuildPodInfoFilter) (c : Catalog) (args : list string) (picked : bool)
      (name suffix : string) (build : BaseBuildInfo) (s s1 s2 : State) :
  pickPipeline w ns o tektonEnabled filter s = Returns (c, args, picked) s1 →
  resolve w ns o tektonEnabled filter c args picked s1 = Returns (name, build, suffix) s2 →
  name +:+ suffix = displayName build ∧ downcasts tektonEnabled build.
Proof.
  intros Hpick Hresolve. apply pickPipeline_loadedBy in Hpick.
  by destruct (resolve_sound w ns _ _ _ _ _ _ _ _ _ _ _ Hpick Hresolve) as (_ & ? & ?).
Qed.

(** X8: whenever the resolution of getProwBuildLog returns a build, by the
    picker or from the command line, at once or after waiting, the text
    name+suffix of the line "Build logs for" is the display name of that
    build (pipeline, " #", build number), and the build is of the
    implementation that the walk downcasts to. *)
Theorem resolved_build_matches_header
        (w : World) (ns : string) (o : GetBuildLogsOptions) (tektonEnabled : bool)
        (filter : BuildPodInfoFilter) (c : Catalog) (args : list string) (picked : bool)
        (name suffix : string) (build : BaseBuildInfo) (s s1 s2 : State) :
  pickPipeline w ns o tektonEnabled filter s = Returns (c, args, picked) s1 →
  resolve w ns o tektonEnabled filter c args picked s1 = Returns (name, build, suffix) s2 →
  name +:+ suffix = displayName build ∧ downcasts tektonEnabled build.
Proof. apply pick_then_resolve_sound. Qed.

Lemma resolved_build_matches_header_witness :
  "jx/demo/master" +:+ " #1"
  = displayName (IsBuildPodInfo (CreateBuildPodInfo lateBuildsWorld
                   (samplePod "jx-demo-master-1" ["git"; "build"] PodSucceeded [])))
  ∧ downcasts false (IsBuildPodInfo (CreateBuildPodInfo lateBuildsWorld
                       (samplePod "jx-demo-master-1" ["git"; "build"] PodSucceeded []))).
Proof.
  apply (resolved_build_matches_header lateBuildsWorld "jx" (waitingOptions 300) false
           noFilter emptyCatalog ["jx/demo/master"] false "jx/demo/master" " #1"
           (IsBuildPodInfo (CreateBuildPodInfo lateBuildsWorld
              (samplePod "jx-demo-master-1" ["git"; "build"] PodSucceeded [])))
           initialState initialState
           {| tick := 5;
              trace := [InfoWaitingForPipeline "jx/demo/master";
                        CallGetBuildPods "jx"; Sleep 2;
                        CallGetBuildPods "jx"; Sleep 2;
                        CallGetBuildPods "jx"] |}).
  - reflexivity.
  - vm_compute; reflexivity.
Defined.

(** ** No panic *)

Lemma bind_Panics_inv {A B} (m : M A) (k : A → M B) (s s' : State) :
  bind m k s = Panics s' →
  m s = Panics s' ∨ ∃ a s1, m s = Returns a s1 ∧ k a s1 = Panics s'.
Proof.
  unfold bind. destruct (m s) as [a s1|e s1|s1|s1]; try done.
  - right. by exists a, s1.
  - intros [= <-]. by left.
Qed.

Lemma neverPanics_ret {A} (a : A) : neverPanics (ret a).
Proof. done. Qed.

Lemma neverPanics_fail {A} (e : Error) : neverPanics (fail (A:=A) e).
Proof. done. Qed.

Lemma neverPanics_diverge {A} : neverPanics (diverge (A:=A)).
Proof. done. Qed.

Lemma neverPanics_log (e : Event) : neverPanics (log e).
Proof. done. Qed.

Lemma neverPanics_call {A} (e : Event) (answer : nat → A) : neverPanics (call e answer).
Proof. done. Qed.

Lemma neverPanics_bind_post {A B} (P : A → Prop) (m : M A) (k : A → M B) :
  neverPanics m →
  (∀ s a s', m s = Returns a s' → P a) →
  (∀ a, P a → neverPanics (k a)) →
  neverPanics (bind m k).
Proof.
  intros Hm Hpost Hk s s' [Hpanic|(a & s1 & Hret & Hpanic)]%bind_Panics_inv.
  - by eapply Hm.
  - eapply Hk; [|done]. by eapply Hpost.
Qed.

Lemma neverPanics_bind {A B} (m : M A) (k : A → M B) :
  neverPanics m → (∀ a, neverPanics (k a)) → neverPanics (bind m k).
Proof.
  intros Hm Hk. apply (neverPanics_bind_post (λ _, True)); [done|done|].
  intros a _. apply Hk.
Qed.

Lemma panicsOnlyIn_never {A} (P : State → Prop) (m : M A) :
  neverPanics m → panicsOnlyIn P m.
Proof. intros Hm s s' Hpanic. by destruct (Hm s s'). Qed.

Lemma panicsOnlyIn_bind_post {A B} (P : State → Prop) (Q : A → Prop)
      (m : M A) (k : A → M B) :
  panicsOnlyIn P m →
  (∀ s a s', m s = Returns a s' → Q a) →
  (∀ a, Q a → panicsOnlyIn P (k a)) →
  panicsOnlyIn P (bind m k).
Proof.
  intros Hm Hpost Hk s s' [Hpanic|(a & s1 & Hret & Hpanic)]%bind_Panics_inv.
  - by eapply Hm.
  - eapply Hk; [|done]. by eapply Hpost.
Qed.

Lemma panicsOnlyIn_bind {A B} (P : State → Prop) (m : M A) (k : A → M B) :
  panicsOnlyIn P m → (∀ a, panicsOnlyIn P (k a)) → panicsOnlyIn P (bind m k).
Proof.
  intros Hm Hk. apply (panicsOnlyIn_bind_post P (λ _, True)); [done|done|].
  intros a _. apply Hk.
Qed.

Create HintDb panics.

#[local] Hint Resolve neverPanics_ret neverPanics_fail neverPanics_diverge
  neverPanics_log neverPanics_call : panics.

Ltac never_panics :=
  repeat first
    [ apply neverPanics_bind; [|intros ?]
    | solve [auto with panics]
    | progress case_match ].

Section NoPanic.

Context (w : World) (ns : string) (fuel : nat).

Lemma neverPanics_failureCheck (i : nat) (pod : Pod) : neverPanics (failureCheck i pod).
Proof.
  intros s s' Hpanic. destruct (failureCheck_Returns i pod s) as [s1 Hreturns].
  by rewrite Hreturns in Hpanic.
Qed.

Lemma neverPanics_pollUntilStarted (n : nat) (pod : Pod) (idx : nat) :
  neverPanics (pollUntilStarted w ns n pod idx).
Proof. induction n as [|n IH]; simpl; unfold sleep; never_panics. Qed.

Lemma neverPanics_wait (pod : Pod) (idx : nat) :
  neverPanics (waitForInitContainerToStart w ns fuel pod idx).
Proof.
  unfold waitForInitContainerToStart. never_panics.
  apply neverPanics_pollUntilStarted.
Qed.

Lemma neverPanics_tailLogs (pod container : string) :
  neverPanics (tailLogs w ns pod container).
Proof. unfold tailLogs. never_panics. Qed.

Lemma panicsOnlyIn_visitContainer (getLog : Pod → Container → M unit)
      (podName : string) (i : nat) (ic : Container) :
  (∀ pod, neverPanics (getLog pod ic)) →
  panicsOnlyIn (nilPodOfFailedGet w ns) (visitContainer w ns fuel getLog podName i ic).
Proof.
  intros HgetLog s s'. unfold visitContainer, bind at 1, call.
  fold (after (CallPodsGet ns podName) s).
  destruct (Pods_Get w (tick s) ns podName) as [pod|err] eqn:Hget.
  - intros Hpanic. exfalso. revert Hpanic.
    apply neverPanics_bind; [apply neverPanics_failureCheck|]. intros _.
    apply neverPanics_bind; [apply neverPanics_wait|]. intros p. apply HgetLog.
  - destruct (Pods_Get_failed w (tick s) ns podName) eqn:Hfailed; [done|].
    intros [= <-]. exists (tick s), podName, err. split_and!; try done.
    simpl. by rewrite last_snoc.
Qed.

Lemma panicsOnlyIn_visitContainers (getLog : Pod → Container → M unit)
      (podName : string) (i : nat) (ics : list Container) :
  (∀ pod ic, neverPanics (getLog pod ic)) →
  panicsOnlyIn (nilPodOfFailedGet w ns) (visitContainers w ns fuel getLog podName i ics).
Proof.
  intros HgetLog. revert i. induction ics as [|ic ics IH]; intros i; simpl.
  { apply panicsOnlyIn_never. auto with panics. }
  apply panicsOnlyIn_bind; [|intros _; apply IH].
  apply panicsOnlyIn_visitContainer. intros pod. apply HgetLog.
Qed.

Lemma panicsOnlyIn_visitBuildPod (name suffix : string) (b : BuildPodInfo) :
  panicsOnlyIn (nilPodOfFailedGet w ns) (visitBuildPod w ns fuel name suffix b).
Proof.
  unfold visitBuildPod.
  destruct (BuildPodInfo_Pod b) as [pod|]; [|apply panicsOnlyIn_never; auto with panics].
  destruct (length (Spec_InitContainers pod) <=? 0)%nat;
    [apply panicsOnlyIn_never; auto with panics|].
  apply panicsOnlyIn_bind; [apply panicsOnlyIn_never; auto with panics|]. intros _.
  apply panicsOnlyIn_visitContainers. intros p ic. unfold getPodLog.
  apply neverPanics_bind; [auto with panics|]. intros _. apply neverPanics_tailLogs.
Qed.

Lemma neverPanics_retryLoop {V} (f : V → M (V * option Error))
      (more elapsed : nat) (v : V) :
  (∀ v, neverPanics (f v)) → neverPanics (retryLoop w more elapsed f v).
Proof.
  intros Hf. revert elapsed v. induction more as [|more IH]; intros elapsed v; simpl;
    (apply neverPanics_bind; [apply Hf|]); intros [v' [err|]]; unfold sleep;
    never_panics.
Qed.

Lemma neverPanics_awaitStagePod (maxElapsedTime : nat) (pipelineRun : string)
      (stage : StageInfo) :
  neverPanics (awaitStagePod w ns maxElapsedTime pipelineRun stage).
Proof.
  unfold awaitStagePod, Retry. destruct (Stage_Pod stage); [auto with panics|].
  apply neverPanics_bind.
  - apply neverPanics_retryLoop. intros v. unfold setPodsForStage. never_panics.
  - intros [v [err|]]; auto with panics.
Qed.

Lemma panicsOnlyIn_visitStages (maxElapsedTime : nat) (name suffix pipelineRun : string)
      (stages : list StageInfo) :
  panicsOnlyIn (nilPodOfFailedGet w ns)
               (visitStages w ns fuel maxElapsedTime name suffix pipelineRun stages).
Proof.
  induction stages as [|stage stages IH]; simpl.
  { apply panicsOnlyIn_never. auto with panics. }
  apply panicsOnlyIn_bind; [|intros _; apply IH]. unfold visitStage.
  apply (panicsOnlyIn_bind_post _ (λ stage', is_Some (Stage_Pod stage'))).
  - apply panicsOnlyIn_never, neverPanics_awaitStagePod.
  - intros s stage' s' Hawait.
    by destruct (awaitStagePod_resolved _ _ _ _ _ _ _ _ Hawait) as (_ & _ & ? & _).
  - intros stage' [pod Hpod]. rewrite Hpod.
    destruct (length (Spec_InitContainers pod) <=? 0)%nat;
      [apply panicsOnlyIn_never; auto with panics|].
    apply panicsOnlyIn_visitContainers. intros p ic. unfold getStageLog.
    apply neverPanics_bind; [auto with panics|]. intros _. apply neverPanics_tailLogs.
Qed.

Lemma neverPanics_load (tektonEnabled : bool) (filter : BuildPodInfoFilter) :
  neverPanics (load w ns tektonEnabled filter).
Proof.
  unfold load. destruct tektonEnabled.
  - unfold loadPipelines. apply neverPanics_bind; [auto with panics|].
    intros [items|err]; [|never_panics].
    apply neverPanics_bind; [|intros ?; never_panics].
    generalize (@nil PipelineRunInfo). induction items as [|name items IH]; intros acc;
      simpl; [auto with panics|].
    apply neverPanics_bind; [auto with panics|].
    intros [[pri|]|err]; [apply IH|apply IH|never_panics].
  - unfold loadBuilds. never_panics.
Qed.

Lemma neverPanics_pickPipeline (o : GetBuildLogsOptions) (tektonEnabled : bool)
      (filter : BuildPodInfoFilter) :
  neverPanics (pickPipeline w ns o tektonEnabled filter).
Proof.
  unfold pickPipeline. destruct (Args o); [|auto with panics].
  destruct (BatchMode o); [auto with panics|].
  apply neverPanics_bind; [apply neverPanics_load|].
  intros [c [err|]]; never_panics.
Qed.

Lemma neverPanics_resolve (o : GetBuildLogsOptions) (tektonEnabled : bool)
      (filter : BuildPodInfoFilter) (c : Catalog) (args : list string) (picked : bool) :
  neverPanics (resolve w ns o tektonEnabled filter c args picked).
Proof.
  unfold resolve. destruct args as [|name rest]; [auto with panics|].
  destruct (lookupBuild c name "") as [build suffix].
  apply neverPanics_bind.
  - destruct (bool_decide (build = None) && negb picked && Wait o); [|auto with panics].
    apply neverPanics_bind; [auto with panics|]. intros _.
    apply neverPanics_bind.
    + unfold Retry. apply neverPanics_retryLoop. intros [[c0 b0] sfx0]. unfold reload.
      apply neverPanics_bind; [apply neverPanics_load|].
      intros [c1 [err|]]; never_panics.
    + intros [v [err|]]; auto with panics.
  - intros [[c1 [b1|]] sfx1]; auto with panics.
Qed.

End NoPanic.

(** X9: the only run-time panic of getProwBuildLog is the [pod.Name] of
    the error message of lines 344 and 381: it panics only right after a
    read of a pod that failed and gave back a nil pod beside the error.
    The read of the status before the current one, the pod of a stage that
    was waited for (util.Retry gives no error only after an attempt that
    gave none), and the downcast of the build found never panic.  With a
    client that gives back a pod with every error there is no panic. *)
Theorem getProwBuildLog_panics_only_on_nil_pod
        (w : World) (ns : string) (fuel : nat) (o : GetBuildLogsOptions)
        (tektonEnabled : bool) :
  (∀ s s', getProwBuildLog w ns fuel o tektonEnabled s = Panics s' →
           nilPodOfFailedGet w ns s')
  ∧ ((∀ t podName err, Pods_Get w t ns podName = Failure err →
                       is_Some (Pods_Get_failed w t ns podName)) →
     neverPanics (getProwBuildLog w ns fuel o tektonEnabled)).
Proof.
  assert (panicsOnlyIn (nilPodOfFailedGet w ns)
                       (getProwBuildLog w ns fuel o tektonEnabled)) as Honly.
  { intros s s'. unfold getProwBuildLog.
    intros [Hpanic|(filter & s1 & _ & Hpanic)]%bind_Panics_inv.
    { exfalso. revert Hpanic. unfold currentFolderFilter.
      destruct (CurrentFolder o); [|done].
      apply neverPanics_bind; [auto with panics|]. intros [[? ?]|?]; auto with panics. }
    apply bind_Panics_inv in Hpanic
        as [Hpanic|([[c args] picked] & s2 & Hpick & Hpanic)].
    { exfalso. by eapply neverPanics_pickPipeline. }
    apply bind_Panics_inv in Hpanic
        as [Hpanic|([[name build] suffix] & s3 & Hresolve & Hpanic)].
    { exfalso. by eapply neverPanics_resolve. }
    destruct (pick_then_resolve_sound w ns _ _ _ _ _ _ _ _ _ _ _ _
                Hpick Hresolve) as [_ Hcast].
    destruct tektonEnabled, build as [b|pr]; simpl in Hcast; try done.
    - apply bind_Panics_inv in Hpanic as [Hpanic|(_ & s4 & _ & Hpanic)]; [done|].
      by eapply panicsOnlyIn_visitStages.
    - by eapply panicsOnlyIn_visitBuildPod. }
  split; [exact Honly|].
  intros Hclient s s' Hpanic.
  destruct (Honly s s' Hpanic) as (t & podName & err & _ & _ & Hget & Hnil).
  destruct (Hclient t podName err Hget) as [pod Hpod]. congruence.
Qed.

Lemma getProwBuildLog_panics_only_on_nil_pod_witness :
  (getProwBuildLog fakeClientWorld "jx" 5 (interactiveOptions false) false initialState
   = Panics {| tick := 3;
               trace := [CallGetBuildPods "jx";
                         CallPickName ["jx/demo/master #2"; "jx/demo/master #1"]
                                      "jx/demo/master #1";
                         InfoBuildLogsFor "jx/demo/master #2";
                         CallPodsGet "jx" "jx-demo-master-2"] |}
   ∧ nilPodOfFailedGet fakeClientWorld "jx"
       {| tick := 3;
          trace := [CallGetBuildPods "jx";
                    CallPickName ["jx/demo/master #2"; "jx/demo/master #1"]
                                 "jx/demo/master #1";
                    InfoBuildLogsFor "jx/demo/master #2";
                    CallPodsGet "jx" "jx-demo-master-2"] |})
  ∧ getProwBuildLog pickFirstWorld "jx" 5 (interactiveOptions false) false initialState
    = Fails (FailedToFindPod "" (ClusterError "pod not found"))
        {| tick := 3;
           trace := [CallGetBuildPods "jx";
                     CallPickName ["jx/demo/master #2"; "jx/demo/master #1"]
                                  "jx/demo/master #1";
                     InfoBuildLogsFor "jx/demo/master #2";
                     CallPodsGet "jx" "jx-demo-master-2"] |}
  ∧ neverPanics (getProwBuildLog pickFirstWorld "jx" 5 (interactiveOptions false) false).
Proof.
  assert (getProwBuildLog fakeClientWorld "jx" 5 (interactiveOptions false) false
                          initialState
          = Panics {| tick := 3;
                      trace := [CallGetBuildPods "jx";
                                CallPickName ["jx/demo/master #2"; "jx/demo/master #1"]
                                             "jx/demo/master #1";
                                InfoBuildLogsFor "jx/demo/master #2";
                                CallPodsGet "jx" "jx-demo-master-2"] |}) as Hpanic.
  { vm_compute; reflexivity. }
  split; [split; [exact Hpanic|]|split; [vm_compute; reflexivity|]].
  - exact (proj1 (getProwBuildLog_panics_only_on_nil_pod fakeClientWorld "jx" 5
                    (interactiveOptions false) false) _ _ Hpanic).
  - apply (proj2 (getProwBuildLog_panics_only_on_nil_pod pickFirstWorld "jx" 5
                    (interactiveOptions false) false)).
    intros t podName err _. by eexists.
Defined.

(** ** The command from its entry *)

(** X10: two ways in which getProwBuildLog fails before it asks the cluster
    for anything.  In batch mode without argument it fails for the missing
    argument.  With a name on the command line and without --wait it fails
    with "No Pipeline found" over an empty list of values: nothing was
    loaded, so the name is in neither index, whatever the cluster holds. *)
Theorem getProwBuildLog_fails_without_load
        (w : World) (ns : string) (fuel : nat) (o : GetBuildLogsOptions)
        (tektonEnabled : bool) (s : State) :
  CurrentFolder o = false →
  (Args o = [] → BatchMode o = true →
   getProwBuildLog w ns fuel o tektonEnabled s = Fails (MissingArgument "pipeline") s)
  ∧ (∀ name rest,
        Args o = name :: rest → Wait o = false →
        getProwBuildLog w ns fuel o tektonEnabled s = Fails (NoPipelineFound name []) s).
Proof.
  intros Hfolder. split.
  - intros Hargs Hbatch.
    unfold getProwBuildLog, currentFolderFilter, pickPipeline, bind, ret, fail.
    by rewrite Hfolder, Hargs, Hbatch.
  - intros name rest Hargs Hwait. unfold getProwBuildLog.
    rewrite (bind_Returns _ _ s s (BuildFilter o));
      [|unfold currentFolderFilter; by rewrite Hfolder].
    rewrite (bind_Returns _ _ s s (emptyCatalog, name :: rest, false));
      [|unfold pickPipeline; by rewrite Hargs].
    apply bind_Fails. unfold resolve.
    rewrite (lookupBuild_None emptyCatalog name "") by apply lookup_empty.
    by rewrite Hwait, andb_false_r.
Qed.

Lemma getProwBuildLog_fails_without_load_witness :
  getProwBuildLog twoBuildsWorld "jx" 5
    {| Args := ["jx/demo/master #2"]; BatchMode := true; Wait := false;
       WaitForPipelineDuration := 300; CurrentFolder := false; BuildFilter := noFilter |}
    false initialState
  = Fails (NoPipelineFound "jx/demo/master #2" []) initialState
  ∧ displayName (CreateBuildPodInfo twoBuildsWorld
                   (samplePod "jx-demo-master-2" ["git"; "build"] PodRunning []))
    = "jx/demo/master #2".
Proof.
  split; [|reflexivity].
  by apply (proj2 (getProwBuildLog_fails_without_load twoBuildsWorld "jx" 5
                     {| Args := ["jx/demo/master #2"]; BatchMode := true; Wait := false;
                        WaitForPipelineDuration := 300; CurrentFolder := false;
                        BuildFilter := noFilter |}
                     false initialState eq_refl)
                  "jx/demo/master #2" []).
Defined.

(** X11: without argument and not in batch mode, the catalog is loaded once
    and the picker is asked with its names and default name.  A name of the
    list resolves at once, with an empty suffix, to the build of the exact
    index that has this display name; a name in neither index fails with
    "No Pipeline found" over the names.  Neither case waits, with or
    without --wait. *)
Theorem picked_name_resolves_without_waiting
        (w : World) (ns : string) (o : GetBuildLogsOptions) (tektonEnabled : bool)
        (filter : BuildPodInfoFilter) (c : Catalog) (name : string) (s s1 : State) :
  Args o = [] →
  BatchMode o = false →
  load w ns tektonEnabled filter s = Returns (c, None) s1 →
  PickNameWithDefault w (tick s1) (names c) (defaultName c) = Success name →
  pickPipeline w ns o tektonEnabled filter s
  = Returns (c, [name], true) (after (CallPickName (names c) (defaultName c)) s1)
  ∧ (name ∈ names c →
     ∃ build,
       buildMap c !! name = Some build
       ∧ displayName build = name
       ∧ ∀ s2, resolve w ns o tektonEnabled filter c [name] true s2
               = Returns (name, build, "") s2)
  ∧ (buildMap c !! name = None → pipelineMap c !! name = None →
     ∀ s2, resolve w ns o tektonEnabled filter c [name] true s2
           = Fails (NoPipelineFound name (names c)) s2).
Proof.
  intros Hargs Hbatch Hload Hpick. split; [|split].
  - unfold pickPipeline. rewrite Hargs, Hbatch.
    rewrite (bind_Returns _ _ _ _ _ Hload). unfold bind, call. by rewrite Hpick.
  - intros Hname.
    assert (∃ build, buildMap c !! name = Some build) as [build Hbuild].
    { pose proof (load_loadedBy _ _ _ _ _ _ _ _ Hload) as Hc.
      unfold loadedBy in Hc.
      destruct tektonEnabled; destruct Hc as [l ->];
        apply names_iff_exact_index in Hname as [build Hbuild]; by exists build. }
    assert (lookupBuild c name "" = (Some build, "")) as Hlookup.
    { unfold lookupBuild. by rewrite Hbuild. }
    exists build. split; [done|]. split.
    + destruct (lookupBuild_loadedBy tektonEnabled c name "" build) as [_ Heq];
        [by eapply load_loadedBy|done|].
      by rewrite string_app_nil_r in Heq.
    + intros s2. unfold resolve. by rewrite Hlookup.
  - intros Hexact Hlatest s2. unfold resolve.
    by rewrite (lookupBuild_None _ _ _ Hexact Hlatest).
Qed.

Lemma picked_name_resolves_without_waiting_witness :
  pickPipeline pickFirstWorld "jx" (interactiveOptions true) false noFilter initialState
  = Returns (indexBuilds (SortBuildPodInfos
               (collectBuildInfos pickFirstWorld noFilter twoBuildPods)),
             ["jx/demo/master #2"], true)
      {| tick := 2;
         trace := [CallGetBuildPods "jx";
                   CallPickName ["jx/demo/master #2"; "jx/demo/master #1"]
                                "jx/demo/master #1"] |}.
Proof.
  assert (load pickFirstWorld "jx" false noFilter initialState
          = Returns (indexBuilds (SortBuildPodInfos
                       (collectBuildInfos pickFirstWorld noFilter twoBuildPods)), None)
                    (after (CallGetBuildPods "jx") initialState)) as Hload.
  { vm_compute; reflexivity. }
  assert (PickNameWithDefault pickFirstWorld
            (tick (after (CallGetBuildPods "jx") initialState))
            (names (indexBuilds (SortBuildPodInfos
                      (collectBuildInfos pickFirstWorld noFilter twoBuildPods))))
            (defaultName (indexBuilds (SortBuildPodInfos
                      (collectBuildInfos pickFirstWorld noFilter twoBuildPods))))
          = Success "jx/demo/master #2") as Hpick.
  { vm_compute; reflexivity. }
  etrans.
  { apply (proj1 (picked_name_resolves_without_waiting pickFirstWorld "jx"
                    (interactiveOptions true) false noFilter _ _ _ _
                    eq_refl eq_refl Hload Hpick)). }
  vm_compute; reflexivity.
Defined.

(** ** The Jenkins path *)

Lemma substring_0_length (s : string) : String.substring 0 (String.length s) s = s.
Proof. induction s as [|a s IH]; [done|]. simpl. by rewrite IH. Qed.

Lemma substring_app_r (p s : string) :
  String.substring (String.length p) (String.length s) (p +:+ s) = s.
Proof. induction p as [|a p IH]; [apply substring_0_length|apply IH]. Qed.

Lemma length_string_app (p s : string) :
  String.length (p +:+ s) = (String.length p + String.length s)%nat.
Proof.
  induction p as [|a p IH]; [done|].
  change (S (String.length (p +:+ s)) = S (String.length p + String.length s)).
  by rewrite IH.
Qed.

Lemma substring_split (s : string) (k : nat) :
  (k ≤ String.length s)%nat →
  s = String.substring 0 k s +:+ String.substring k (String.length s - k) s.
Proof.
  revert k. induction s as [|a s IH]; intros k Hk.
  - by destruct k.
  - destruct k as [|k].
    + change (String a s = String.substring 0 (String.length (String a s)) (String a s)).
      by rewrite substring_0_length.
    + simpl in Hk.
      change (String a s
              = String a (String.substring 0 k s
                            +:+ String.substring k (String.length s - k) s)).
      rewrite <-IH by lia. done.
Qed.

Lemma HasSuffix_spec (s suffix : string) :
  HasSuffix s suffix = true ↔ ∃ p, s = p +:+ suffix.
Proof.
  unfold HasSuffix. rewrite andb_true_iff, Nat.leb_le, String.eqb_eq. split.
  - intros [Hlen Hsub].
    exists (String.substring 0 (String.length s - String.length suffix) s).
    pose proof (substring_split s (String.length s - String.length suffix)) as Hsplit.
    replace (String.length s - (String.length s - String.length suffix))%nat
      with (String.length suffix) in Hsplit by lia.
    rewrite Hsub in Hsplit. apply Hsplit. lia.
  - intros [p ->]. rewrite length_string_app. split; [lia|].
    replace (String.length p + String.length suffix - String.length suffix)%nat
      with (String.length p) by lia.
    apply substring_app_r.
Qed.

Lemma foldl_snoc_id {A} (l acc : list A) :
  foldl (λ names k, names ++ [k]) acc l = acc ++ l.
Proof.
  revert acc. induction l as [|x l IH]; intros acc; simpl; [by rewrite app_nil_r|].
  by rewrite IH, <-app_assoc.
Qed.

Lemma jobNames_Permutation (ranged : list string) : jobNames ranged ≡ₚ ranged.
Proof.
  unfold jobNames, sortStrings. by rewrite merge_sort_Permutation, foldl_snoc_id.
Qed.

Lemma jobNames_StronglySorted (ranged : list string) :
  StronglySorted String.le (jobNames ranged).
Proof. unfold jobNames, sortStrings. apply StronglySorted_merge_sort; apply _. Qed.

(** X12: the names offered by the Jenkins path are the keys of the job
    map in increasing order, each once, and they are the same list in
    whatever order the map is ranged. *)
Theorem jobNames_independent_of_range_order
        (jobMap : gmap string Job) (ranged ranged' : list string) :
  ranged ≡ₚ (map_to_list jobMap).*1 →
  ranged' ≡ₚ (map_to_list jobMap).*1 →
  jobNames ranged = jobNames ranged'
  ∧ StronglySorted String.le (jobNames ranged)
  ∧ NoDup (jobNames ranged)
  ∧ ∀ k, k ∈ jobNames ranged ↔ is_Some (jobMap !! k).
Proof.
  intros Hranged Hranged'. split; [|split; [|split]].
  - apply (StronglySorted_unique String.le); try apply jobNames_StronglySorted.
    by rewrite !jobNames_Permutation, Hranged, Hranged'.
  - apply jobNames_StronglySorted.
  - rewrite jobNames_Permutation, Hranged. apply NoDup_fst_map_to_list.
  - intros k. rewrite jobNames_Permutation, Hranged, list_elem_of_fmap. split.
    + intros ([k' job] & -> & Hjob%elem_of_map_to_list). by exists job.
    + intros [job Hjob]. exists (k, job). split; [done|]. by apply elem_of_map_to_list.
Qed.

Lemma jobNames_independent_of_range_order_witness :
  jobNames ["jx/demo/master"; "jx/demo/PR-1"; "jx/app/master"]
  = jobNames ["jx/app/master"; "jx/demo/master"; "jx/demo/PR-1"]
  ∧ jobNames ["jx/demo/master"; "jx/demo/PR-1"; "jx/app/master"]
    = ["jx/app/master"; "jx/demo/PR-1"; "jx/demo/master"].
Proof.
  assert ((map_to_list sampleJobs).*1
          = ["jx/app/master"; "jx/demo/master"; "jx/demo/PR-1"]) as Hkeys.
  { vm_compute; reflexivity. }
  split; [|reflexivity].
  apply (jobNames_independent_of_range_order sampleJobs); rewrite Hkeys.
  - symmetry. apply (Permutation_cons_append ["jx/demo/master"; "jx/demo/PR-1"]).
  - done.
Defined.

Lemma masterDefault_spec (names : list string) :
  (∃ pre post,
      names = pre ++ masterDefault names :: post
      ∧ HasSuffix (masterDefault names) "/master" = true
      ∧ Forall (λ n, HasSuffix n "/master" = false) pre)
  ∨ (masterDefault names = "" ∧ Forall (λ n, HasSuffix n "/master" = false) names).
Proof.
  induction names as [|n names IH]; [by right|]. simpl.
  destruct (HasSuffix n "/master") eqn:Hn.
  - left. by exists [], names.
  - destruct IH as [(pre & post & Hnames & Hsuffix & Hpre)|[Hempty Hnone]].
    + left. exists (n :: pre), post. split; [by rewrite Hnames at 1|].
      split; [done|]. by constructor.
    + right. split; [done|]. by constructor.
Qed.

(** X13: the default name offered by the Jenkins path is the least job
    name, in byte order, that ends in "/master"; when no job name ends in
    "/master" it is empty. *)
Theorem jenkins_default_is_least_master (ranged : list string) :
  (∀ n, n ∈ jobNames ranged → (∃ p, n = p +:+ "/master") →
        masterDefault (jobNames ranged) ∈ jobNames ranged
        ∧ (∃ p, masterDefault (jobNames ranged) = p +:+ "/master")
        ∧ String.le (masterDefault (jobNames ranged)) n)
  ∧ ((∀ n, n ∈ jobNames ranged → ¬ ∃ p, n = p +:+ "/master") →
     masterDefault (jobNames ranged) = "").
Proof.
  pose proof (jobNames_StronglySorted ranged) as Hsorted.
  destruct (masterDefault_spec (jobNames ranged))
    as [(pre & post & Hnames & Hsuffix & Hpre)|[Hempty Hnone]].
  - split.
    + intros n Hn Hmaster%HasSuffix_spec. split; [|split].
      * rewrite Hnames at 2. set_solver.
      * by apply HasSuffix_spec.
      * rewrite Hnames in Hn, Hsorted.
        apply elem_of_app in Hn as [Hn|Hn].
        { rewrite Forall_forall in Hpre. rewrite (Hpre n Hn) in Hmaster. done. }
        apply StronglySorted_app_1_r in Hsorted.
        apply elem_of_cons in Hn as [->|Hn]; [done|].
        inversion Hsorted as [|? ? _ Hall]; subst.
        rewrite Forall_forall in Hall. by apply Hall.
    + intros Hnone. exfalso. apply (Hnone (masterDefault (jobNames ranged))).
      * rewrite Hnames at 2. set_solver.
      * by apply HasSuffix_spec.
  - split; [|done]. intros n Hn Hmaster%HasSuffix_spec.
    rewrite Forall_forall in Hnone. rewrite (Hnone n Hn) in Hmaster. done.
Qed.

Lemma jenkins_default_is_least_master_witness :
  masterDefault (jobNames ["jx/demo/master"; "jx/demo/PR-1"; "jx/app/master"])
  = "jx/app/master"
  ∧ String.le (masterDefault (jobNames ["jx/demo/master"; "jx/demo/PR-1"; "jx/app/master"]))
              "jx/demo/master".
Proof.
  split; [reflexivity|].
  apply (proj1 (jenkins_default_is_least_master
                  ["jx/demo/master"; "jx/demo/PR-1"; "jx/app/master"])
               "jx/demo/master").
  - vm_compute. apply list_elem_of_In. simpl. tauto.
  - by exists "jx/demo".
Defined.

(** X14: how the Jenkins path of Run chooses the pipeline.  With arguments
    it is the first one, and neither the job map nor the picker is looked
    at.  Without arguments, batch mode fails with "No pipeline chosen", and
    otherwise an empty job map fails with "No pipelines have been built!"
    before the picker is asked; with jobs, the picker is asked with the
    sorted names and the default, and its answer is the choice. *)
Theorem chooseJenkinsPipeline_cases
        (batchMode : bool)
        (getJobMap : JenkinsError + gmap string Job * list string)
        (pick : list string → string → JenkinsError + string) :
  (∀ name rest, chooseJenkinsPipeline (name :: rest) batchMode getJobMap pick = inr name)
  ∧ (batchMode = true → chooseJenkinsPipeline [] batchMode getJobMap pick
                        = inl NoPipelineChosenYet)
  ∧ (∀ jobMap ranged,
        batchMode = false →
        getJobMap = inr (jobMap, ranged) →
        ranged ≡ₚ (map_to_list jobMap).*1 →
        chooseJenkinsPipeline [] batchMode getJobMap pick
        = if decide (jobMap = ∅) then inl NoPipelinesBuilt
          else pick (jobNames ranged) (masterDefault (jobNames ranged))).
Proof.
  split; [|split].
  - intros name rest. unfold chooseJenkinsPipeline. simpl.
    by rewrite andb_false_r.
  - intros ->. done.
  - intros jobMap ranged -> -> Hranged. unfold chooseJenkinsPipeline. simpl.
    case_decide as Hempty.
    + subst jobMap. rewrite map_to_list_empty in Hranged.
      apply Permutation_nil_r in Hranged as ->. done.
    + destruct (jobNames ranged) as [|n names] eqn:Hnames.
      * exfalso. apply Hempty. apply map_to_list_empty_iff.
        pose proof (Permutation_length (jobNames_Permutation ranged)) as Hlen'.
        rewrite Hnames in Hlen'. destruct ranged; [|done].
        apply Permutation_nil_l in Hranged. symmetry in Hranged.
        by apply fmap_nil_inv in Hranged.
      * simpl. by destruct (pick _ _).
Qed.

Lemma chooseJenkinsPipeline_cases_witness :
  chooseJenkinsPipeline [] false
    (inr (sampleJobs, ["jx/app/master"; "jx/demo/master"; "jx/demo/PR-1"]))
    (λ names default, inr default)
  = inr "jx/app/master".
Proof.
  etrans.
  { apply (proj2 (proj2 (chooseJenkinsPipeline_cases false
                    (inr (sampleJobs, ["jx/app/master"; "jx/demo/master"; "jx/demo/PR-1"]))
                    (λ names default, inr default)))
                 sampleJobs ["jx/app/master"; "jx/demo/master"; "jx/demo/PR-1"]).
    - reflexivity.
    - reflexivity.
    - by vm_compute. }
  vm_compute; reflexivity.
Defined.

Section JenkinsBuilds.

Context (switchJenkinsBaseURL : string → string → string).

(** X15: when getLastJenkinsBuild, without --wait, returns without error,
    the client was created, the job of that name is in the job map with a
    URL, the client was asked for the build of the given number when that
    is positive and for the last build otherwise, with the job's URL moved
    to the base URL of the client, the build it answered has a URL, and the
    build returned is that build with its URL moved to the base URL. *)
Theorem getLastJenkinsBuild_success
        (client : JenkinsError + JenkinsAnswers) (name : string) (buildNumber : Z)
        (result : JenkinsBuild) :
  getLastJenkinsBuildOnce switchJenkinsBaseURL client name buildNumber = (result, None) →
  ∃ a jobMap job answered,
    client = inr a
    ∧ Answer_getJobMap a = inr jobMap
    ∧ jobMap !! name = Some job
    ∧ Job_Url job ≠ ""
    ∧ (if decide (0 < buildNumber)
       then Answer_GetBuild a
       else λ job _, Answer_GetLastBuild a job)
        {| Job_Name := Job_Name job;
           Job_Url := switchJenkinsBaseURL (Job_Url job) (Answer_BaseURL a) |}
        buildNumber
      = (answered, None)
    ∧ JenkinsBuild_Url answered ≠ ""
    ∧ result = {| JenkinsBuild_Number := JenkinsBuild_Number answered;
                  JenkinsBuild_Url :=
                    switchJenkinsBaseURL (JenkinsBuild_Url answered) (Answer_BaseURL a) |}.
Proof.
  unfold getLastJenkinsBuildOnce. destruct client as [err|a]; [done|].
  unfold lastBuildAttempt.
  destruct (Answer_getJobMap a) as [err|jobMap] eqn:HjobMap; [done|].
  destruct (jobMap !! name) as [job|] eqn:Hjob; simpl; [|done].
  destruct (String.eqb_spec (Job_Url job) "") as [|Hurl]; [done|].
  intros Hresult. exists a, jobMap, job.
  destruct (Z.ltb_spec 0 buildNumber) as [Hpos|Hnonpos].
  - rewrite decide_True by done.
    destruct (Answer_GetBuild a _ buildNumber) as [answered [err|]]; [done|].
    destruct (String.eqb_spec (JenkinsBuild_Url answered) "") as [|Hbuild]; [done|].
    exists answered. by injection Hresult as <-.
  - rewrite decide_False by lia.
    destruct (Answer_GetLastBuild a _) as [answered [err|]]; [done|].
    destruct (String.eqb_spec (JenkinsBuild_Url answered) "") as [|Hbuild]; [done|].
    exists answered. by injection Hresult as <-.
Qed.

(** X16: for a name that is not in the job map, or whose job has no URL,
    the closure of getLastJenkinsBuild fails with "No Job exists yet",
    leaves [last] as it was, and does not depend on what the client would
    answer; a build number that is zero or negative asks for the last
    build, whatever GetBuild would answer, and a positive one does not
    depend on GetLastBuild. *)
Theorem lastBuildAttempt_unknown_job
        (a : JenkinsAnswers) (jobMap : gmap string Job) (name : string)
        (buildNumber : Z) (last : JenkinsBuild) :
  Answer_getJobMap a = inr jobMap →
  (Job_Url (default zeroJob (jobMap !! name)) = "" →
   lastBuildAttempt switchJenkinsBaseURL a name buildNumber last
   = (last, Some (NoJobExists name)))
  ∧ (∀ getBuild getLastBuild,
        lastBuildAttempt switchJenkinsBaseURL a name buildNumber last
        = lastBuildAttempt switchJenkinsBaseURL
            {| Answer_getJobMap := Answer_getJobMap a;
               Answer_BaseURL := Answer_BaseURL a;
               Answer_GetBuild :=
                 if decide (0 < buildNumber) then Answer_GetBuild a else getBuild;
               Answer_GetLastBuild :=
                 if decide (0 < buildNumber) then getLastBuild else Answer_GetLastBuild a |}
            name buildNumber last).
Proof.
  intros HjobMap. split.
  - intros Hurl. unfold lastBuildAttempt. rewrite HjobMap, Hurl. done.
  - intros getBuild getLastBuild. unfold lastBuildAttempt. simpl. rewrite HjobMap.
    destruct (String.eqb (Job_Url (default zeroJob (jobMap !! name))) ""); [done|].
    destruct (Z.ltb_spec 0 buildNumber) as [Hpos|Hnonpos].
    + by rewrite decide_True.
    + by rewrite decide_False by lia.
Qed.

End JenkinsBuilds.

Lemma getLastJenkinsBuild_success_witness :
  getLastJenkinsBuildOnce sampleSwitch (inr sampleAnswers) "jx/demo/master" 0
  = ({| JenkinsBuild_Number := 7;
        JenkinsBuild_Url :=
          "https://jenkins.example.com|https://jenkins.example.com|http://jenkins/job/demo/master/7" |},
     None)
  ∧ ∃ a jobMap job answered,
      (inr sampleAnswers : JenkinsError + JenkinsAnswers) = inr a
      ∧ Answer_getJobMap a = inr jobMap
      ∧ jobMap !! "jx/demo/master" = Some job
      ∧ Job_Url job ≠ ""
      ∧ (if decide (0 < 0)
         then Answer_GetBuild a
         else λ job _, Answer_GetLastBuild a job)
          {| Job_Name := Job_Name job;
             Job_Url := sampleSwitch (Job_Url job) (Answer_BaseURL a) |}
          0
        = (answered, None)
      ∧ JenkinsBuild_Url answered ≠ ""
      ∧ {| JenkinsBuild_Number := 7;
           JenkinsBuild_Url :=
             "https://jenkins.example.com|https://jenkins.example.com|http://jenkins/job/demo/master/7" |}
        = {| JenkinsBuild_Number := JenkinsBuild_Number answered;
             JenkinsBuild_Url :=
               sampleSwitch (JenkinsBuild_Url answered) (Answer_BaseURL a) |}.
Proof.
  split; [vm_compute; reflexivity|].
  apply (getLastJenkinsBuild_success sampleSwitch (inr sampleAnswers) "jx/demo/master" 0).
  vm_compute; reflexivity.
Defined.

Lemma lastBuildAttempt_unknown_job_witness :
  lastBuildAttempt sampleSwitch sampleAnswers "jx/demo/PR-2" 3 zeroBuild
  = (zeroBuild, Some (NoJobExists "jx/demo/PR-2")).
Proof.
  apply (proj1 (lastBuildAttempt_unknown_job sampleSwitch sampleAnswers sampleJobs
                  "jx/demo/PR-2" 3 zeroBuild eq_refl)).
  vm_compute; reflexivity.
Defined.
